(** * EpisodeRenamer: a shallow embedding of [rename.py]

    The development follows the source file top to bottom: the Python
    string primitives the program relies on, a backtracking matcher for
    the regular expressions it uses, [natural_key], [parse_episode_info],
    [format_template], the preview builder with its three numbering
    branches and its conflict detection, and finally the rename executor
    and the undo engine over a small file-system model.

    Python [str] values are sequences of Unicode code points, so strings
    are [list N].  Exceptions are explicit: a computation that may raise
    returns [result A]. *)

From Stdlib Require Import List NArith ZArith Bool Lia Ascii String Sorted.
From stdpp Require Import base option list gmap.
Import ListNotations.

Local Open Scope N_scope.

(** ** Characters and strings *)

Abbreviation pstr := (list N).

(** ASCII literals: [u "ep2.mkv"] is the Python string ['ep2.mkv']. *)
Definition u (s : string) : pstr := map N_of_ascii (list_ascii_of_string s).

Definition in_range (lo hi c : N) : bool := (lo <=? c) && (c <=? hi).

Definition mem_char (c : N) (cs : pstr) : bool := existsb (N.eqb c) cs.

(** Character tables.  They are CPython's on U+0000..U+00FF.  Above
    U+00FF the model knows the Unicode white space, the super- and
    subscript digits, and treats every other code point as a caseless
    letter (which is what the CJK ideographs used by the parser are). *)
Module PyChar.

(** [\d], and the digits [int()] accepts: general category Nd. *)
Definition is_decimal (c : N) : bool := in_range 48 57 c.

Definition decimal_value (c : N) : Z := Z.of_N (c - 48).

(** [str.isdigit]: Nd, and the characters of numeric type Digit such as
    the superscripts U+00B2, U+00B3, U+00B9. *)
Definition isdigit (c : N) : bool :=
  is_decimal c || mem_char c [0xB2; 0xB3; 0xB9; 0x2070]
  || in_range 0x2074 0x2079 c || in_range 0x2080 0x2089 c.

(** [str.isspace] and [\s]. *)
Definition isspace (c : N) : bool :=
  in_range 0x09 0x0D c || in_range 0x1C 0x20 c
  || mem_char c [0x85; 0xA0; 0x1680; 0x2028; 0x2029; 0x202F; 0x205F; 0x3000]
  || in_range 0x2000 0x200A c.

Definition is_upper_ascii (c : N) : bool := in_range 65 90 c.
Definition is_lower_ascii (c : N) : bool := in_range 97 122 c.

Definition isalpha (c : N) : bool :=
  is_upper_ascii c || is_lower_ascii c
  || mem_char c [0xAA; 0xB5; 0xBA]
  || in_range 0xC0 0xD6 c || in_range 0xD8 0xF6 c || in_range 0xF8 0xFF c
  || ((0x100 <=? c) && negb (isspace c) && negb (isdigit c)).

Definition isnumeric (c : N) : bool := isdigit c || in_range 0xBC 0xBE c.

(** [\w]: alphanumeric or underscore. *)
Definition isword (c : N) : bool := isalpha c || isnumeric c || (c =? 95).

(** Simple lower-case mapping. *)
Definition lower (c : N) : N :=
  if is_upper_ascii c || (in_range 0xC0 0xDE c && negb (c =? 0xD7))
  then c + 32 else c.

Definition upper_ascii (c : N) : N := if is_lower_ascii c then c - 32 else c.

End PyChar.

(** ** Exceptions *)

Inductive pyexn := ValueError | TypeError | KeyError | IndexError | OSError.

Inductive result (A : Type) : Type :=
| Ok (a : A)
| Raise (e : pyexn).
Arguments Ok {A} a.
Arguments Raise {A} e.

Definition rbind {A B} (m : result A) (f : A → result B) : result B :=
  match m with Ok a => f a | Raise e => Raise e end.

#[global] Instance result_bind : MBind result := fun A B f m => rbind m f.
#[global] Instance result_ret : MRet result := @Ok.
#[global] Instance result_fmap : FMap result :=
  fun A B f m => match m with Ok a => Ok (f a) | Raise e => Raise e end.

Fixpoint rmapM {A B} (f : A → result B) (l : list A) : result (list B) :=
  match l with
  | [] => Ok []
  | x :: t => y ← f x; ys ← rmapM f t; Ok (y :: ys)
  end.

(** [try: body except Exception: handler] *)
Definition try_except {A} (body : result A) (handler : result A) : result A :=
  match body with Ok a => Ok a | Raise _ => handler end.

Definition is_ok {A} (r : result A) : bool :=
  match r with Ok _ => true | Raise _ => false end.

(** ** String methods *)
Module PyStr.

Definition lower (s : pstr) : pstr := map PyChar.lower s.

(** [s.isdigit()]: non-empty and every character is a digit. *)
Definition isdigit (s : pstr) : bool :=
  match s with [] => false | _ => forallb PyChar.isdigit s end.

Fixpoint lstrip (cs : pstr) (s : pstr) : pstr :=
  match s with
  | c :: t => if mem_char c cs then lstrip cs t else s
  | [] => []
  end.

Definition rstrip (cs : pstr) (s : pstr) : pstr := rev (lstrip cs (rev s)).

Definition strip (cs : pstr) (s : pstr) : pstr := rstrip cs (lstrip cs s).

(** [s.strip()] with no argument removes white space. *)
Fixpoint lstrip_ws (s : pstr) : pstr :=
  match s with
  | c :: t => if PyChar.isspace c then lstrip_ws t else s
  | [] => []
  end.

Definition strip_ws (s : pstr) : pstr := rev (lstrip_ws (rev (lstrip_ws s))).

Fixpoint startswith (p s : pstr) : bool :=
  match p, s with
  | [], _ => true
  | a :: p', b :: s' => (a =? b) && startswith p' s'
  | _ :: _, [] => false
  end.

Definition endswith (p s : pstr) : bool := startswith (rev p) (rev s).

Definition join (sep : pstr) (l : list pstr) : pstr :=
  match l with
  | [] => []
  | x :: t => x ++ concat (map (fun y => sep ++ y) t)
  end.

(** [s.replace(old, new[, count])].  [budget] is the number of
    replacements still allowed ([None]: no limit). *)
Fixpoint replace_from (fuel : nat) (old new : pstr) (budget : option nat)
    (s : pstr) : pstr :=
  match fuel with
  | O => s
  | S fuel' =>
    match budget with
    | Some O => s
    | _ =>
      let budget' := match budget with Some (S n) => Some n | b => b end in
      if startswith old s
      then new ++ replace_from fuel' old new budget' (drop (length old) s)
      else match s with
           | [] => []
           | c :: t => c :: replace_from fuel' old new budget t
           end
    end
  end.

(** With an empty [old] Python inserts [new] before every character and
    at the end. *)
Fixpoint replace_empty (new : pstr) (budget : option nat) (s : pstr) : pstr :=
  match budget with
  | Some O => s
  | _ =>
    let budget' := match budget with Some (S n) => Some n | b => b end in
    match s with
    | [] => new
    | c :: t => new ++ c :: replace_empty new budget' t
    end
  end.

Definition replace (old new : pstr) (budget : option nat) (s : pstr) : pstr :=
  match old with
  | [] => replace_empty new budget s
  | _ => replace_from (S (length s)) old new budget s
  end.

(** [s.zfill(width)] *)
Definition zfill (width : nat) (s : pstr) : pstr :=
  let fill := repeat 48 (width - length s)%nat in
  match s with
  | c :: t => if mem_char c [43; 45] then c :: fill ++ t else fill ++ s
  | [] => fill
  end.

(** [str(n)] for an integer. *)
Fixpoint digits_of_pos (fuel : nat) (n : N) (acc : pstr) : pstr :=
  match fuel with
  | O => acc
  | S fuel' =>
    let acc' := (48 + n mod 10) :: acc in
    if n <? 10 then acc' else digits_of_pos fuel' (n / 10) acc'
  end.

Definition of_N (n : N) : pstr := digits_of_pos (S (N.to_nat (N.log2 n))) n [].

Definition of_Z (z : Z) : pstr :=
  match z with
  | Zneg p => 45 :: of_N (Npos p)
  | _ => of_N (Z.to_N z)
  end.

(** [int(s)]: surrounding white space is ignored, one sign is allowed,
    and single underscores may separate digits.  (The interpreter's
    optional limit on the number of digits is not modelled.) *)
Fixpoint int_digits (prev_digit : bool) (acc : Z) (s : pstr) : option Z :=
  match s with
  | [] => if prev_digit then Some acc else None
  | c :: t =>
    if PyChar.is_decimal c then int_digits true (10 * acc + PyChar.decimal_value c)%Z t
    else if (c =? 95) && prev_digit then
      match t with
      | d :: _ => if PyChar.is_decimal d then int_digits false acc t else None
      | [] => None
      end
    else None
  end.

Definition int (s : pstr) : result Z :=
  let body := strip_ws s in
  let r :=
    match body with
    | c :: t =>
      if c =? 45 then Z.opp <$> int_digits false 0%Z t
      else if c =? 43 then int_digits false 0%Z t
      else int_digits false 0%Z body
    | [] => None
    end in
  match r with Some z => Ok z | None => Raise ValueError end.

(** Lexicographic [<] and [==] on strings. *)
Fixpoint ltb (a b : pstr) : bool :=
  match a, b with
  | [], [] => false
  | [], _ :: _ => true
  | _ :: _, [] => false
  | x :: a', y :: b' => if x =? y then ltb a' b' else x <? y
  end.

End PyStr.

(** ** Regular expressions

    A backtracking matcher with the priorities of Python's [re]: the
    alternatives of a choice are tried left to right, a greedy repetition
    tries one more iteration before it tries to stop, a lazy one the other
    way round, and [search] returns the first match at the leftmost
    position that has one. *)
Module Re.

Inductive regex : Type :=
| Cls (p : N → bool)            (* one character of a class *)
| Empty
| Seq (a b : regex)
| Alt (a b : regex)
| Rep (greedy : bool) (lo : nat) (hi : option nat) (a : regex)  (* a{lo,hi} *)
| Group (i : nat) (a : regex)   (* capturing group number i *)
| WordB.                        (* \b *)

Record mstate := MState {
  pos : nat;                    (* index of the next character *)
  prev : option N;              (* the character before it *)
  rest : pstr;                  (* the characters from [pos] on *)
  caps : list (nat * (nat * nat))  (* group number, start, end *)
}.

Definition orelse {A} (a b : option A) : option A :=
  match a with Some x => Some x | None => b end.

Definition word_of (c : option N) : bool :=
  match c with Some x => PyChar.isword x | None => false end.

Fixpoint run (r : regex) (k : mstate → option mstate) (st : mstate)
    : option mstate :=
  match r with
  | Cls p =>
    match rest st with
    | c :: t =>
      if p c then k (MState (S (pos st)) (Some c) t (caps st)) else None
    | [] => None
    end
  | Empty => k st
  | Seq a b => run a (run b k) st
  | Alt a b => orelse (run a k st) (run b k st)
  | Rep greedy lo hi a =>
    let extra := match hi with
                 | Some h => (h - lo)%nat
                 | None => length (rest st)
                 end in
    (fix mandatory (n : nat) : mstate → option mstate :=
       match n with
       | S n' => run a (mandatory n')
       | O =>
         (fix optional (e : nat) : mstate → option mstate :=
            fun st' =>
              match e with
              | O => k st'
              | S e' =>
                if greedy then orelse (run a (optional e') st') (k st')
                else orelse (k st') (run a (optional e') st')
              end) extra
       end) lo st
  | Group i a =>
    run a (fun st' =>
             k (MState (pos st') (prev st') (rest st')
                       ((i, (pos st, pos st')) :: caps st'))) st
  | WordB =>
    if xorb (word_of (prev st)) (word_of (head (rest st))) then k st else None
  end.

(** A match object. *)
Record rmatch := RMatch {
  m_start : nat;
  m_end : nat;
  m_groups : list (nat * (nat * nat))
}.

Definition slice (w : pstr) (a b : nat) : pstr := take (b - a) (drop a w).

Fixpoint assoc_nat {A} (i : nat) (l : list (nat * A)) : option A :=
  match l with
  | [] => None
  | (j, x) :: t => if Nat.eqb i j then Some x else assoc_nat i t
  end.

(** [m.group(i)]; a group that took no part in the match is [None]. *)
Definition group (w : pstr) (m : rmatch) (i : nat) : option pstr :=
  match assoc_nat i (m_groups m) with
  | Some (a, b) => Some (slice w a b)
  | None => None
  end.

(** Try the positions [i], [i+1], ... in turn; [s] is what is left of
    the subject at [i]. *)
Fixpoint search_from (r : regex) (i : nat) (before : option N) (s : pstr)
    : option rmatch :=
  match run r Some (MState i before s []) with
  | Some st => Some (RMatch i (pos st) (caps st))
  | None =>
    match s with
    | c :: t => search_from r (S i) (Some c) t
    | [] => None
    end
  end.

Definition char_before (w : pstr) (i : nat) : option N :=
  match i with O => None | S j => w !! j end.

Definition search_at (r : regex) (w : pstr) (i : nat) : option rmatch :=
  search_from r i (char_before w i) (drop i w).

(** [re.search(r, w)] *)
Definition search (r : regex) (w : pstr) : option rmatch := search_at r w 0.

(** [re.fullmatch(r, w)] *)
Definition fullmatch (r : regex) (w : pstr) : bool :=
  match run r (fun st => match rest st with [] => Some st | _ => None end)
            (MState 0 None w []) with
  | Some _ => true
  | None => false
  end.

(** The successive non-overlapping matches, left to right. *)
Fixpoint finditer_from (fuel : nat) (r : regex) (w : pstr) (i : nat)
    : list rmatch :=
  match fuel with
  | O => []
  | S fuel' =>
    if (length w <? i)%nat then []
    else match search_at r w i with
         | None => []
         | Some m =>
           let next := if (m_end m =? m_start m)%nat then S (m_end m)
                       else m_end m in
           m :: finditer_from fuel' r w next
         end
  end.

Definition finditer (r : regex) (w : pstr) : list rmatch :=
  finditer_from (S (length w)) r w 0.

(** [re.findall] for a pattern with exactly one group. *)
Definition findall1 (r : regex) (w : pstr) : list pstr :=
  map (fun m => default [] (group w m 1)) (finditer r w).

(** [re.split(r, w)]: the text between the matches, each followed by the
    texts of the groups listed in [groups].  (An unmatched group is
    [None] in Python; the patterns split on below have no optional
    group.) *)
Fixpoint split_go (groups : list nat) (w : pstr) (last : nat)
    (ms : list rmatch) : list pstr :=
  match ms with
  | [] => [drop last w]
  | m :: ms' =>
    slice w last (m_start m)
      :: map (fun i => default [] (group w m i)) groups
      ++ split_go groups w (m_end m) ms'
  end.

Definition split (groups : list nat) (r : regex) (w : pstr) : list pstr :=
  split_go groups w 0 (finditer r w).

(** [re.sub(r, '', w)] *)
Definition remove_all (r : regex) (w : pstr) : pstr :=
  concat (split_go [] w 0 (finditer r w)).

(** Pattern syntax. *)
Definition lit (c : N) : regex := Cls (N.eqb c).
Definition set (s : string) : regex := Cls (fun c => mem_char c (u s)).
Definition digit : regex := Cls PyChar.is_decimal.             (* \d *)
Definition space : regex := Cls PyChar.isspace.                (* \s *)
Definition dot : regex := Cls (fun c => negb (c =? 10)).       (* . *)
Definition rep (lo hi : nat) (a : regex) : regex := Rep true lo (Some hi) a.
Definition opt (a : regex) : regex := Rep true 0 (Some 1%nat) a.
Definition star (a : regex) : regex := Rep true 0 None a.
Definition plus (a : regex) : regex := Rep true 1 None a.
Definition star_lazy (a : regex) : regex := Rep false 0 None a.

Fixpoint seq_of (l : list regex) : regex :=
  match l with
  | [] => Empty
  | [a] => a
  | a :: t => Seq a (seq_of t)
  end.

(** A literal string. *)
Definition str (s : pstr) : regex := seq_of (map lit s).

(** A letter under [re.IGNORECASE]: both cases, and the two letters
    with a further Unicode case variant. *)
Definition letter_i (c : N) : regex :=
  let lo := PyChar.lower c in
  Cls (fun x => (x =? lo) || (x =? PyChar.upper_ascii lo)
                || ((lo =? 115) && (x =? 0x17F))
                || ((lo =? 105) && mem_char x [0x130; 0x131])).

Definition word_i (s : string) : regex := seq_of (map letter_i (u s)).

End Re.

(** ** Utility functions *)

(** The elements of a natural key: parsed digit runs and lower-cased
    text runs. *)
Inductive key_elem :=
| KInt (n : Z)
| KStr (s : pstr).

(** [(\d+)] *)
Definition re_digit_run : Re.regex := Re.Group 1 (Re.plus Re.digit).

(** The body of the loop of [natural_key]. *)
Definition key_part (p : pstr) : result key_elem :=
  if PyStr.isdigit p then n ← PyStr.int p; Ok (KInt n)
  else Ok (KStr (PyStr.lower p)).

Definition natural_key (s : pstr) : result (list key_elem) :=
  let parts := Re.split [1%nat] re_digit_run s in
  rmapM key_part parts.

(** ** [os.path] (POSIX flavour) *)
Module OsPath.

Definition slash : N := 47.
Definition period : N := 46.

(** [p.rfind(c)]: the last index of [c], or [-1]. *)
Fixpoint rfind_go (c : N) (p : pstr) (i : Z) (found : Z) : Z :=
  match p with
  | [] => found
  | x :: t => rfind_go c t (i + 1)%Z (if x =? c then i else found)
  end.

Definition rfind (c : N) (p : pstr) : Z := rfind_go c p 0%Z (-1)%Z.

Definition upto (i : Z) (p : pstr) : pstr := take (Z.to_nat i) p.
Definition from (i : Z) (p : pstr) : pstr := drop (Z.to_nat i) p.

Definition basename (p : pstr) : pstr := from (rfind slash p + 1) p.

Definition all_slashes (p : pstr) : bool := forallb (N.eqb slash) p.

Definition dirname (p : pstr) : pstr :=
  let head := upto (rfind slash p + 1) p in
  if negb (bool_decide (head = [])) && negb (all_slashes head)
  then PyStr.rstrip [slash] head
  else head.

(** [os.path.splitext]: the extension starts at the last dot of the
    last component, unless only dots precede it there. *)
Definition splitext (p : pstr) : pstr * pstr :=
  let sepIndex := rfind slash p in
  let dotIndex := rfind period p in
  if (sepIndex <? dotIndex)%Z
     && existsb (fun c => negb (c =? period))
                (Re.slice p (Z.to_nat (sepIndex + 1)) (Z.to_nat dotIndex))
  then (upto dotIndex p, from dotIndex p)
  else (p, []).

Definition isabs (p : pstr) : bool := PyStr.startswith [slash] p.

(** [os.path.join(a, b)] *)
Definition join (a b : pstr) : pstr :=
  if PyStr.startswith [slash] b then b
  else if bool_decide (a = []) || PyStr.endswith [slash] a then a ++ b
  else a ++ slash :: b.

(** [p.split('/')] *)
Fixpoint split_sep (p : pstr) (cur : pstr) : list pstr :=
  match p with
  | [] => [rev cur]
  | c :: t => if c =? slash then rev cur :: split_sep t []
              else split_sep t (c :: cur)
  end.

Definition dotdot : pstr := [period; period].

Fixpoint norm_comps (initial_slashes : bool) (comps : list pstr)
    (new_comps : list pstr) : list pstr :=  (* new_comps is reversed *)
  match comps with
  | [] => rev new_comps
  | comp :: t =>
    if bool_decide (comp = []) || bool_decide (comp = [period])
    then norm_comps initial_slashes t new_comps
    else if negb (bool_decide (comp = dotdot))
            || (negb initial_slashes && bool_decide (new_comps = []))
            || bool_decide (head new_comps = Some dotdot)
    then norm_comps initial_slashes t (comp :: new_comps)
    else norm_comps initial_slashes t (tail new_comps)
  end.

Definition normpath (path : pstr) : pstr :=
  match path with
  | [] => [period]
  | _ =>
    let initial := PyStr.startswith [slash] path in
    let two := PyStr.startswith [slash; slash] path
               && negb (PyStr.startswith [slash; slash; slash] path) in
    let comps := norm_comps initial (split_sep path []) [] in
    let body := PyStr.join [slash] comps in
    let out := if initial then (if two then [slash; slash] else [slash]) ++ body
               else body in
    match out with [] => [period] | _ => out end
  end.

(** [os.path.abspath(p)] when the working directory is [cwd]. *)
Definition abspath (cwd : pstr) (p : pstr) : pstr :=
  normpath (if isabs p then p else join cwd p).

End OsPath.

(** ** The episode parser *)

(** Stop tokens used when extracting the episode title. *)
Definition _STOP_TOKENS : list pstr :=
  map (fun t => PyStr.lower (u t))
    ["2160p"; "1080p"; "720p"; "480p"; "WEB-DL"; "WEB"; "WEBRip"; "WEB-DLRip";
     "WEB-DL2"; "BluRay"; "BRRip"; "BDRip"; "HDRip"; "HDTV"; "DVDRip";
     "x264"; "x265"; "h264"; "h265"; "hevc"; "AVC"; "AAC"; "DDP"; "DDP5.1";
     "DD+"; "Atmos"; "HEVC"; "10bit"; "8bit"; "PROPER"; "REPACK"; "EXTENDED";
     "UNRATED"]%string.

Module Pat.
Import Re.

Definition zh_di : N := 0x7B2C.      (* 第 *)
Definition zh_ji : N := 0x5B63.      (* 季 *)
Definition zh_episode : pstr := [0x96C6; 0x8BDD; 0x56DE].  (* 集 话 回 *)

(** [[._\-\s]+] *)
Definition separators : regex :=
  plus (Cls (fun c => mem_char c (u "._-") || PyChar.isspace c)).

(** [\d{3,4}p] *)
Definition resolution : regex := seq_of [rep 3 4 digit; lit 112].

(** [\d+\.\d+] *)
Definition audio_channels : regex := seq_of [plus digit; lit 46; plus digit].

(** [\[.*\]|\(.*\)] *)
Definition bracketed : regex :=
  Alt (seq_of [lit 91; star dot; lit 93]) (seq_of [lit 40; star dot; lit 41]).

(** 1) [[sS](\d{1,2})[ ._-]?[eE](\d{1,3})] *)
Definition sxxeyy : regex :=
  seq_of [set "sS"; Group 1 (rep 1 2 digit); opt (set " ._-"); set "eE";
          Group 2 (rep 1 3 digit)].

(** 2) [(\d{1,2})[xX](\d{1,3})] *)
Definition nxm : regex :=
  seq_of [Group 1 (rep 1 2 digit); set "xX"; Group 2 (rep 1 3 digit)].

(** 3) [[sS]eason[ ._-]*?(\d{1,2}).*?[eE]p(?:isode)?[ ._-]*?(\d{1,3})]
    with [re.IGNORECASE] *)
Definition season_episode : regex :=
  seq_of [word_i "season"; star_lazy (set " ._-"); Group 1 (rep 1 2 digit);
          star_lazy dot; word_i "ep"; opt (word_i "isode");
          star_lazy (set " ._-"); Group 2 (rep 1 3 digit)].

(** 4) [第\s*(\d{1,2})\s*季] *)
Definition zh_season : regex :=
  seq_of [lit zh_di; star space; Group 1 (rep 1 2 digit); star space;
          lit zh_ji].

(** 4), 5) [第\s*(\d{1,3})\s*[集话回]] *)
Definition zh_ep : regex :=
  seq_of [lit zh_di; star space; Group 1 (rep 1 3 digit); star space;
          Cls (fun c => mem_char c zh_episode)].

(** 6) [[eE]pisode[ ._-]*?(\d{1,3})] *)
Definition episode_word : regex :=
  seq_of [set "eE"; str (u "pisode"); star_lazy (set " ._-");
          Group 1 (rep 1 3 digit)].

(** 7) [\b(\d{1,3})\b] *)
Definition standalone_number : regex :=
  seq_of [WordB; Group 1 (rep 1 3 digit); WordB].

(** [r'\b' + re.escape(num) + r'\b'], for a [num] made of digits. *)
Definition this_number (num : pstr) : regex :=
  seq_of [WordB; str num; WordB].

(** [\d{1,3}] *)
Definition pure_numeric : regex := rep 1 3 digit.

(** [[eE](\d{1,})] *)
Definition episode_marker : regex := seq_of [set "eE"; Group 1 (plus digit)].

(** [[sS](\d{1,2})] *)
Definition season_marker : regex := seq_of [set "sS"; Group 1 (rep 1 2 digit)].

(** One or more of the characters that are illegal in file names:
    backslash, slash, colon, asterisk, question mark, double quote,
    angle brackets and the vertical bar. *)
Definition illegal_chars : regex :=
  plus (Cls (fun c => mem_char c [92; 47; 58; 42; 63; 34; 60; 62; 124])).

End Pat.

(** [int(m.group(i))] *)
Definition int_group (w : pstr) (m : Re.rmatch) (i : nat) : result Z :=
  match Re.group w m i with
  | Some g => PyStr.int g
  | None => Raise TypeError
  end.

(** The loop of [_extract_after_pos] over the tokens: [break] ends the
    collection, [continue] skips a token. *)
Fixpoint collect_title_tokens (tokens : list pstr) : list pstr :=
  match tokens with
  | [] => []
  | tok :: more =>
    if bool_decide (tok = []) then collect_title_tokens more
    else if bool_decide (PyStr.lower tok ∈ _STOP_TOKENS) then []
    else if Re.fullmatch Pat.resolution (PyStr.lower tok) then []
    else if Re.fullmatch Pat.audio_channels tok then []
    else if Re.fullmatch Pat.bracketed tok then collect_title_tokens more
    else tok :: collect_title_tokens more
  end.

Definition _extract_after_pos (s : pstr) (pos : nat) : option pstr :=
  let rem := PyStr.strip (u " ._-") (drop pos s) in
  match rem with
  | [] => None
  | _ =>
    let tokens := Re.split [] Pat.separators rem in
    match collect_title_tokens tokens with
    | [] => None
    | out_tokens => Some (PyStr.join (u ".") out_tokens)
    end
  end.

(** [(season, episode, extra_title)] *)
Definition parsed_info : Type := option Z * option Z * option pstr.

(** The cascade of rules, on the base name without its extension. *)
Definition parse_name (name : pstr) : result parsed_info :=
  (* 1) SxxEyy *)
  match Re.search Pat.sxxeyy name with
  | Some m =>
    season ← int_group name m 1;
    episode ← int_group name m 2;
    Ok (Some season, Some episode, _extract_after_pos name (Re.m_end m))
  | None =>
  (* 2) 2x03 style *)
  match Re.search Pat.nxm name with
  | Some m =>
    season ← int_group name m 1;
    episode ← int_group name m 2;
    Ok (Some season, Some episode, _extract_after_pos name (Re.m_end m))
  | None =>
  (* 3) "Season 2 Episode 3" *)
  match Re.search Pat.season_episode name with
  | Some m =>
    season ← int_group name m 1;
    episode ← int_group name m 2;
    Ok (Some season, Some episode, _extract_after_pos name (Re.m_end m))
  | None =>
  (* 4) season and episode markers *)
  match Re.search Pat.zh_season name with
  | Some m =>
    season ← int_group name m 1;
    match Re.search Pat.zh_ep name with
    | Some m2 =>
      episode ← int_group name m2 1;
      Ok (Some season, Some episode, _extract_after_pos name (Re.m_end m2))
    | None => Ok (Some season, None, None)
    end
  | None =>
  (* 5) episode marker only *)
  match Re.search Pat.zh_ep name with
  | Some m =>
    episode ← int_group name m 1;
    Ok (None, Some episode, _extract_after_pos name (Re.m_end m))
  | None =>
  (* 6) "Episode 12" *)
  match Re.search Pat.episode_word name with
  | Some m =>
    episode ← int_group name m 1;
    Ok (None, Some episode, _extract_after_pos name (Re.m_end m))
  | None =>
  (* 7) first standalone number *)
  match Re.findall1 Pat.standalone_number name with
  | num :: _ =>
    episode ← PyStr.int num;
    let extra := match Re.search (Pat.this_number num) name with
                 | Some first_pos => _extract_after_pos name (Re.m_end first_pos)
                 | None => None
                 end in
    Ok (None, Some episode, extra)
  | [] => Ok (None, None, None)
  end end end end end end end.

Definition parse_episode_info (filename : pstr) : result parsed_info :=
  let name := (OsPath.splitext (OsPath.basename filename)).1 in
  parse_name name.

(** ** Template formatting *)

(** The keyword arguments handed to [str.format]. *)
Record fmt_context := FmtContext {
  ctx_title : pstr;
  ctx_season : Z;
  ctx_episode : Z;
  ctx_ep : Z;
  ctx_ext : pstr;
  ctx_orig : pstr
}.

(** [template.format] applied to the context as keyword arguments is
    Python's built-in; the development is parametric in it.  It returns
    the formatted string or raises. *)
Class StrFormat := str_format : pstr → fmt_context → result pstr.

Definition format_template `{StrFormat} (template title : pstr)
    (season episode : option Z) (ext orig : pstr) : result pstr :=
  try_except
    (let s := match season with None => 0%Z | Some v => v end in
     let e := match episode with None => 0%Z | Some v => v end in
     let context := FmtContext title s e e (PyStr.lstrip (u ".") ext) orig in
     str_format template context)
    (let out := PyStr.replace (u "{title}") title None template in
     let out := PyStr.replace (u "{ext}") (PyStr.lstrip (u ".") ext) None out in
     let out := PyStr.replace (u "{orig}") orig None out in
     let out := PyStr.replace (u "{season}")
                  (PyStr.of_Z (match season with Some v => v | None => 0%Z end))
                  None out in
     let out := PyStr.replace (u "{episode}")
                  (PyStr.of_Z (match episode with Some v => v | None => 0%Z end))
                  None out in
     let out := PyStr.replace (u "{ep}")
                  (PyStr.of_Z (match episode with Some v => v | None => 0%Z end))
                  None out in
     Ok out).

(** An executable [str.format] for the templates used in the examples:
    literal text, the escapes [{{] and [}}], and fields [{name}] or
    [{name:spec}] where [name] is looked up in the context and [spec],
    allowed on the integer fields only, is an optional [0], a width and
    an optional [d].  On such templates it is what Python computes; any
    other field syntax is outside this instance and reported as an
    exception. *)
Module BasicFormat.

Inductive value := VStr (s : pstr) | VInt (z : Z).

Definition lookup_field (name : pstr) (c : fmt_context) : option value :=
  if bool_decide (name = u "title") then Some (VStr (ctx_title c))
  else if bool_decide (name = u "season") then Some (VInt (ctx_season c))
  else if bool_decide (name = u "episode") then Some (VInt (ctx_episode c))
  else if bool_decide (name = u "ep") then Some (VInt (ctx_ep c))
  else if bool_decide (name = u "ext") then Some (VStr (ctx_ext c))
  else if bool_decide (name = u "orig") then Some (VStr (ctx_orig c))
  else None.

Fixpoint span_until (c : N) (s : pstr) : option (pstr * pstr) :=
  match s with
  | [] => None
  | x :: t =>
    if x =? c then Some ([], t)
    else match span_until c t with
         | Some (a, b) => Some (x :: a, b)
         | None => None
         end
  end.

Definition format_int (spec : pstr) (z : Z) : result pstr :=
  let zero := PyStr.startswith (u "0") spec in
  let spec := if zero then drop 1 spec else spec in
  let spec := if PyStr.endswith (u "d") spec then take (length spec - 1) spec
              else spec in
  let text := PyStr.of_Z z in
  match spec with
  | [] => Ok text
  | _ =>
    if forallb PyChar.is_decimal spec then
      match PyStr.int spec with
      | Ok w =>
        if zero then Ok (PyStr.zfill (Z.to_nat w) text)
        else Ok (repeat 32 (Z.to_nat w - length text)%nat ++ text)
      | Raise e => Raise e
      end
    else Raise ValueError
  end.

Definition format_field (field : pstr) (c : fmt_context) : result pstr :=
  let '(name, spec) := match span_until 58 field with
                       | Some (n, s) => (n, Some s)
                       | None => (field, None)
                       end in
  match name with
  | [] => Raise IndexError
  | _ =>
    if forallb PyChar.is_decimal name then Raise IndexError
    else if negb (forallb (fun x => PyChar.isalpha x || PyChar.is_decimal x
                                    || (x =? 95)) name)
    then Raise ValueError
    else match lookup_field name c, spec with
         | None, _ => Raise KeyError
         | Some (VStr s), None => Ok s
         | Some (VStr s), Some [] => Ok s
         | Some (VStr s), Some _ => Raise ValueError
         | Some (VInt z), None => Ok (PyStr.of_Z z)
         | Some (VInt z), Some sp => format_int sp z
         end
  end.

Fixpoint format_go (fuel : nat) (t : pstr) (c : fmt_context) : result pstr :=
  match fuel with
  | O => Ok []
  | S fuel' =>
    match t with
    | [] => Ok []
    | 123 :: 123 :: t' => r ← format_go fuel' t' c; Ok (123 :: r)
    | 125 :: 125 :: t' => r ← format_go fuel' t' c; Ok (125 :: r)
    | 125 :: _ => Raise ValueError
    | 123 :: t' =>
      match span_until 125 t' with
      | None => Raise ValueError
      | Some (field, after) =>
        if mem_char 123 field then Raise ValueError
        else v ← format_field field c;
             r ← format_go fuel' after c;
             Ok (v ++ r)
      end
    | x :: t' => r ← format_go fuel' t' c; Ok (x :: r)
    end
  end.

Definition format : StrFormat := fun t c => format_go (S (length t)) t c.

End BasicFormat.

(** ** The preview builder *)

(** The Tk variables read by [preview] and [_execute_task]. *)
Record settings := Settings {
  var_sort_method : pstr;             (* name / guess / numeric *)
  var_template : pstr;
  var_title : pstr;
  var_season : pstr;
  var_pad : Z;
  var_offset : Z;
  var_include_episode_title : bool;
  var_conflict_suffix : pstr;
  var_move_season_folder : bool
}.

(** One row of [preview_list]: [(oldabs, newabs, oldname, newname)]. *)
Record entry := Entry {
  oldabs : pstr;
  newabs : pstr;
  oldname : pstr;
  newname : pstr
}.

#[global] Instance entry_eq_dec : EqDecision entry.
Proof. solve_decision. Defined.

(** *** Sorting with a key

    [sorted(l, key=f)] computes every key first and is stable.  Elements
    are compared with [<] only.  The model sorts by stable insertion;
    which pairs the interpreter compares is not modelled, so the two may
    differ in whether a comparison that raises is reached.  For keys of
    one shape no comparison raises ([key_lt_alternating] below). *)
Fixpoint insert_sorted {K A} (lt : K → K → result bool) (x : K * A)
    (l : list (K * A)) : result (list (K * A)) :=
  match l with
  | [] => Ok [x]
  | y :: t =>
    b ← lt x.1 y.1;
    if b : bool then Ok (x :: y :: t)
    else r ← insert_sorted lt x t; Ok (y :: r)
  end.

Fixpoint sort_keyed {K A} (lt : K → K → result bool) (l : list (K * A))
    (acc : list (K * A)) : result (list (K * A)) :=
  match l with
  | [] => Ok acc
  | x :: t => acc' ← insert_sorted lt x acc; sort_keyed lt t acc'
  end.

Definition sorted_by {K A} (lt : K → K → result bool) (key : A → result K)
    (l : list A) : result (list A) :=
  keyed ← rmapM (fun a => k ← key a; Ok (k, a)) l;
  s ← sort_keyed lt keyed [];
  Ok (map snd s).

(** Comparison of key elements: [==] never raises, [<] raises
    [TypeError] between an integer and a string. *)
Definition key_elem_eqb (a b : key_elem) : bool :=
  match a, b with
  | KInt x, KInt y => (x =? y)%Z
  | KStr x, KStr y => bool_decide (x = y)
  | _, _ => false
  end.

Definition key_elem_lt (a b : key_elem) : result bool :=
  match a, b with
  | KInt x, KInt y => Ok (x <? y)%Z
  | KStr x, KStr y => Ok (PyStr.ltb x y)
  | _, _ => Raise TypeError
  end.

(** [<] on lists: the first pair of unequal elements decides. *)
Fixpoint key_lt (a b : list key_elem) : result bool :=
  match a, b with
  | [], [] => Ok false
  | [], _ :: _ => Ok true
  | _ :: _, [] => Ok false
  | x :: a', y :: b' =>
    if key_elem_eqb x y then key_lt a' b' else key_elem_lt x y
  end.

(** The tuples returned by [guess_key]. *)
Inductive guess_key_t :=
| GuessParsed (e_auto : Z) (k : list key_elem)      (* (0, e_auto, key) *)
| GuessPlain (k : list key_elem).                   (* (1, key) *)

Definition guess_lt (a b : guess_key_t) : result bool :=
  match a, b with
  | GuessParsed e1 k1, GuessParsed e2 k2 =>
    if (e1 =? e2)%Z then key_lt k1 k2 else Ok (e1 <? e2)%Z
  | GuessParsed _ _, GuessPlain _ => Ok true
  | GuessPlain _, GuessParsed _ _ => Ok false
  | GuessPlain k1, GuessPlain k2 => key_lt k1 k2
  end.

Definition guess_key (p : pstr) : result guess_key_t :=
  info ← parse_episode_info p;
  match info.1.2 with
  | Some e_auto =>
    k ← natural_key (OsPath.basename p); Ok (GuessParsed e_auto k)
  | None => k ← natural_key (OsPath.basename p); Ok (GuessPlain k)
  end.

(** [(x[2] if x[2] is not None else 999999, natural_key(basename(x[0])))] *)
Definition pair_lt (a b : Z * list key_elem) : result bool :=
  if (a.1 =? b.1)%Z then key_lt a.2 b.2 else Ok (a.1 <? b.1)%Z.

(** One element of [parsed]: [(p, s_auto, e_auto, extra_auto)]. *)
Record parsed_file := Parsed {
  p_path : pstr;
  s_auto : option Z;
  e_auto : option Z;
  extra_auto : option pstr
}.

Definition parse_file (p : pstr) : result parsed_file :=
  info ← parse_episode_info p;
  Ok (Parsed p info.1.1 info.1.2 info.2).

Definition sort_files (method : pstr) (files : list pstr) : result (list pstr) :=
  if bool_decide (method = u "name") then
    sorted_by key_lt (fun p => natural_key (OsPath.basename p)) files
  else if bool_decide (method = u "numeric") then
    sorted_by key_lt (fun p => natural_key (OsPath.basename p)) files
  else if bool_decide (method = u "guess") then
    sorted_by guess_lt guess_key files
  else Ok files.

(** [max(2, len(files)//3)] *)
Definition threshold (n : nat) : nat := Nat.max 2 (n / 3).

Definition parsed_es (parsed : list parsed_file) : list Z :=
  omap e_auto parsed.

Definition use_parsed_numbers (parsed : list parsed_file) : bool :=
  (threshold (length parsed) <=? length (parsed_es parsed))%nat.

Definition name_no_ext (p : pstr) : pstr :=
  (OsPath.splitext (OsPath.basename p)).1.

Definition pure_numeric_files (parsed : list parsed_file) : list pstr :=
  filter (fun p => Re.fullmatch Pat.pure_numeric (name_no_ext p) = true)
         (map p_path parsed).

(** The three branches of the [if]/[elif]/[else]. *)
Inductive strategy := TrustParsedNumbers | PureNumericSequence | SequentialFallback.

Definition select_strategy (parsed : list parsed_file) : strategy :=
  let pure := pure_numeric_files parsed in
  if use_parsed_numbers parsed then TrustParsedNumbers
  else if negb (bool_decide (pure = []))
          && (threshold (length parsed) <=? length pure)%nat
  then PureNumericSequence
  else SequentialFallback.

(** [season_val = int(season_input) if season_input.isdigit() else None] *)
Definition season_val_of (season_input : pstr) : result (option Z) :=
  if PyStr.isdigit season_input then v ← PyStr.int season_input; Ok (Some v)
  else Ok None.

Definition _apply_padding_to_template (newbase : pstr) (pad : Z) : pstr :=
  match Re.search Pat.episode_marker newbase with
  | Some m =>
    let num := default [] (Re.group newbase m 1) in
    if (Z.of_nat (length num) <? pad)%Z
    then PyStr.replace num (PyStr.zfill (Z.to_nat pad) num) (Some 1%nat) newbase
    else newbase
  | None => newbase
  end.

(** What a branch decides for one file before rendering: the season, the
    episode number, and the title to append, if any. *)
Record numbered := Numbered {
  n_path : pstr;
  n_season : Z;
  n_ep : Z;
  n_extra : option pstr
}.

Section Preview.
Context `{StrFormat}.
Variable cfg : settings.

Definition title_of : pstr :=
  match PyStr.strip_ws (var_title cfg) with
  | [] => u "Series"
  | t => t
  end.

(** The rest of a loop body once season and episode are known. *)
Definition render (x : numbered) : result entry :=
  let p := n_path x in
  let ext := (OsPath.splitext p).2 in
  base_new ← format_template (var_template cfg) title_of
               (Some (n_season x)) (Some (n_ep x)) ext (OsPath.basename p);
  let base_new :=
    match n_extra x with
    | Some (_ :: _ as extra) =>
      if var_include_episode_title cfg then
        let '(b, e) := OsPath.splitext base_new in
        let safe_extra :=
          PyStr.strip (u ". ") (Re.remove_all Pat.illegal_chars extra) in
        match safe_extra with
        | [] => base_new
        | _ => b ++ u "." ++ safe_extra ++ e
        end
      else base_new
    | _ => base_new
    end in
  let base_new := _apply_padding_to_template base_new (var_pad cfg) in
  let newname := OsPath.basename base_new in
  Ok (Entry p (OsPath.join (OsPath.dirname p) newname) (OsPath.basename p)
            newname).

(** Branch 1: trust the parsed numbers. *)
Definition number_trust (season_val : option Z) (idx : nat) (x : parsed_file)
    : numbered :=
  let season_final := match season_val with
                      | Some v => Some v
                      | None => s_auto x
                      end in
  let ep := (match e_auto x with
             | Some e => e
             | None => Z.of_nat idx + 1
             end + var_offset cfg)%Z in
  let season_final := match season_final with Some v => v | None => 1%Z end in
  Numbered (p_path x) season_final ep (extra_auto x).

Definition numbering_trust (season_val : option Z) (parsed : list parsed_file)
    : result (list numbered) :=
  parsed_sorted ←
    sorted_by pair_lt
      (fun x => k ← natural_key (OsPath.basename (p_path x));
                Ok (match e_auto x with Some e => e | None => 999999%Z end, k))
      parsed;
  Ok (imap (number_trust season_val) parsed_sorted).

(** Branch 2: pure numeric names as a sequence, then the other files. *)
Definition season_or_1 (season_val : option Z) : Z :=
  match season_val with Some v => v | None => 1%Z end.

Definition numbering_pure (season_val : option Z) (parsed : list parsed_file)
    (pure : list pstr) : result (list numbered) :=
  files_sorted_num ←
    sorted_by (fun a b : Z => Ok (a <? b)%Z)
              (fun p => PyStr.int (name_no_ext p)) pure;
  let first :=
    imap (fun i p => Numbered p (season_or_1 season_val)
                       (Z.of_nat (S i) + var_offset cfg)%Z None)
         files_sorted_num in
  let other_files :=
    filter (fun p => p ∉ pure) (map p_path parsed) in
  let second :=
    map (fun p => Numbered p (season_or_1 season_val)
                    (Z.of_nat (length files_sorted_num) + 1 + var_offset cfg)%Z
                    None)
        other_files in
  Ok (first ++ second).

(** Branch 3: sequential assignment in the current order. *)
Definition number_fallback (season_val : option Z) (i : nat) (x : parsed_file)
    : numbered :=
  let idx := Z.of_nat (S i) in
  let season_final :=
    match season_val with
    | Some v => v
    | None => match s_auto x with Some s => s | None => 1%Z end
    end in
  let ep := (match e_auto x with Some e => e | None => idx end
             + var_offset cfg)%Z in
  Numbered (p_path x) season_final ep (extra_auto x).

Definition numbering_fallback (season_val : option Z)
    (parsed : list parsed_file) : list numbered :=
  imap (number_fallback season_val) parsed.

(** Everything up to the end of the [if]/[elif]/[else]. *)
Definition numbering (file_list : list pstr) : result (list numbered) :=
  match file_list with
  | [] => Ok []
  | _ =>
    files ← sort_files (var_sort_method cfg) file_list;
    parsed ← rmapM parse_file files;
    season_val ← season_val_of (PyStr.strip_ws (var_season cfg));
    match select_strategy parsed with
    | TrustParsedNumbers => numbering_trust season_val parsed
    | PureNumericSequence =>
      numbering_pure season_val parsed (pure_numeric_files parsed)
    | SequentialFallback => Ok (numbering_fallback season_val parsed)
    end
  end.

(** [preview_list] after one call of [preview]. *)
Definition preview (file_list : list pstr) : result (list entry) :=
  l ← numbering file_list;
  rmapM render l.

End Preview.

(** *** Conflict detection *)

Inductive tag := TagConflict | TagUnchanged | TagPlain.

Definition conflict_key (e : entry) : pstr * pstr :=
  (OsPath.dirname (oldabs e), PyStr.lower (newname e)).

Fixpoint conflict_scan (l : list entry) (conflict_set : gset (pstr * pstr))
    (seen_targets : gmap (pstr * pstr) pstr) : gset (pstr * pstr) :=
  match l with
  | [] => conflict_set
  | e :: t =>
    let key := conflict_key e in
    match seen_targets !! key with
    | Some _ => conflict_scan t ({[key]} ∪ conflict_set) seen_targets
    | None => conflict_scan t conflict_set (<[key := oldabs e]> seen_targets)
    end
  end.

Definition conflict_set_of (preview_list : list entry) : gset (pstr * pstr) :=
  conflict_scan preview_list ∅ ∅.

Definition tag_of (conflict_set : gset (pstr * pstr)) (e : entry) : tag :=
  if bool_decide (conflict_key e ∈ conflict_set) then TagConflict
  else if bool_decide (oldname e = newname e) then TagUnchanged
  else TagPlain.

Definition tags (preview_list : list entry) : list tag :=
  map (tag_of (conflict_set_of preview_list)) preview_list.

(** ** A file system

    Regular files (with an opaque content) and directories, named by
    absolute normalised paths; a path given to an operation is resolved
    against the working directory first.  Symbolic links are not
    modelled, and neither is moving a directory: [move] raises when its
    source is not a regular file. *)
Module FS.

Record t := Make {
  files : gmap pstr N;
  dirs : gset pstr;
  cwd : pstr
}.

Definition resolve (st : t) (p : pstr) : pstr := OsPath.abspath (cwd st) p.

Definition isfile (st : t) (p : pstr) : bool :=
  negb (bool_decide (p = [])) && bool_decide (is_Some (files st !! resolve st p)).

Definition isdir (st : t) (p : pstr) : bool :=
  negb (bool_decide (p = [])) && bool_decide (resolve st p ∈ dirs st).

(** [os.path.exists] *)
Definition path_exists (st : t) (p : pstr) : bool := isfile st p || isdir st p.

(** A directory and the directories above it. *)
Fixpoint ancestors (fuel : nat) (d : pstr) : list pstr :=
  match fuel with
  | O => [d]
  | S fuel' =>
    let up := OsPath.dirname d in
    if bool_decide (up = d) then [d] else d :: ancestors fuel' up
  end.

(** [os.makedirs(d, exist_ok=True)] *)
Definition makedirs (st : t) (d : pstr) : result t :=
  match d with
  | [] => Raise OSError
  | _ =>
    let ds := ancestors (length (resolve st d)) (resolve st d) in
    if existsb (fun a => bool_decide (is_Some (files st !! a))) ds
    then Raise OSError
    else Ok (Make (files st) (list_to_set ds ∪ dirs st) (cwd st))
  end.

(** [shutil.move(src, dst)] for a regular file [src]: into [dst] when
    that is a directory, otherwise onto [dst], replacing a file that is
    there. *)
Definition move (st : t) (src dst : pstr) : result t :=
  match src, files st !! resolve st src with
  | _ :: _, Some content =>
    let into := isdir st dst in
    let real_dst :=
      if into then OsPath.join dst (OsPath.basename (PyStr.rstrip [OsPath.slash] src))
      else dst in
    if into && path_exists st real_dst then Raise OSError
    else
      match real_dst with
      | [] => Raise OSError
      | _ =>
        let d := resolve st real_dst in
        if bool_decide (OsPath.dirname d ∈ dirs st) && negb (isdir st real_dst)
        then Ok (Make (<[d := content]> (delete (resolve st src) (files st)))
                      (dirs st) (cwd st))
        else Raise OSError
      end
  | _, _ => Raise OSError
  end.

End FS.

(** ** The rename executor *)

(** A row of the operation log, and the rows a CSV reader gives back for
    a log written by the CSV writer. *)
Definition log_row : Type := pstr * pstr.

Definition csv_rows (log : list log_row) : list (list pstr) :=
  map (fun r => [r.1; r.2]) log.

Section Executor.
Variable cfg : settings.

(** The [while os.path.exists(t)] loop: [base+suffix+ext], then
    [base+suffix+"1"+ext], [base+suffix+"2"+ext], ...  [None] when no
    free name is found within [fuel] rounds. *)
Fixpoint free_name (fuel : nat) (st : FS.t) (base ext : pstr) (i : Z) (t : pstr)
    : option pstr :=
  if FS.path_exists st t then
    match fuel with
    | O => None
    | S fuel' =>
      free_name fuel' st base ext (i + 1)%Z
                (base ++ var_conflict_suffix cfg ++ PyStr.of_Z i ++ ext)
    end
  else Some t.

Definition resolve_conflict (fuel : nat) (st : FS.t) (target : pstr)
    : option pstr :=
  if FS.path_exists st target then
    let '(base, ext) := OsPath.splitext target in
    free_name fuel st base ext 1%Z (base ++ var_conflict_suffix cfg ++ ext)
  else Some target.

(** The destination before conflict resolution: [(target_dir, target)]. *)
Definition destination (e : entry) : result (pstr * pstr) :=
  if var_move_season_folder cfg then
    season_to_use ←
      match Re.search Pat.season_marker (newname e) with
      | Some m => int_group (newname e) m 1
      | None =>
        match var_season cfg with
        | [] => Ok 1%Z
        | s => PyStr.int s
        end
      end;
    let season_folder := u "S" ++ PyStr.zfill 2 (PyStr.of_Z season_to_use) in
    let target_dir := OsPath.join (OsPath.dirname (oldabs e)) season_folder in
    Ok (target_dir, OsPath.join target_dir (newname e))
  else Ok (OsPath.dirname (newabs e), newabs e).

(** One round of the loop: the new state and the row logged, if the
    move succeeded.  An exception skips the entry. *)
Definition execute_entry (fuel : nat) (st : FS.t) (e : entry)
    : option (FS.t * option log_row) :=
  match destination e with
  | Raise _ => Some (st, None)
  | Ok (target_dir, target) =>
    match (if FS.path_exists st target_dir then Ok st
           else FS.makedirs st target_dir) with
    | Raise _ => Some (st, None)
    | Ok st1 =>
      match resolve_conflict fuel st1 target with
      | None => None
      | Some target' =>
        match FS.move st1 (oldabs e) target' with
        | Ok st2 => Some (st2, Some (oldabs e, target'))
        | Raise _ => Some (st1, None)
        end
      end
    end
  end.

(** [_execute_task]: the final state and [log_rows]. *)
Fixpoint execute_loop (fuel : nat) (st : FS.t) (preview_list : list entry)
    (log_rows : list log_row) : option (FS.t * list log_row) :=
  match preview_list with
  | [] => Some (st, log_rows)
  | e :: rest =>
    match execute_entry fuel st e with
    | None => None
    | Some (st', Some row) => execute_loop fuel st' rest (log_rows ++ [row])
    | Some (st', None) => execute_loop fuel st' rest log_rows
    end
  end.

Definition _execute_task (fuel : nat) (st : FS.t) (preview_list : list entry)
    : option (FS.t * list log_row) :=
  execute_loop fuel st preview_list [].

End Executor.

(** ** The undo engine *)

Definition nonempty (p : pstr) : bool := negb (bool_decide (p = [])).

(** The source of a reversal: [new] if it exists, else [old] if it
    exists, else the same two made absolute. *)
Definition undo_source (st : FS.t) (old : pstr) (new : option pstr)
    : option pstr :=
  let new_s := default [] new in
  if nonempty new_s && FS.path_exists st new_s then Some new_s
  else if nonempty old && FS.path_exists st old then Some old
  else
    let cand_new := if nonempty new_s then Some (FS.resolve st new_s) else None in
    let cand_old := if nonempty old then Some (FS.resolve st old) else None in
    match cand_new, cand_old with
    | Some c, _ =>
      if FS.path_exists st c then Some c
      else match cand_old with
           | Some o => if FS.path_exists st o then Some o else None
           | None => None
           end
    | None, Some o => if FS.path_exists st o then Some o else None
    | None, None => None
    end.

(** One row of the log.  A failing [makedirs] is outside the inner
    [try] and aborts the whole run; a failing move skips the row. *)
Definition undo_row (st : FS.t) (r : list pstr)
    : result (FS.t * option (pstr * pstr)) :=
  match r with
  | [] => Ok (st, None)
  | old :: more =>
    let new := head more in
    match undo_source st old new with
    | None => Ok (st, None)
    | Some source =>
      let target := if OsPath.isabs old then old else FS.resolve st old in
      let tdir := OsPath.dirname target in
      st1 ← (if FS.path_exists st tdir then Ok st else FS.makedirs st tdir);
      match FS.move st1 source target with
      | Ok st2 => Ok (st2, Some (source, target))
      | Raise _ => Ok (st1, None)
      end
    end
  end.

(** [_undo_task]: the final state and, unless the run was aborted, the
    rows of the rollback log. *)
Fixpoint undo_loop (st : FS.t) (rows : list (list pstr))
    (rows_out : list (pstr * pstr)) : FS.t * result (list (pstr * pstr)) :=
  match rows with
  | [] => (st, Ok rows_out)
  | r :: rest =>
    match undo_row st r with
    | Raise e => (st, Raise e)
    | Ok (st', Some row) => undo_loop st' rest (rows_out ++ [row])
    | Ok (st', None) => undo_loop st' rest rows_out
    end
  end.

Definition _undo_task (st : FS.t) (rows : list (list pstr))
    : FS.t * result (list (pstr * pstr)) :=
  undo_loop st rows [].

(** ** Scanning *)

Definition VIDEO_EXTS : list pstr :=
  map u [".mp4"; ".mkv"; ".avi"; ".mov"; ".flv"; ".wmv"; ".ts"; ".m4v"]%string.

Definition is_video (filename : pstr) : bool :=
  bool_decide (PyStr.lower (OsPath.splitext filename).2 ∈ VIDEO_EXTS).

(** The innermost loop body of [_scan_task]; the state is
    [(seen, files)]. *)
Definition scan_file (root : pstr) (acc : gset pstr * list pstr) (f : pstr)
    : gset pstr * list pstr :=
  if is_video f then
    let p := OsPath.join root f in
    if bool_decide (p ∈ acc.1) then acc else ({[p]} ∪ acc.1, acc.2 ++ [p])
  else acc.

(** The three nested loops.  [walk] lists, folder after folder, the
    [(root, filenames)] pairs that [os.walk] or [os.listdir] deliver; a
    listing that raises ends the task and is not modelled. *)
Definition scan_collect (walk : list (pstr * list pstr)) : list pstr :=
  (foldl (fun acc d => foldl (scan_file d.1) acc d.2) (∅, []) walk).2.

(** [_scan_task]: the list handed to [_on_scan_done]. *)
Definition _scan_task (walk : list (pstr * list pstr)) : result (list pstr) :=
  sorted_by key_lt (fun p => natural_key (OsPath.basename p)) (scan_collect walk).

(** ** Configuration *)

(** JSON values. *)
#[warnings="-register-all"] Inductive json :=
| JNull
| JBool (b : bool)
| JInt (z : Z)
| JStr (s : pstr)
| JList (l : list json)
| JDict (d : gmap pstr json).

Definition DEFAULT_CONFIG : list (pstr * json) :=
  [(u "recent_folders", JList []);
   (u "title", JStr []);
   (u "season", JStr (u "1"));
   (u "pad", JInt 3);
   (u "offset", JInt 0);
   (u "recursive", JBool false);
   (u "move_season_folder", JBool false);
   (u "template", JStr (u "{title}.S{season:02}E{episode:03}.{ext}"));
   (u "conflict_suffix", JStr (u "_dup"));
   (u "dryrun", JBool true);
   (u "sort_method", JStr (u "name"));
   (u "include_episode_title", JBool true)].

(** What reading the configuration file gives: no file, a failure to
    read or decode it, or the decoded value. *)
Inductive config_file := NoFile | Unreadable | Decoded (data : json).

(** [data.setdefault(k, v)] *)
Definition setdefault (data : gmap pstr json) (kv : pstr * json) : gmap pstr json :=
  match data !! kv.1 with
  | Some _ => data
  | None => <[kv.1 := kv.2]> data
  end.

(** [load_config]: the configuration returned, and whether the defaults
    were written to the file.  A decoded value that is not an object has
    no [setdefault]; the exception is caught like a failure to read. *)
Definition load_config (file : config_file) : gmap pstr json * bool :=
  match file with
  | Decoded (JDict data) => (foldl setdefault data DEFAULT_CONFIG, false)
  | _ => (list_to_map DEFAULT_CONFIG, true)
  end.

(** ** The folder list and drag and drop *)

Definition MAX_RECENT : nat := 10.

(** The loop of [_parse_dnd_paths] over the characters of [data]; 123 and
    125 are the braces. *)
Fixpoint parse_dnd_loop (data : pstr) (res : list pstr) (cur : pstr)
    (inbrace : bool) : list pstr :=
  match data with
  | [] => match cur with [] => res | _ => res ++ [cur] end
  | ch :: t =>
    if ch =? 123 then parse_dnd_loop t res [] true
    else if ch =? 125 then parse_dnd_loop t (res ++ [cur]) [] false
    else if inbrace then parse_dnd_loop t res (cur ++ [ch]) inbrace
    else if PyChar.isspace ch then
      match cur with
      | [] => parse_dnd_loop t res cur inbrace
      | _ => parse_dnd_loop t (res ++ [cur]) [] inbrace
      end
    else parse_dnd_loop t res (cur ++ [ch]) inbrace
  end.

Definition _parse_dnd_paths (data : pstr) : list pstr :=
  parse_dnd_loop data [] [] false.

(** The loop of [_on_drop] and of [_load_recent]: a path is appended when
    it is a directory and not yet in the list. *)
Definition add_folders (st : FS.t) (folders paths : list pstr) : list pstr :=
  foldl (fun fs p => if FS.isdir st p && bool_decide (p ∉ fs) then fs ++ [p] else fs)
        folders paths.

(** [self.folders] after [_on_drop]. *)
Definition _on_drop (st : FS.t) (folders : list pstr) (data : pstr) : list pstr :=
  add_folders st folders (_parse_dnd_paths data).

(** [recent_folders] as [_save_all_config] stores it:
    [[p for p in self.folders if os.path.isdir(p)][-MAX_RECENT:]]. *)
Definition saved_recent (st : FS.t) (folders : list pstr) : list pstr :=
  let recent := filter (fun p => FS.isdir st p = true) folders in
  drop (length recent - MAX_RECENT) recent.

(** [self.folders] after [_load_recent] on the empty list of a fresh
    start. *)
Definition _load_recent (st : FS.t) (recent : list pstr) : list pstr :=
  add_folders st [] recent.

(** * Notions used in the statements and proofs *)

Module ReSpec.
Import Re.

(** [n] successive steps of a relation. *)
Fixpoint iter_rel (n : nat) (R : mstate → mstate → Prop) (s s' : mstate) : Prop :=
  match n with
  | O => s' = s
  | S n' => ∃ m, R s m ∧ iter_rel n' R m s'
  end.

(** What a successful run of [r] does to the matcher state. *)
Fixpoint den (r : regex) (s s' : mstate) : Prop :=
  match r with
  | Cls p =>
    ∃ c, rest s = c :: rest s' ∧ p c = true ∧ pos s' = S (pos s)
         ∧ prev s' = Some c ∧ caps s' = caps s
  | Empty => s' = s
  | Seq a b => ∃ m, den a s m ∧ den b m s'
  | Alt a b => den a s s' ∨ den b s s'
  | Rep _ lo hi a => ∃ n, (lo ≤ n)%nat ∧ iter_rel n (den a) s s'
  | Group i a =>
    ∃ m, den a s m
         ∧ s' = MState (pos m) (prev m) (rest m) ((i, (pos s, pos m)) :: caps m)
  | WordB => s' = s
  end.
End ReSpec.
Import Re ReSpec.

Module ReGroups.
Import Re.
(** Every group of the pattern captures one or more decimal digits. *)
Fixpoint digit_groups (r : regex) : Prop :=
  match r with
  | Group _ (Rep _ (S _) _ (Cls p)) => ∀ c, p c = true → PyChar.is_decimal c = true
  | Group _ _ => False
  | Seq a b | Alt a b => digit_groups a ∧ digit_groups b
  | Rep _ _ _ a => digit_groups a
  | _ => True
  end.

(** Groups that take part in every match of the pattern. *)
Fixpoint sure (r : regex) : list nat :=
  match r with
  | Group i a => i :: sure a
  | Seq a b => sure a ++ sure b
  | Alt a b => filter (fun i => i ∈ sure b) (sure a)
  | Rep _ (S _) _ a => sure a
  | _ => []
  end.

Definition decimal_text (g : pstr) : Prop :=
  g ≠ [] ∧ Forall (fun c => PyChar.is_decimal c = true) g.

Definition caps_decimal (w : pstr) (cs : list (nat * (nat * nat))) : Prop :=
  Forall (fun c => decimal_text (slice w c.2.1 c.2.2)) cs.

(** The state is a position of the subject [w]. *)
Definition at_pos (w : pstr) (s : mstate) : Prop := rest s = drop (pos s) w.
End ReGroups.
Import ReGroups.

Definition is_int_elem (x : key_elem) : bool :=
  match x with KInt _ => true | KStr _ => false end.

(** Elements alternate between text and number. *)
Fixpoint alternating (int_first : bool) (k : list key_elem) : Prop :=
  match k with
  | [] => True
  | x :: t => is_int_elem x = int_first ∧ alternating (negb int_first) t
  end.

(** The pieces of a split on digit runs: a gap that does not start with a
    decimal digit, then a digit run, and so on, ending with a gap. *)
Definition gap_ok (g : pstr) : Prop :=
  ∀ c, head g = Some c → PyChar.is_decimal c = false.

Inductive alt_parts : list pstr → Prop :=
| alt_last g : gap_ok g → alt_parts [g]
| alt_more g d rest :
    gap_ok g → decimal_text d → alt_parts rest → alt_parts (g :: d :: rest).

(** The order in which [_scan_task] hands the files over. *)
Definition _scan_sort (files : list pstr) : result (list pstr) :=
  sorted_by key_lt (fun p => natural_key (OsPath.basename p)) files.

Definition set_offset (o : Z) (cfg : settings) : settings :=
  Settings (var_sort_method cfg) (var_template cfg) (var_title cfg)
           (var_season cfg) (var_pad cfg) o (var_include_episode_title cfg)
           (var_conflict_suffix cfg) (var_move_season_folder cfg).

Definition decimal_chars : pstr := [48; 49; 50; 51; 52; 53; 54; 55; 56; 57].

Definition has_episode (name : pstr) : bool :=
  match parse_name name with
  | Ok (_, Some _, _) => true
  | _ => false
  end.

(** An element of [parsed] is what the parser says about its path. *)
Definition well_parsed (x : parsed_file) : Prop := parse_file (p_path x) = Ok x.

Definition keyed_ok (p : pstr) : Prop :=
  ∃ k, natural_key (OsPath.basename p) = Ok k.

Definition guess_shape (g : guess_key_t) : Prop :=
  match g with
  | GuessParsed _ k | GuessPlain k => alternating false k
  end.

(** Two entries collide: same directory, same target name up to case. *)
Definition collide (e e' : entry) : Prop :=
  OsPath.dirname (oldabs e') = OsPath.dirname (oldabs e)
  ∧ PyStr.lower (newname e') = PyStr.lower (newname e).

(** A row the undo engine can reverse in state [st]: both paths are
    absolute and normalised, the new path holds a file, and the old path
    is free to receive it. *)
Record reversible (st : FS.t) (r : log_row) : Prop := Reversible {
  rev_old_abs : OsPath.isabs r.1 = true;
  rev_new_abs : OsPath.isabs r.2 = true;
  rev_old_norm : FS.resolve st r.1 = r.1;
  rev_new_norm : FS.resolve st r.2 = r.2;
  rev_new_file : is_Some (FS.files st !! r.2);
  rev_old_nodir : r.1 ∉ FS.dirs st;
  rev_parent : FS.isdir st (OsPath.dirname r.1) = true;
  rev_parent_dir : OsPath.dirname r.1 ∈ FS.dirs st
}.

(** The state after moving the file at [n] to [o]. *)
Definition moved (st : FS.t) (n o : pstr) : FS.t :=
  match FS.files st !! n with
  | Some c => FS.Make (<[o := c]> (delete n (FS.files st))) (FS.dirs st) (FS.cwd st)
  | None => st
  end.

(** The file name carries an SxxEyy marker (rule 1 of the parser). *)
Definition carries_sxxeyy (p : pstr) : bool :=
  match Re.search Pat.sxxeyy (name_no_ext p) with
  | Some _ => true
  | None => false
  end.

(** What a successful run does, with the upper bounds of the counted
    repetitions. *)
Fixpoint den_counted (r : regex) (s s' : mstate) : Prop :=
  match r with
  | Cls p =>
    ∃ c, rest s = c :: rest s' ∧ p c = true ∧ pos s' = S (pos s)
         ∧ prev s' = Some c ∧ caps s' = caps s
  | Empty => s' = s
  | Seq a b => ∃ m, den_counted a s m ∧ den_counted b m s'
  | Alt a b => den_counted a s s' ∨ den_counted b s s'
  | Rep _ lo hi a =>
    ∃ n, (lo ≤ n)%nat ∧ (∀ h, hi = Some h → (n ≤ Nat.max lo h)%nat)
         ∧ iter_rel n (den_counted a) s s'
  | Group i a =>
    ∃ m, den_counted a s m
         ∧ s' = MState (pos m) (prev m) (rest m) ((i, (pos s, pos m)) :: caps m)
  | WordB => s' = s
  end.

(** The groups of the pattern are counted repetitions of one class, group
    [i] of at most [bound i] characters. *)
Fixpoint groups_within (bound : nat → nat) (r : regex) : Prop :=
  match r with
  | Group i (Rep _ lo (Some hi) (Cls _)) => (Nat.max lo hi ≤ bound i)%nat
  | Group _ _ => False
  | Seq a b | Alt a b => groups_within bound a ∧ groups_within bound b
  | Rep _ _ _ a => groups_within bound a
  | _ => True
  end.

Definition caps_within (bound : nat → nat) (cs : list (nat * (nat * nat))) : Prop :=
  Forall (fun c => (c.2.2 - c.2.1 ≤ bound c.1)%nat) cs.

(** Group 1 holds a season of one or two digits, the other group an
    episode of up to three. *)
Definition season_then_episode (i : nat) : nat :=
  if (i =? 1)%nat then 2%nat else 3%nat.

(** A well-formed result of the parser: a season between 0 and 99, an
    episode between 0 and 999, a title only with an episode, and no empty
    title. *)
Definition parsed_in_range (info : parsed_info) : Prop :=
  (∀ s, info.1.1 = Some s → (0 ≤ s ≤ 99)%Z)
  ∧ (∀ e, info.1.2 = Some e → (0 ≤ e ≤ 999)%Z)
  ∧ (info.1.2 = None → info.2 = None)
  ∧ info.2 ≠ Some [].

(** [i] is the first index at which [old] occurs in [s]. *)
Definition first_occurrence (old s : pstr) (i : nat) : Prop :=
  PyStr.startswith old (drop i s) = true
  ∧ ∀ j, (j < i)%nat → PyStr.startswith old (drop j s) = false.

(** The shape of a directory name: empty, only slashes, or not ending in
    a slash. *)
Definition dir_shape (d : pstr) : Prop :=
  d = [] ∨ (d ≠ [] ∧ OsPath.all_slashes d = true)
  ∨ (∃ d' c, d = d' ++ [c] ∧ c ≠ OsPath.slash).

(** Every digit of [s] is one of 0 to 9. *)
Definition plain_digits (s : pstr) : bool :=
  forallb (fun c => implb (PyChar.isdigit c) (PyChar.is_decimal c)) s.

(** [p] does not come after [q] in natural order. *)
Definition natural_le (p q : pstr) : Prop :=
  ∃ kp kq, natural_key (OsPath.basename p) = Ok kp
           ∧ natural_key (OsPath.basename q) = Ok kq
           ∧ key_lt kq kp = Ok false.

(** [b] is not less than [a] by their keys. *)
Definition keyed_le {K A} (lt : K → K → result bool) (a b : K * A) : Prop :=
  lt b.1 a.1 = Ok false.

(** The paths a scan is to find: a listed name with a video extension,
    joined to its root. *)
Definition listed_video (walk : list (pstr * list pstr)) (p : pstr) : Prop :=
  ∃ root filenames f,
    (root, filenames) ∈ walk ∧ f ∈ filenames ∧ is_video f = true
    ∧ p = OsPath.join root f.

(** The invariant of the scan loops: [files] has no duplicates and [seen]
    is its set of elements. *)
Definition scan_inv (acc : gset pstr * list pstr) : Prop :=
  NoDup acc.2 ∧ ∀ p, p ∈ acc.1 ↔ p ∈ acc.2.

(** The contents of the regular files, with multiplicity. *)
Definition contents (st : FS.t) : list N := (map_to_list (FS.files st)).*2.

(** A path in braces, as Tk writes a list element that holds blanks. *)
Definition braced (p : pstr) : pstr := 123 :: (p ++ [125]).

Definition no_braces (p : pstr) : bool :=
  negb (mem_char 123 p) && negb (mem_char 125 p).

(** A bare word: not empty, no brace and no white space. *)
Definition plain_word (p : pstr) : bool :=
  nonempty p && no_braces p && forallb (fun c => negb (PyChar.isspace c)) p.

(** An element of a dropped list: in braces when the flag is set. *)
Definition tk_element (e : bool * pstr) : pstr :=
  if e.1 then braced e.2 else e.2.

Definition tk_element_ok (e : bool * pstr) : bool :=
  if e.1 then no_braces e.2 else plain_word e.2.

(** A row of a preview that the executor carries out as it stands: both
    paths are absolute and normalised, the old path holds a file, the new
    path is free, and both parent directories exist. *)
Record plain_rename (st : FS.t) (e : entry) : Prop := PlainRename {
  pr_old_abs : OsPath.isabs (oldabs e) = true;
  pr_new_abs : OsPath.isabs (newabs e) = true;
  pr_old_norm : FS.resolve st (oldabs e) = oldabs e;
  pr_new_norm : FS.resolve st (newabs e) = newabs e;
  pr_old_file : is_Some (FS.files st !! oldabs e);
  pr_new_free : FS.files st !! newabs e = None;
  pr_old_nodir : oldabs e ∉ FS.dirs st;
  pr_new_nodir : newabs e ∉ FS.dirs st;
  pr_old_parent : FS.isdir st (OsPath.dirname (oldabs e)) = true;
  pr_old_parent_dir : OsPath.dirname (oldabs e) ∈ FS.dirs st;
  pr_new_parent : FS.isdir st (OsPath.dirname (newabs e)) = true;
  pr_new_parent_dir : OsPath.dirname (newabs e) ∈ FS.dirs st
}.

(** The log of a preview executed as it stands. *)
Definition log_of (preview_list : list entry) : list log_row :=
  map (fun e => (oldabs e, newabs e)) preview_list.

(** The number written by a string of decimal digits, after [a]. *)
Definition digits_value (s : pstr) (a : N) : N :=
  fold_left (fun a c => 10 * a + (c - 48)) s a.

(** A piece of a last path component: not empty, without a slash, and
    with a character other than a period. *)
Definition name_piece (x : pstr) : Prop :=
  x ≠ [] ∧ (OsPath.slash ∉ x) ∧ ∃ c, c ∈ x ∧ c ≠ OsPath.period.

(** The paths that exist: regular files and directories. *)
Definition existing (st : FS.t) : gset pstr := dom (FS.files st) ∪ FS.dirs st.

(** A row that has been undone in state [st]: the file is at its old
    path and nothing is at the new one. *)
Record undone (st : FS.t) (r : log_row) : Prop := Undone {
  un_old_abs : OsPath.isabs r.1 = true;
  un_old_norm : FS.resolve st r.1 = r.1;
  un_old_file : is_Some (FS.files st !! r.1);
  un_old_nodir : r.1 ∉ FS.dirs st;
  un_new_gone : FS.path_exists st r.2 = false;
  un_parent : FS.isdir st (OsPath.dirname r.1) = true;
  un_parent_dir : OsPath.dirname r.1 ∈ FS.dirs st
}.


(** The name the default template gives. *)
Definition default_name (title : pstr) (s e : Z) (ext : pstr) : pstr :=
  title ++ u ".S" ++ PyStr.zfill 2 (PyStr.of_Z s) ++ u "E"
        ++ PyStr.zfill 3 (PyStr.of_Z e) ++ u "." ++ PyStr.lstrip (u ".") ext.

(** [n] is written with exactly [width] digits by [zfill], and [int]
    reads it back. *)
Definition digits_ok (width : nat) (n : nat) : bool :=
  let text := PyStr.zfill width (PyStr.of_Z (Z.of_nat n)) in
  (length text =? width)%nat && forallb PyChar.is_decimal text
  && match PyStr.int text with Ok z => (z =? Z.of_nat n)%Z | Raise _ => false end.

(** No [s] or [S] of the text is directly followed by a decimal digit. *)
Fixpoint no_season_marker (t : pstr) : bool :=
  match t with
  | [] => true
  | c :: t' =>
    negb (mem_char c (u "sS")
          && match t' with d :: _ => PyChar.is_decimal d | [] => false end)
    && no_season_marker t'
  end.

(** ** Worked examples *)
Module Examples.

Definition default_template : pstr := u "{title}.S{season:02}E{episode:03}.{ext}".

Definition cfg_default : settings :=
  Settings (u "name") default_template (u "Show") (u "1") 3 0 true (u "_dup") false.

(** Offset 10. *)
Definition cfg_plus10 : settings := set_offset 10 cfg_default.

(** Offset -1: every episode moves down by one. *)
Definition cfg_minus1 : settings := set_offset (-1) cfg_default.

(** A template that does not pad the episode, and a title with a digit. *)
Definition cfg_unpadded : settings :=
  Settings (u "name") (u "{title}.S{season:02}E{episode}.{ext}") (u "Show7")
           (u "1") 3 0 false (u "_dup") false.

Definition parsed_of (files : list pstr) : list parsed_file :=
  match rmapM parse_file files with Ok l => l | Raise _ => [] end.

(** Nine files, four of them with an SxxEyy marker. *)
Definition batch_four_marked : list pstr :=
  map u ["/tv/Show.S01E01.mkv"; "/tv/Show.S01E02.mkv"; "/tv/Show.S01E03.mkv";
         "/tv/Show.S01E04.mkv"; "/tv/trailer.mkv"; "/tv/teaser.mkv";
         "/tv/bloopers.mkv"; "/tv/interview.mkv"; "/tv/making.of.mkv"]%string.

(** The same nine files in the order the scan delivers them. *)
Definition scanned_four_marked : list pstr :=
  map u ["/tv/bloopers.mkv"; "/tv/interview.mkv"; "/tv/making.of.mkv";
         "/tv/Show.S01E01.mkv"; "/tv/Show.S01E02.mkv"; "/tv/Show.S01E03.mkv";
         "/tv/Show.S01E04.mkv"; "/tv/teaser.mkv"; "/tv/trailer.mkv"]%string.

(** Nine files, one with an SxxEyy marker, none with any other number. *)
Definition batch_one_marked : list pstr :=
  map u ["/tv/Show.S01E01.mkv"; "/tv/trailer.mkv"; "/tv/teaser.mkv";
         "/tv/bloopers.mkv"; "/tv/interview.mkv"; "/tv/making.of.mkv";
         "/tv/credits.mkv"; "/tv/recap.mkv"; "/tv/finale.mkv"]%string.

(** Nine files, one with an SxxEyy marker; the others carry a plain
    number. *)
Definition batch_one_marked_numbered : list pstr :=
  map u ["/tv/Show.S01E01.mkv"; "/tv/Show - 02.mkv"; "/tv/Show - 03.mkv";
         "/tv/Show - 04.mkv"; "/tv/Show - 05.mkv"; "/tv/Show - 06.mkv";
         "/tv/Show - 07.mkv"; "/tv/Show - 08.mkv"; "/tv/Show - 09.mkv"]%string.

(** Two pure numeric names and two others. *)
Definition batch_numeric : list pstr :=
  map u ["/tv/1.mkv"; "/tv/2.mkv"; "/tv/a.mkv"; "/tv/b.mkv"]%string.

(** U+00B2 SUPERSCRIPT TWO followed by [1.mkv]. *)
Definition superscript_name : pstr := 0xB2 :: u "1.mkv".

Definition ep2 : pstr := u "/tv/Show.S01E002.mkv".
Definition ep3 : pstr := u "/tv/Show.S01E003.mkv".
Definition ep1 : pstr := u "/tv/Show.S01E001.mkv".

(** A directory [/tv] holding episode 2 (content 2) and episode 3
    (content 3). *)
Definition fs_two_episodes : FS.t :=
  FS.Make (list_to_map [(ep2, 2); (ep3, 3)]) (list_to_set [u "/"; u "/tv"]) (u "/").

(** Execute a preview list, then undo with the log just written. *)
Definition execute_then_undo (cfg : settings) (fuel : nat) (st : FS.t)
    (preview_list : list entry)
    : option (list log_row * FS.t * result (list (pstr * pstr))) :=
  match _execute_task cfg fuel st preview_list with
  | Some (st1, log) =>
    let '(st2, rollback) := _undo_task st1 (csv_rows log) in
    Some (log, st2, rollback)
  | None => None
  end.

Definition three_entries : list entry :=
  [Entry (u "/tv/a.mkv") (u "/tv/Show.S01E01.mkv") (u "a.mkv") (u "Show.S01E01.mkv");
   Entry (u "/tv/b.mkv") (u "/tv/show.s01e01.mkv") (u "b.mkv") (u "show.s01e01.mkv");
   Entry (u "/tv/Show.S01E05.mkv") (u "/tv/Show.S01E05.mkv") (u "Show.S01E05.mkv")
         (u "Show.S01E05.mkv")].

(** The season field holds no number: seasons come from the names. *)
Definition cfg_auto_season : settings :=
  Settings (u "name") default_template (u "Show") (u "auto") 3 0 true (u "_dup") false.

Definition s02e05 : pstr := u "/tv/Show.S02E05.mkv".

(** Episodes 2 and 3 renamed to 1 and 2. *)
Definition two_renames : list entry :=
  [Entry ep2 ep1 (u "Show.S01E002.mkv") (u "Show.S01E001.mkv");
   Entry ep3 ep2 (u "Show.S01E003.mkv") (u "Show.S01E002.mkv")].

(** Two files under new names, and the log of their renaming. *)
Definition fs_renamed : FS.t :=
  FS.Make (list_to_map [(u "/tv/new1.mkv", 1); (u "/tv/new2.mkv", 2)])
          (list_to_set [u "/"; u "/tv"]) (u "/").

Definition log_renamed : list log_row :=
  [(u "/tv/old1.mkv", u "/tv/new1.mkv"); (u "/tv/old2.mkv", u "/tv/new2.mkv")].

(** A folder listed twice, with a text file and an upper-case extension. *)
Definition walk_twice : list (pstr * list pstr) :=
  [(u "/tv", [u "b.mkv"; u "notes.txt"; u "A.MKV"]); (u "/tv", [u "b.mkv"])].

Definition unsorted_episodes : list pstr :=
  [u "/tv/ep10.mkv"; u "/tv/ep2.mkv"; u "/tv/Ep1.mkv"].

(** Episodes 2 and 3 renamed to names that are free. *)
Definition two_plain_renames : list entry :=
  [Entry ep2 (u "/tv/Show.S01E012.mkv") (u "Show.S01E002.mkv") (u "Show.S01E012.mkv");
   Entry ep3 (u "/tv/Show.S01E013.mkv") (u "Show.S01E003.mkv") (u "Show.S01E013.mkv")].

End Examples.
Import Examples.

(** * Properties *)

Lemma orelse_Some {A} (a b : option A) x :
  orelse a b = Some x → a = Some x ∨ b = Some x.
Proof. destruct a; simpl; intros; [left|right]; done. Qed.

Lemma iter_rel_snoc n R s m s' :
  iter_rel n R s m → R m s' → iter_rel (S n) R s s'.
Proof.
  revert s. induction n as [|n IH]; simpl; intros s.
  - intros ->. eauto.
  - intros (x & Hx & Hit) HR. destruct (IH _ Hit HR) as (y & Hy & Hit').
    exists x. split; [done|]. simpl. eauto.
Qed.

Lemma run_sound r : ∀ k st fin,
  run r k st = Some fin → ∃ st', den r st st' ∧ k st' = Some fin.
Proof.
  induction r as [p| |a IHa b IHb|a IHa b IHb|g lo hi a IHa|i a IHa|];
    intros k st fin Hrun; simpl in Hrun.
  - destruct (rest st) as [|c t] eqn:Hr; [done|].
    destruct (p c) eqn:Hp; [|done].
    eexists. split; [|exact Hrun]. simpl. exists c. done.
  - exists st. done.
  - apply IHa in Hrun as (m & Ha & Hrun). apply IHb in Hrun as (s' & Hb & Hk).
    exists s'. split; [|done]. simpl. eauto.
  - apply orelse_Some in Hrun as [Hrun|Hrun].
    + apply IHa in Hrun as (s' & ? & ?). exists s'. simpl. eauto.
    + apply IHb in Hrun as (s' & ? & ?). exists s'. simpl. eauto.
  - set (extra := match hi with Some h => (h - lo)%nat | None => length (rest st) end) in Hrun.
    clearbody extra.
    set (opt := fix optional (e : nat) : mstate → option mstate :=
              fun st' => match e with
                | O => k st'
                | S e' => if g then orelse (run a (optional e') st') (k st')
                          else orelse (k st') (run a (optional e') st')
                end) in Hrun.
    assert (Hopt : ∀ e s, opt e s = Some fin →
                   ∃ n s', iter_rel n (den a) s s' ∧ k s' = Some fin).
    { induction e as [|e IHe]; intros s Hs; simpl in Hs.
      - exists 0%nat, s. done.
      - assert (run a (opt e) s = Some fin ∨ k s = Some fin) as [Hs'|Hs'].
        { destruct g; apply orelse_Some in Hs; tauto. }
        + apply IHa in Hs' as (m & Hm & Hs'). apply IHe in Hs' as (n & s' & Hit & Hk).
          exists (S n), s'. split; [|done]. simpl. eauto.
        + exists 0%nat, s. done. }
    revert st Hrun. induction lo as [|lo IHlo]; intros st Hrun.
    + apply Hopt in Hrun as (n & s' & Hit & Hk). exists s'. split; [|done].
      simpl. exists n. split; [lia|done].
    + apply IHa in Hrun as (m & Hm & Hrun). apply IHlo in Hrun as (s' & Hden & Hk).
      exists s'. split; [|done]. simpl in Hden. destruct Hden as (n & Hn & Hit).
      simpl. exists (S n). split; [lia|]. simpl. eauto.
  - apply IHa in Hrun as (m & Hm & Hk). eexists. split; [|exact Hk]. simpl. eauto.
  - destruct (xorb _ _); [|done]. exists st. done.
Qed.

Lemma iter_rel_consumed n R s s' :
  (∀ a b, R a b → ∃ cs, rest a = cs ++ rest b ∧ pos b = (pos a + length cs)%nat) →
  iter_rel n R s s' →
  ∃ cs, rest s = cs ++ rest s' ∧ pos s' = (pos s + length cs)%nat.
Proof.
  intros HR. revert s. induction n as [|n IH]; simpl; intros s.
  - intros ->. exists []. simpl. split; [done|lia].
  - intros (m & Hm & Hit). apply HR in Hm as (c1 & E1 & P1).
    apply IH in Hit as (c2 & E2 & P2). exists (c1 ++ c2).
    rewrite E1, E2, <- app_assoc, length_app. split; [done|lia].
Qed.

Lemma den_consumed r : ∀ s s',
  den r s s' → ∃ cs, rest s = cs ++ rest s' ∧ pos s' = (pos s + length cs)%nat.
Proof.
  induction r as [p| |a IHa b IHb|a IHa b IHb|g lo hi a IHa|i a IHa|];
    intros s s'; simpl.
  - intros (c & Hr & _ & Hp & _). exists [c]. simpl. split; [done|lia].
  - intros ->. exists []. simpl. split; [done|lia].
  - intros (m & Ha & Hb). apply IHa in Ha as (c1 & E1 & P1).
    apply IHb in Hb as (c2 & E2 & P2). exists (c1 ++ c2).
    rewrite E1, E2, <- app_assoc, length_app. split; [done|lia].
  - intros [H|H]; eauto.
  - intros (n & _ & Hit). eapply iter_rel_consumed; eauto.
  - intros (m & Ha & ->). simpl. eauto.
  - intros ->. exists []. simpl. split; [done|lia].
Qed.

Lemma den_at_pos w r s s' : at_pos w s → den r s s' → at_pos w s'.
Proof.
  unfold at_pos. intros Hs Hd. apply den_consumed in Hd as (cs & E & P).
  rewrite P, <- drop_drop, <- Hs, E. by rewrite drop_app_length.
Qed.

Lemma den_slice w r s s' :
  at_pos w s → den r s s' →
  ∃ cs, slice w (pos s) (pos s') = cs ∧ rest s = cs ++ rest s'
        ∧ pos s' = (pos s + length cs)%nat.
Proof.
  unfold at_pos. intros Hs Hd. apply den_consumed in Hd as (cs & E & P).
  exists cs. split; [|done]. unfold slice. rewrite <- Hs, E, P.
  replace (pos s + length cs - pos s)%nat with (length cs) by lia.
  by rewrite take_app_length.
Qed.

Lemma iter_cls n p : ∀ s s',
  iter_rel n (den (Cls p)) s s' →
  ∃ cs, length cs = n ∧ Forall (fun c => p c = true) cs
        ∧ rest s = cs ++ rest s' ∧ caps s' = caps s
        ∧ pos s' = (pos s + n)%nat.
Proof.
  induction n as [|n IH]; simpl; intros s s'.
  - intros ->. exists []. repeat split; auto; try lia.
  - intros (m & (c & Hr & Hp & Hpos & _ & Hc) & Hit).
    apply IH in Hit as (cs & Hl & Hf & Hr' & Hc' & Hpos').
    exists (c :: cs). simpl. rewrite Hr, Hr', Hc', Hc, Hl, Hpos', Hpos.
    repeat split; auto; try lia.
Qed.

Lemma iter_rel_inv (P : mstate → Prop) n R s s' :
  (∀ a b, P a → R a b → P b) → P s → iter_rel n R s s' → P s'.
Proof.
  intros HR. revert s. induction n as [|n IH]; simpl; intros s Hs.
  - by intros ->.
  - intros (m & Hm & Hit). eapply IH; [|done]. eauto.
Qed.

Lemma den_caps_decimal w r : ∀ s s',
  digit_groups r → at_pos w s → caps_decimal w (caps s) → den r s s' →
  caps_decimal w (caps s').
Proof.
  induction r as [p| |a IHa b IHb|a IHa b IHb|g lo hi a IHa|i a IHa|];
    intros s s' Hdg Hs Hc; simpl.
  - intros (c & _ & _ & _ & _ & ->). done.
  - by intros ->.
  - destruct Hdg as [Hda Hdb]. intros (m & Ha & Hb).
    eapply (IHb m s'); [done|by eapply den_at_pos|by eapply (IHa s m)|done].
  - destruct Hdg. intros [?|?]; eauto.
  - intros (n & _ & Hit). simpl in Hdg.
    eapply (iter_rel_inv (fun x => at_pos w x ∧ caps_decimal w (caps x))) in Hit;
      [tauto| |done].
    intros x y [? ?] ?. split; eauto using den_at_pos.
  - intros (m & Ha & ->). simpl.
    destruct a as [| | | |g [|lo] hi [p| | | | | |]| |]; try done.
    simpl in Hdg. destruct Ha as (n & Hn & Hit).
    apply iter_cls in Hit as (cs & Hl & Hf & Hr & Hcm & Hpos).
    constructor; simpl.
    + unfold slice. rewrite <- Hs, Hr, Hpos.
      replace (pos s + n - pos s)%nat with (length cs) by lia.
      rewrite take_app_length. split.
      * intros ->. simpl in Hl. lia.
      * eapply Forall_impl; [exact Hf|]. simpl. auto.
    + by rewrite Hcm.
  - by intros ->.
Qed.

Lemma den_caps_ext r : ∀ s s', den r s s' → ∃ new, caps s' = new ++ caps s.
Proof.
  induction r as [p| |a IHa b IHb|a IHa b IHb|g lo hi a IHa|i a IHa|];
    intros s s'; simpl.
  - intros (c & _ & _ & _ & _ & ->). by exists [].
  - intros ->. by exists [].
  - intros (m & Ha & Hb). apply IHa in Ha as (n1 & E1). apply IHb in Hb as (n2 & E2).
    exists (n2 ++ n1). by rewrite E2, E1, app_assoc.
  - intros [?|?]; eauto.
  - intros (n & _ & Hit). revert s Hit. induction n as [|n IH]; simpl; intros s.
    + intros ->. by exists [].
    + intros (m & Hm & Hit). apply IHa in Hm as (n1 & E1).
      apply IH in Hit as (n2 & E2). exists (n2 ++ n1). by rewrite E2, E1, app_assoc.
  - intros (m & Ha & ->). simpl. apply IHa in Ha as (n1 & E1).
    exists ((i, (pos s, pos m)) :: n1). by rewrite E1.
  - intros ->. by exists [].
Qed.

Lemma assoc_nat_app {A} i (l1 l2 : list (nat * A)) :
  is_Some (assoc_nat i l2) → is_Some (assoc_nat i (l1 ++ l2)).
Proof.
  intros H. induction l1 as [|[j x] l1 IH]; simpl; [done|].
  destruct (Nat.eqb i j); eauto.
Qed.

Lemma den_caps_mono r s s' i :
  den r s s' → is_Some (assoc_nat i (caps s)) → is_Some (assoc_nat i (caps s')).
Proof. intros Hd Hi. apply den_caps_ext in Hd as (new & ->). by apply assoc_nat_app. Qed.

Lemma den_sure r : ∀ s s' i,
  den r s s' → i ∈ sure r → is_Some (assoc_nat i (caps s')).
Proof.
  induction r as [p| |a IHa b IHb|a IHa b IHb|g lo hi a IHa|j a IHa|];
    intros s s' i; simpl; try (intros _ Hi; by apply elem_of_nil in Hi).
  - intros (m & Ha & Hb) Hi. apply elem_of_app in Hi as [Hi|Hi].
    + eapply den_caps_mono; [exact Hb|]. eauto.
    + eauto.
  - intros Hd Hi. apply list_elem_of_filter in Hi as [Hib Hia].
    destruct Hd; eauto.
  - destruct lo as [|lo]; [intros _ Hi; by apply elem_of_nil in Hi|].
    intros (n & Hn & Hit) Hi. destruct n as [|n]; [lia|].
    simpl in Hit. destruct Hit as (m & Hm & Hit).
    assert (Hm' : is_Some (assoc_nat i (caps m))) by eauto.
    clear -Hit Hm'. revert m Hit Hm'. induction n as [|n IH]; simpl; intros m.
    + by intros ->.
    + intros (x & Hx & Hit) Hm'. eapply IH; [exact Hit|]. eapply den_caps_mono; eauto.
  - intros (m & Ha & ->) Hi. simpl. apply elem_of_cons in Hi as [-> |Hi].
    + rewrite Nat.eqb_refl. eauto.
    + destruct (Nat.eqb i j); eauto.
Qed.

Lemma assoc_nat_elem {A} i (l : list (nat * A)) x :
  assoc_nat i l = Some x → (i, x) ∈ l.
Proof.
  induction l as [|[j y] l IH]; simpl; [done|].
  destruct (Nat.eqb i j) eqn:E.
  - apply Nat.eqb_eq in E as ->. intros [= ->]. left.
  - intros. right. auto.
Qed.

(** A match found by [search_at] comes from a run of the matcher at some
    position of the subject. *)
Lemma search_from_run r w : ∀ s i b m,
  s = drop i w → search_from r i b s = Some m →
  ∃ j b' fin, run r Some (MState j b' (drop j w) []) = Some fin
              ∧ m = RMatch j (pos fin) (caps fin).
Proof.
  induction s as [|c t IH]; intros i b m Hs; simpl.
  - destruct (run r Some _) as [fin|] eqn:Hrun; [|done].
    intros [= <-]. rewrite Hs in Hrun. eauto.
  - destruct (run r Some _) as [fin|] eqn:Hrun.
    + intros [= <-]. rewrite Hs in Hrun. eauto.
    + apply IH. change t with (drop 1 (c :: t)). rewrite Hs, drop_drop.
      f_equal. lia.
Qed.

Lemma search_at_groups r w i m g :
  digit_groups r → search_at r w i = Some m → g ∈ sure r →
  ∃ t, group w m g = Some t ∧ decimal_text t.
Proof.
  intros Hdg Hs Hg. unfold search_at in Hs.
  apply (search_from_run r w) in Hs as (j & b' & fin & Hrun & ->); [|done].
  apply run_sound in Hrun as (st' & Hden & [= ->]).
  pose proof (den_sure _ _ _ g Hden Hg) as [[a b] Hab].
  pose proof (den_caps_decimal w r _ _ Hdg (eq_refl : at_pos w (MState j b' (drop j w) []))
                (Forall_nil_2 _) Hden) as Hcd.
  unfold group. simpl. rewrite Hab. eexists. split; [done|].
  apply assoc_nat_elem in Hab. unfold caps_decimal in Hcd.
  rewrite Forall_forall in Hcd. apply (Hcd _ Hab).
Qed.

Lemma lstrip_ws_id s :
  Forall (fun c => PyChar.isspace c = false) s → PyStr.lstrip_ws s = s.
Proof. destruct 1 as [|c t Hc _]; simpl; [done|]. by rewrite Hc. Qed.

Lemma strip_ws_id s :
  Forall (fun c => PyChar.isspace c = false) s → PyStr.strip_ws s = s.
Proof.
  intros H. unfold PyStr.strip_ws. rewrite (lstrip_ws_id s H).
  rewrite lstrip_ws_id; [apply rev_involutive|]. by apply Forall_rev.
Qed.

Lemma decimal_range c : PyChar.is_decimal c = true ↔ 48 ≤ c ≤ 57.
Proof.
  unfold PyChar.is_decimal, in_range. rewrite andb_true_iff, !N.leb_le. done.
Qed.

Ltac bool_to_prop H :=
  unfold in_range, mem_char in H; simpl in H;
  rewrite ?orb_true_iff, ?andb_true_iff, ?N.leb_le, ?N.eqb_eq, ?orb_false_r in H.

Lemma isdigit_not_space c : PyChar.isdigit c = true → PyChar.isspace c = false.
Proof.
  intros H. apply not_true_is_false. intros Hs.
  unfold PyChar.isdigit, PyChar.is_decimal in H. unfold PyChar.isspace in Hs.
  bool_to_prop H. bool_to_prop Hs. lia.
Qed.

Lemma decimal_not_space c : PyChar.is_decimal c = true → PyChar.isspace c = false.
Proof.
  intros H. apply isdigit_not_space. unfold PyChar.isdigit. by rewrite H.
Qed.

Lemma int_digits_decimal s : ∀ pd acc,
  Forall (fun c => PyChar.is_decimal c = true) s → (0 ≤ acc)%Z →
  s ≠ [] ∨ pd = true →
  ∃ z, PyStr.int_digits pd acc s = Some z ∧ (0 ≤ z)%Z.
Proof.
  induction s as [|c t IH]; intros pd acc Hs Hacc Hne; simpl.
  - destruct Hne as [?| ->]; [done|]. eauto.
  - inversion Hs as [|? ? Hc Ht]; subst. rewrite Hc. apply IH; auto.
    unfold PyChar.decimal_value. lia.
Qed.

Lemma int_decimal_text g :
  decimal_text g → ∃ z, PyStr.int g = Ok z ∧ (0 ≤ z)%Z.
Proof.
  intros [Hne Hd]. unfold PyStr.int. rewrite strip_ws_id.
  2:{ eapply Forall_impl; [exact Hd|]. apply decimal_not_space. }
  destruct g as [|c t]; [done|].
  assert (Hc : 48 ≤ c ≤ 57) by (apply decimal_range; by inversion Hd).
  destruct (N.eqb_spec c 45); [lia|]. destruct (N.eqb_spec c 43); [lia|].
  destruct (int_digits_decimal (c :: t) false 0%Z Hd) as (z & -> & Hz); [lia|by left|].
  eauto.
Qed.

Lemma int_group_ok r w i m g :
  digit_groups r → search_at r w i = Some m → g ∈ sure r →
  ∃ z, int_group w m g = Ok z ∧ (0 ≤ z)%Z.
Proof.
  intros Hdg Hs Hg. destruct (search_at_groups r w i m g Hdg Hs Hg) as (t & Ht & Hd).
  unfold int_group. rewrite Ht. by apply int_decimal_text.
Qed.

Ltac pattern_facts :=
  repeat match goal with
         | |- digit_groups _ => cbn; repeat split; auto
         | |- _ ∈ sure _ => cbn; set_solver
         end.

Lemma findall1_head r w num more :
  digit_groups r → 1%nat ∈ sure r →
  findall1 r w = num :: more → decimal_text num.
Proof.
  intros Hdg Hs. unfold findall1, finditer. simpl.
  destruct (length w <? 0)%nat eqn:E; [done|].
  destruct (search_at r w 0) as [m|] eqn:Hm; [|done].
  simpl. intros [= <- _].
  destruct (search_at_groups r w 0 m 1%nat Hdg Hm Hs) as (t & -> & Hd). done.
Qed.

Lemma parse_name_total name : ∃ info, parse_name name = Ok info.
Proof.
  unfold parse_name.
  repeat match goal with
  | |- context [match search ?r name with _ => _ end] =>
    let m := fresh "m" in let Hm := fresh "Hm" in
    destruct (search r name) as [m|] eqn:Hm
  | Hm : search ?r name = Some ?m |- context [int_group name ?m ?g] =>
    let z := fresh "z" in let Hz := fresh "Hz" in
    destruct (int_group_ok r name 0 m g) as (z & Hz & _);
    [pattern_facts | exact Hm | pattern_facts | rewrite Hz; cbn [mbind result_bind rbind]]
  end; eauto.
  destruct (findall1 Pat.standalone_number name) as [|num more] eqn:Hf; [eauto|].
  apply findall1_head in Hf; [|pattern_facts..].
  destruct (int_decimal_text num Hf) as (z & -> & _). cbn. eauto.
Qed.

(** *** The shape of natural keys *)

Lemma digit_run_head k st c t :
  (∀ s, is_Some (k s)) → rest st = c :: t → PyChar.is_decimal c = true →
  is_Some (run (plus digit) k st).
Proof.
  intros Hk Hr Hc. unfold plus, digit. simpl. rewrite Hr, Hc.
  generalize (MState (S (pos st)) (Some c) t (caps st)).
  generalize (length (c :: t)). intros e. induction e as [|e IH]; intros s; [apply Hk|].
  simpl. destruct (rest s) as [|c0 t0]; simpl; [apply Hk|].
  destruct (PyChar.is_decimal c0); simpl; [|apply Hk].
  match goal with |- is_Some (orelse ?a _) => destruct a; simpl; [eauto|apply Hk] end.
Qed.

Lemma run_Group i a k st :
  run (Group i a) k st =
  run a (fun st' => k (MState (pos st') (prev st') (rest st')
                              ((i, (pos st, pos st')) :: caps st'))) st.
Proof. reflexivity. Qed.

Lemma run_digit_run_head i b c t :
  PyChar.is_decimal c = true →
  is_Some (run re_digit_run Some (MState i b (c :: t) [])).
Proof.
  intros Hc. unfold re_digit_run. rewrite run_Group.
  apply (digit_run_head _ (MState i b (c :: t) []) c t); [eauto|done|done].
Qed.

Lemma search_from_None r : ∀ s i b,
  search_from r i b s = None → run r Some (MState i b s []) = None.
Proof.
  intros [|c t] i b; simpl; destruct (run r Some _); done.
Qed.

Lemma search_from_later r : ∀ s i b m,
  search_from r i b s = Some m →
  (i ≤ m_start m)%nat ∧
  (m_start m ≠ i → run r Some (MState i b s []) = None).
Proof.
  induction s as [|c t IH]; intros i b m; simpl.
  - destruct (run r Some _); [|done]. intros [= <-]. simpl. split; [lia|done].
  - destruct (run r Some _) eqn:E.
    + intros [= <-]. simpl. split; [lia|done].
    + intros Hm. apply IH in Hm as [? _]. split; [lia|done].
Qed.

Lemma run_None_gap i b s :
  run re_digit_run Some (MState i b s []) = None → gap_ok s.
Proof.
  intros Hrun c Hc. destruct s as [|c' t]; [done|]. simpl in Hc. injection Hc as ->.
  destruct (PyChar.is_decimal c) eqn:E; [|done].
  destruct (run_digit_run_head i b c t E) as [x Hx]. congruence.
Qed.

Lemma gap_ok_take g n : gap_ok g → gap_ok (take n g).
Proof.
  intros H c Hc. apply H. destruct g, n; simpl in *; done.
Qed.

(** A match of the digit-run pattern is not empty. *)
Lemma digit_run_match w i m :
  search_at re_digit_run w i = Some m →
  (i ≤ m_start m)%nat ∧ (m_start m < m_end m)%nat ∧ (m_end m ≤ length w)%nat
  ∧ gap_ok (slice w i (m_start m))
  ∧ ∃ d, group w m 1 = Some d ∧ decimal_text d.
Proof.
  intros Hs.
  assert (Hg : ∃ d, group w m 1 = Some d ∧ decimal_text d).
  { eapply search_at_groups; [| exact Hs |]; pattern_facts. }
  pose proof Hs as Hs'. unfold search_at in Hs'.
  pose proof (search_from_later _ _ _ _ _ Hs') as [Hle Hnone].
  apply (search_from_run _ w) in Hs' as (j & b' & fin & Hrun & ->); [|done].
  apply run_sound in Hrun as (st' & Hden & [= ->]). cbn [m_start m_end] in *.
  destruct Hg as (d & Hd & Hdt).
  destruct Hden as (m0 & (n & Hn & Hit) & ->).
  apply iter_cls in Hit as (cs & Hl & _ & Hr & _ & Hp). cbn [pos rest] in *.
  assert (Hlw : (j + n ≤ length w)%nat).
  { assert (length (drop j w) = length (cs ++ rest m0)) as Hlen by (by rewrite Hr).
    rewrite length_drop, length_app in Hlen. lia. }
  split; [done|]. split; [lia|]. split; [lia|]. split; [|eauto].
  destruct (decide (j = i)) as [->|Hne].
  - unfold slice. rewrite Nat.sub_diag. simpl. by intros c.
  - unfold slice. apply gap_ok_take. eapply run_None_gap. by apply Hnone.
Qed.

Lemma split_digit_runs w : ∀ fuel i,
  (length w < fuel + i)%nat →
  alt_parts (split_go [1%nat] w i (finditer_from fuel re_digit_run w i)).
Proof.
  induction fuel as [|fuel IH]; intros i Hf; simpl.
  - apply alt_last. rewrite drop_ge by lia. by intros c.
  - destruct (length w <? i)%nat eqn:E.
    + simpl. apply alt_last. apply Nat.ltb_lt in E. rewrite drop_ge by lia. by intros c.
    + destruct (search_at re_digit_run w i) as [m|] eqn:Hm.
      * apply digit_run_match in Hm as (H1 & H2 & H3 & Hgap & d & Hd & Hdt).
        replace (m_end m =? m_start m)%nat with false
          by (symmetry; apply Nat.eqb_neq; lia).
        simpl. rewrite Hd. simpl. apply alt_more; [done|done|]. apply IH. lia.
      * simpl. apply alt_last. unfold search_at in Hm.
        apply search_from_None in Hm. by eapply run_None_gap.
Qed.

(** A gap that [str.isdigit] accepts does not start with a decimal digit,
    and [int] rejects it. *)
Lemma int_gap_raises g :
  gap_ok g → PyStr.isdigit g = true → PyStr.int g = Raise ValueError.
Proof.
  intros Hg Hd. destruct g as [|c t]; [done|]. simpl in Hd.
  apply andb_true_iff in Hd as [Hc Ht].
  unfold PyStr.int. rewrite strip_ws_id.
  2:{ apply Forall_forall. intros x Hx. apply isdigit_not_space.
      apply elem_of_cons in Hx as [->|Hx]; [done|].
      rewrite forallb_forall in Ht. apply Ht. by apply list_elem_of_In. }
  assert (Hnd : PyChar.is_decimal c = false) by (by apply Hg).
  destruct (N.eqb_spec c 45) as [->|_]; [done|].
  destruct (N.eqb_spec c 43) as [->|_]; [done|].
  simpl. rewrite Hnd. by rewrite andb_false_r.
Qed.

Lemma decimal_isdigit d : decimal_text d → PyStr.isdigit d = true.
Proof.
  intros [Hne Hd]. destruct d as [|c t]; [done|]. unfold PyStr.isdigit.
  apply forallb_forall. intros x Hx. apply list_elem_of_In in Hx.
  rewrite Forall_forall in Hd. unfold PyChar.isdigit. by rewrite (Hd x Hx).
Qed.

Lemma key_part_gap g x : gap_ok g → key_part g = Ok x → is_int_elem x = false.
Proof.
  unfold key_part. intros Hg. destruct (PyStr.isdigit g) eqn:E.
  - rewrite (int_gap_raises g Hg E). done.
  - by intros [= <-].
Qed.

Lemma key_part_digits d x : decimal_text d → key_part d = Ok x → is_int_elem x = true.
Proof.
  unfold key_part. intros Hd. rewrite (decimal_isdigit d Hd).
  destruct (PyStr.int d); cbn; [by intros [= <-]|done].
Qed.

Lemma rmapM_cons_Ok {A B} (f : A → result B) x l out :
  rmapM f (x :: l) = Ok out →
  ∃ y ys, f x = Ok y ∧ rmapM f l = Ok ys ∧ out = y :: ys.
Proof.
  simpl. destruct (f x) as [y|]; cbn; [|done].
  destruct (rmapM f l) as [ys|]; cbn; [|done]. intros [= <-]. eauto.
Qed.

Lemma alt_parts_keys parts : alt_parts parts →
  ∀ k, rmapM key_part parts = Ok k → alternating false k.
Proof.
  induction 1 as [g Hg|g d rest Hg Hd Hrest IH]; intros k Hk.
  - apply rmapM_cons_Ok in Hk as (y & ys & Hy & Hys & ->). simpl in Hys.
    injection Hys as <-. simpl. split; [|done]. by eapply key_part_gap.
  - apply rmapM_cons_Ok in Hk as (y & ys & Hy & Hys & ->).
    apply rmapM_cons_Ok in Hys as (z & zs & Hz & Hzs & ->).
    simpl. split; [by eapply key_part_gap|]. split; [by eapply key_part_digits|].
    by apply IH.
Qed.

(** A natural key starts with a text element and alternates. *)
Lemma natural_key_alternating s k : natural_key s = Ok k → alternating false k.
Proof.
  unfold natural_key, split, finditer. intros Hk.
  eapply alt_parts_keys; [|exact Hk]. apply split_digit_runs. lia.
Qed.

(** Two keys of the same shape are compared without a type error. *)
Lemma key_lt_alternating a : ∀ b p,
  alternating p a → alternating p b → ∃ r, key_lt a b = Ok r.
Proof.
  induction a as [|x a IH]; intros [|y b] p Ha Hb; simpl; eauto.
  destruct Ha as [Hx Ha], Hb as [Hy Hb].
  destruct (key_elem_eqb x y); [eauto|].
  destruct x, y; simpl in *; eauto; congruence.
Qed.

(** *** Sorting *)

Lemma insert_sorted_Ok {K A} (lt : K → K → result bool) (x : K * A) l out :
  insert_sorted lt x l = Ok out → out ≡ₚ x :: l.
Proof.
  revert out. induction l as [|y t IH]; intros out; simpl.
  - by intros [= <-].
  - destruct (lt x.1 y.1) as [[|]|]; cbn; [by intros [= <-]| |done].
    destruct (insert_sorted lt x t) as [r|]; cbn; [|done].
    intros [= <-]. rewrite (IH r eq_refl). apply Permutation_swap.
Qed.

Lemma insert_sorted_total {K A} (lt : K → K → result bool) (x : K * A) l :
  (∀ y, y ∈ l → ∃ r, lt x.1 y.1 = Ok r) → ∃ out, insert_sorted lt x l = Ok out.
Proof.
  induction l as [|y t IH]; intros H; simpl; [eauto|].
  destruct (H y) as [r ->]; [left|]. cbn. destruct r; [eauto|].
  destruct IH as [out ->]; [|cbn; eauto]. intros z Hz. apply H. by right.
Qed.

Lemma sort_keyed_Ok {K A} (lt : K → K → result bool) (l : list (K * A)) :
  ∀ acc out, sort_keyed lt l acc = Ok out → out ≡ₚ acc ++ l.
Proof.
  induction l as [|x t IH]; intros acc out; simpl.
  - intros [= <-]. by rewrite app_nil_r.
  - destruct (insert_sorted lt x acc) as [acc'|] eqn:E; cbn; [|done].
    intros Hs. apply IH in Hs. rewrite Hs. apply insert_sorted_Ok in E. rewrite E.
    simpl. apply Permutation_middle.
Qed.

Lemma sort_keyed_total {K A} (lt : K → K → result bool) (P : K → Prop)
    (l : list (K * A)) :
  (∀ a b, P a → P b → ∃ r, lt a b = Ok r) →
  ∀ acc, Forall (fun x => P x.1) l → Forall (fun x => P x.1) acc →
         ∃ out, sort_keyed lt l acc = Ok out.
Proof.
  intros HP. induction l as [|x t IH]; intros acc Hl Hacc; simpl; [eauto|].
  inversion Hl as [|? ? Hx Ht]; subst.
  destruct (insert_sorted_total lt x acc) as [acc' E].
  { intros y Hy. rewrite Forall_forall in Hacc. apply HP; auto. }
  rewrite E. cbn. apply IH; [done|]. apply insert_sorted_Ok in E.
  rewrite E. by constructor.
Qed.

Lemma rmapM_Ok_Forall2 {A B} (f : A → result B) l out :
  rmapM f l = Ok out → Forall2 (fun a b => f a = Ok b) l out.
Proof.
  revert out. induction l as [|x t IH]; intros out; simpl.
  - intros [= <-]. constructor.
  - intros H. apply rmapM_cons_Ok in H as (y & ys & Hy & Hys & ->). constructor; auto.
Qed.

Lemma rmapM_total {A B} (f : A → result B) l :
  Forall (fun a => ∃ b, f a = Ok b) l → ∃ out, rmapM f l = Ok out.
Proof.
  induction 1 as [|x t [b Hb] _ [out IH]]; simpl; [eauto|].
  rewrite Hb, IH. cbn. eauto.
Qed.

Lemma rmapM_length {A B} (f : A → result B) l out :
  rmapM f l = Ok out → length out = length l.
Proof. intros H. apply rmapM_Ok_Forall2 in H. symmetry. by eapply Forall2_length. Qed.

(** A successful [sorted] returns a permutation of its argument, and
    every key was computed. *)
Lemma sorted_by_Ok {K A} (lt : K → K → result bool) (key : A → result K) l out :
  sorted_by lt key l = Ok out →
  out ≡ₚ l ∧ Forall (fun a => ∃ k, key a = Ok k) l.
Proof.
  unfold sorted_by.
  destruct (rmapM _ l) as [keyed|] eqn:Hk; cbn; [|done].
  destruct (sort_keyed lt keyed []) as [s|] eqn:Hs; cbn; [|done].
  intros [= <-]. apply sort_keyed_Ok in Hs. simpl in Hs.
  apply rmapM_Ok_Forall2 in Hk. split.
  - rewrite Hs. clear Hs. induction Hk as [|a [k a'] l keyed Ha _ IH]; simpl; [done|].
    destruct (key a); cbn in Ha; [|done]. injection Ha as _ <-. by rewrite IH.
  - clear Hs. induction Hk as [|a [k a'] l keyed Ha _ IH]; constructor; [|done].
    destruct (key a); cbn in Ha; [eauto|done].
Qed.

(** [sorted] succeeds when every key can be computed and keys of that
    kind can be compared. *)
Lemma sorted_by_total {K A} (lt : K → K → result bool) (key : A → result K)
    (P : K → Prop) l :
  (∀ a b, P a → P b → ∃ r, lt a b = Ok r) →
  Forall (fun a => ∃ k, key a = Ok k ∧ P k) l →
  ∃ out, sorted_by lt key l = Ok out.
Proof.
  intros HP Hl. unfold sorted_by.
  destruct (rmapM_total (fun a => k ← key a; Ok (k, a)) l) as [keyed Hk].
  { eapply Forall_impl; [exact Hl|]. intros a (k & -> & _). cbn. eauto. }
  rewrite Hk. cbn.
  destruct (sort_keyed_total lt P keyed HP []) as [s Hs]; [|constructor|].
  - apply rmapM_Ok_Forall2 in Hk. clear -Hk Hl.
    induction Hk as [|a [k a'] l keyed Ha _ IH]; [constructor|].
    inversion Hl as [|? ? (k' & Hk' & HP') Ht]; subst. constructor; [|auto].
    rewrite Hk' in Ha. cbn in Ha. injection Ha as <- <-. done.
  - rewrite Hs. cbn. eauto.
Qed.

(** *** Files, pure numeric names *)

Lemma fullmatch_pure_numeric w :
  fullmatch Pat.pure_numeric w = true →
  decimal_text w ∧ (length w ≤ 3)%nat.
Proof.
  unfold fullmatch, Pat.pure_numeric, rep, digit.
  destruct w as [|a [|b [|c [|d t]]]]; cbn;
    repeat match goal with
           | |- context [PyChar.is_decimal ?x] =>
             let E := fresh "E" in destruct (PyChar.is_decimal x) eqn:E; cbn
           end; try done; intros _; (split; [split; [done|repeat constructor; done]|simpl; lia]).
Qed.

Lemma decimal_in_chars c : PyChar.is_decimal c = true → In c decimal_chars.
Proof.
  rewrite decimal_range. intros H.
  assert (c = 48 ∨ c = 49 ∨ c = 50 ∨ c = 51 ∨ c = 52 ∨ c = 53 ∨ c = 54 ∨ c = 55
          ∨ c = 56 ∨ c = 57) as Hc by lia.
  unfold decimal_chars. simpl. intuition.
Qed.

Lemma digit_names_have_episode :
  forallb (fun a => has_episode [a]
     && forallb (fun b => has_episode [a; b]
          && forallb (fun c => has_episode [a; b; c]) decimal_chars)
        decimal_chars) decimal_chars = true.
Proof. vm_compute. reflexivity. Qed.

(** A pure numeric name always parses to an episode number (by the last
    rule of the cascade). *)
Lemma pure_numeric_has_episode name :
  fullmatch Pat.pure_numeric name = true → has_episode name = true.
Proof.
  intros H. apply fullmatch_pure_numeric in H as [[Hne Hd] Hlen].
  pose proof digit_names_have_episode as Hall.
  rewrite forallb_forall in Hall.
  destruct name as [|a [|b [|c [|d t]]]]; [done| | | |simpl in Hlen; lia].
  - inversion Hd as [|? ? Ha _]; subst.
    apply decimal_in_chars, Hall, andb_true_iff in Ha. tauto.
  - inversion Hd as [|? ? Ha Hd']; subst. inversion Hd' as [|? ? Hb _]; subst.
    apply decimal_in_chars, Hall, andb_true_iff in Ha as [_ Ha].
    rewrite forallb_forall in Ha.
    apply decimal_in_chars, Ha, andb_true_iff in Hb. tauto.
  - inversion Hd as [|? ? Ha Hd']; subst. inversion Hd' as [|? ? Hb Hd'']; subst.
    inversion Hd'' as [|? ? Hc _]; subst.
    apply decimal_in_chars, Hall, andb_true_iff in Ha as [_ Ha].
    rewrite forallb_forall in Ha.
    apply decimal_in_chars, Ha, andb_true_iff in Hb as [_ Hb].
    rewrite forallb_forall in Hb. by apply decimal_in_chars, Hb in Hc.
Qed.

Lemma parse_file_total p : ∃ x, parse_file p = Ok x ∧ p_path x = p.
Proof.
  unfold parse_file, parse_episode_info.
  destruct (parse_name_total (OsPath.splitext (OsPath.basename p)).1) as [info ->].
  cbn. eauto.
Qed.

Lemma parse_file_path p x : parse_file p = Ok x → p_path x = p.
Proof. destruct (parse_file_total p) as (y & -> & <-). by intros [= <-]. Qed.

Lemma parsed_files p parsed :
  rmapM parse_file p = Ok parsed →
  map p_path parsed = p ∧ Forall well_parsed parsed.
Proof.
  intros H. apply rmapM_Ok_Forall2 in H.
  induction H as [|a x l xs Hx _ [IH1 IH2]]; simpl; [done|].
  pose proof (parse_file_path a x Hx) as Hp. rewrite Hp, IH1. split; [done|].
  constructor; [|done]. unfold well_parsed. by rewrite Hp.
Qed.

Lemma well_parsed_pure x :
  well_parsed x → fullmatch Pat.pure_numeric (name_no_ext (p_path x)) = true →
  is_Some (e_auto x).
Proof.
  unfold well_parsed, parse_file, parse_episode_info, name_no_ext.
  intros Hx Hp. apply pure_numeric_has_episode in Hp. unfold has_episode in Hp.
  destruct (parse_name _) as [[[s e] t]|]; [|done]. cbn in Hx.
  injection Hx as <-. simpl. destruct e; [eauto|done].
Qed.

Lemma pure_le_parsed parsed :
  Forall well_parsed parsed →
  (length (pure_numeric_files parsed) ≤ length (parsed_es parsed))%nat.
Proof.
  unfold pure_numeric_files, parsed_es.
  induction 1 as [|x l Hx _ IH]; [done|].
  cbn [map]. rewrite filter_cons. cbn [omap list_omap]. case_decide as Hp.
  - destruct (well_parsed_pure x Hx Hp) as [e ->]. simpl in *. lia.
  - destruct (e_auto x); simpl in *; lia.
Qed.

(** The second branch is shadowed by the first: whenever enough pure
    numeric names are present, as many episode numbers were parsed. *)
Lemma pure_numeric_shadowed parsed :
  Forall well_parsed parsed → select_strategy parsed ≠ PureNumericSequence.
Proof.
  intros Hw. unfold select_strategy, use_parsed_numbers.
  pose proof (pure_le_parsed parsed Hw) as Hle.
  destruct (threshold (length parsed) <=? length (parsed_es parsed))%nat eqn:E; [done|].
  apply Nat.leb_gt in E.
  replace (threshold (length parsed) <=? length (pure_numeric_files parsed))%nat
    with false by (symmetry; apply Nat.leb_gt; lia).
  by rewrite andb_false_r.
Qed.

(** *** The formatter never raises *)

Lemma format_template_total `{StrFormat} template title season episode ext orig :
  ∃ s, format_template template title season episode ext orig = Ok s.
Proof.
  unfold format_template, try_except. destruct (str_format _ _); eauto.
Qed.

(** *** The preview builder *)

Section PreviewFacts.
Context `{StrFormat}.
Variable cfg : settings.

Lemma render_total x : ∃ e, render cfg x = Ok e.
Proof.
  unfold render.
  destruct (format_template_total (var_template cfg) (title_of cfg)
              (Some (n_season x)) (Some (n_ep x)) (OsPath.splitext (n_path x)).2
              (OsPath.basename (n_path x))) as [s ->].
  cbn. eauto.
Qed.

Lemma render_oldabs x e : render cfg x = Ok e → oldabs e = n_path x.
Proof.
  unfold render. destruct (format_template _ _ _ _ _ _); cbn; [|done].
  by intros [= <-].
Qed.

Lemma rmapM_render l :
  ∃ pl, rmapM (render cfg) l = Ok pl ∧ map oldabs pl = map n_path l.
Proof.
  destruct (rmapM_total (render cfg) l) as [pl Hpl].
  { apply Forall_forall. intros x _. apply render_total. }
  exists pl. split; [done|]. apply rmapM_Ok_Forall2 in Hpl.
  induction Hpl as [|x e l pl Hx _ IH]; simpl; [done|].
  by rewrite (render_oldabs x e Hx), IH.
Qed.

Lemma imap_paths {A} (f : nat → A → numbered) (g : A → pstr) l :
  (∀ i x, n_path (f i x) = g x) → map n_path (imap f l) = map g l.
Proof.
  intros Hf. revert f Hf. induction l as [|x l IH]; intros f Hf; simpl; [done|].
  rewrite Hf. f_equal. apply IH. intros i y. apply Hf.
Qed.

Lemma numbering_trust_paths sv parsed l :
  numbering_trust cfg sv parsed = Ok l →
  ∃ parsed_sorted, parsed_sorted ≡ₚ parsed
                   ∧ l = imap (number_trust cfg sv) parsed_sorted.
Proof.
  unfold numbering_trust. destruct (sorted_by _ _ parsed) as [ps|] eqn:E; cbn; [|done].
  intros [= <-]. apply sorted_by_Ok in E as [E _]. eauto.
Qed.

Lemma numbering_pure_paths sv parsed l :
  numbering_pure cfg sv parsed (pure_numeric_files parsed) = Ok l →
  map n_path l ≡ₚ map p_path parsed.
Proof.
  unfold numbering_pure.
  destruct (sorted_by _ _ (pure_numeric_files parsed)) as [fs|] eqn:E; cbn; [|done].
  intros [= <-]. apply sorted_by_Ok in E as [E _].
  rewrite map_app, map_map. simpl. rewrite map_id.
  rewrite (imap_paths _ id) by done. rewrite map_id, E.
  unfold pure_numeric_files.
  set (Q := fun p : pstr => fullmatch Pat.pure_numeric (name_no_ext p) = true).
  rewrite <- (filter_app_complement Q (map p_path parsed)) at 3.
  apply Permutation_app_head.
  assert (∀ l : list pstr, (∀ p, p ∈ l → p ∈ map p_path parsed) →
            filter (λ p, p ∉ filter Q (map p_path parsed)) l
            = filter (λ x, ¬ Q x) l) as Hf.
  { induction l as [|p l IH]; intros Hl; [done|]. rewrite !filter_cons.
    rewrite IH by (intros q Hq; apply Hl; by right).
    assert (p ∈ map p_path parsed) as Hp by (apply Hl; left).
    repeat case_decide; try done.
    - exfalso. rewrite list_elem_of_filter in *. tauto.
    - exfalso. rewrite list_elem_of_filter in *. tauto. }
  by rewrite Hf.
Qed.
End PreviewFacts.

Lemma natural_key_sort_total (l : list pstr) :
  Forall keyed_ok l →
  ∃ out, sorted_by key_lt (fun p => natural_key (OsPath.basename p)) l = Ok out.
Proof.
  intros Hl. apply (sorted_by_total _ _ (alternating false)).
  - intros a b. apply key_lt_alternating.
  - eapply Forall_impl; [exact Hl|]. intros p [k Hk]. exists k.
    split; [done|]. by eapply natural_key_alternating.
Qed.

Lemma guess_lt_total a b : guess_shape a → guess_shape b → ∃ r, guess_lt a b = Ok r.
Proof.
  destruct a, b; simpl; intros Ha Hb; eauto using key_lt_alternating.
  destruct (_ =? _)%Z; eauto using key_lt_alternating.
Qed.

Lemma pair_lt_total (a b : Z * list key_elem) :
  alternating false a.2 → alternating false b.2 → ∃ r, pair_lt a b = Ok r.
Proof.
  unfold pair_lt. intros Ha Hb. destruct (_ =? _)%Z; eauto using key_lt_alternating.
Qed.

Lemma sort_files_total method l :
  Forall keyed_ok l → ∃ out, sort_files method l = Ok out.
Proof.
  intros Hl. unfold sort_files.
  repeat case_bool_decide; eauto using natural_key_sort_total.
  apply (sorted_by_total _ _ guess_shape); [apply guess_lt_total|].
  eapply Forall_impl; [exact Hl|]. intros p [k Hk]. unfold guess_key.
  unfold parse_episode_info.
  destruct (parse_name_total (OsPath.splitext (OsPath.basename p)).1) as [info ->].
  pose proof (natural_key_alternating _ _ Hk) as Ha.
  cbn [mbind result_bind rbind]. rewrite Hk. cbn [mbind result_bind rbind].
  destruct (info.1.2); eauto.
Qed.

Lemma sort_files_Ok method l out : sort_files method l = Ok out → out ≡ₚ l.
Proof.
  unfold sort_files. repeat case_bool_decide; try (intros [= <-]; done);
    intros Hs; by apply sorted_by_Ok in Hs as [? _].
Qed.

Lemma keyed_ok_perm l l' : l ≡ₚ l' → Forall keyed_ok l → Forall keyed_ok l'.
Proof. intros Hp. by rewrite Hp. Qed.

Section NumberingFacts.
Context `{StrFormat}.
Variable cfg : settings.

Lemma numbering_paths file_list l :
  numbering cfg file_list = Ok l → map n_path l ≡ₚ file_list.
Proof.
  unfold numbering. destruct file_list as [|f0 fl]; [by intros [= <-]|].
  destruct (sort_files _ _) as [files|] eqn:Hs; cbn; [|done].
  destruct (rmapM parse_file files) as [parsed|] eqn:Hp; cbn; [|done].
  destruct (season_val_of _) as [sv|]; cbn; [|done].
  apply sort_files_Ok in Hs. apply parsed_files in Hp as [Hp _].
  rewrite <- Hs, <- Hp. destruct (select_strategy parsed).
  - intros Hl. apply numbering_trust_paths in Hl as (ps & Hps & ->).
    rewrite (imap_paths _ p_path) by done. by rewrite Hps.
  - apply numbering_pure_paths.
  - intros [= <-]. unfold numbering_fallback.
    by rewrite (imap_paths _ p_path) by done.
Qed.

Lemma numbering_trust_total sv parsed :
  Forall keyed_ok (map p_path parsed) →
  ∃ l, numbering_trust cfg sv parsed = Ok l.
Proof.
  intros Hk. unfold numbering_trust.
  destruct (sorted_by_total pair_lt
              (fun x => k ← natural_key (OsPath.basename (p_path x));
                        Ok (match e_auto x with Some e => e | None => 999999%Z end, k))
              (fun zk => alternating false zk.2) parsed) as [ps ->].
  - intros a b. apply pair_lt_total.
  - rewrite Forall_map in Hk. eapply Forall_impl; [exact Hk|].
    intros x [k Hx]. simpl in Hx. rewrite Hx. cbn. eexists. split; [done|].
    simpl. by eapply natural_key_alternating.
  - cbn. eauto.
Qed.

Lemma numbering_pure_total sv parsed :
  ∃ l, numbering_pure cfg sv parsed (pure_numeric_files parsed) = Ok l.
Proof.
  unfold numbering_pure.
  destruct (sorted_by_total (fun a b : Z => Ok (a <? b)%Z)
              (fun p => PyStr.int (name_no_ext p)) (fun _ => True)
              (pure_numeric_files parsed)) as [fs ->].
  - eauto.
  - apply Forall_forall. intros p Hp. unfold pure_numeric_files in Hp.
    apply list_elem_of_filter in Hp as [Hp _].
    apply fullmatch_pure_numeric in Hp as [Hp _].
    destruct (int_decimal_text _ Hp) as (z & Hz & _). eauto.
  - cbn. eauto.
Qed.

Lemma numbering_total file_list :
  Forall keyed_ok file_list →
  is_ok (season_val_of (PyStr.strip_ws (var_season cfg))) = true →
  ∃ l, numbering cfg file_list = Ok l.
Proof.
  intros Hk Hseason. unfold numbering. destruct file_list as [|f0 fl]; [eauto|].
  destruct (sort_files_total (var_sort_method cfg) (f0 :: fl) Hk) as [files Hs].
  rewrite Hs. cbn.
  destruct (rmapM_total parse_file files) as [parsed Hp].
  { apply Forall_forall. intros p _. destruct (parse_file_total p) as (x & ? & _). eauto. }
  rewrite Hp. cbn. destruct (season_val_of _) as [sv|]; [|done]. cbn.
  apply sort_files_Ok in Hs. apply parsed_files in Hp as [Hp _].
  destruct (select_strategy parsed).
  - apply numbering_trust_total. rewrite Hp. by eapply keyed_ok_perm.
  - apply numbering_pure_total.
  - eauto.
Qed.

(** [preview] computes a list with one entry per file. *)
Lemma preview_entries file_list :
  Forall keyed_ok file_list →
  is_ok (season_val_of (PyStr.strip_ws (var_season cfg))) = true →
  ∃ pl, preview cfg file_list = Ok pl ∧ map oldabs pl ≡ₚ file_list.
Proof.
  intros Hk Hs. unfold preview.
  destruct (numbering_total file_list Hk Hs) as [l Hl]. rewrite Hl. cbn.
  destruct (rmapM_render cfg l) as (pl & Hpl & Hold). exists pl.
  split; [done|]. rewrite Hold. by apply numbering_paths.
Qed.
End NumberingFacts.


(** *** Offsets *)

Lemma map_ep_imap {A} (f g : nat → A → numbered) (k : Z) (l : list A) :
  (∀ i x, n_ep (f i x) = (n_ep (g i x) + k)%Z) →
  map n_ep (imap f l) = map (fun e => (e + k)%Z) (map n_ep (imap g l)).
Proof.
  revert f g. induction l as [|x l IH]; intros f g Hfg; simpl; [done|].
  rewrite Hfg. f_equal. apply IH. intros i y. apply Hfg.
Qed.

Lemma elem_of_imap {A B} (f : nat → A → B) (l : list A) y :
  y ∈ imap f l → ∃ i x, x ∈ l ∧ y = f i x.
Proof.
  intros Hy. apply elem_of_lookup_imap_1 in Hy as (i & x & -> & Hx).
  exists i, x. split; [|done]. by eapply list_elem_of_lookup_2.
Qed.


(** *** Conflicts *)

Lemma conflict_scan_spec l : ∀ cs seen k,
  k ∈ conflict_scan l cs seen ↔
  k ∈ cs ∨ ∃ i e, l !! i = Some e ∧ conflict_key e = k
                  ∧ (is_Some (seen !! k)
                     ∨ ∃ j e', (j < i)%nat ∧ l !! j = Some e' ∧ conflict_key e' = k).
Proof.
  induction l as [|e t IH]; intros cs seen k; simpl.
  - split; [by left|]. intros [?|(i & e & Hi & _)]; [done|]. by destruct i.
  - destruct (seen !! conflict_key e) eqn:Hseen; rewrite IH; clear IH.
    + split.
      * intros [Hk|(i & e1 & Hi & Hk & Hrest)].
        -- apply elem_of_union in Hk as [Hk|Hk]; [|by left].
           apply elem_of_singleton in Hk as ->. right. exists 0%nat, e.
           repeat split; eauto.
        -- right. exists (S i), e1. repeat split; auto.
           destruct Hrest as [?|(j & e' & Hj & Hl & Hk')]; [by left|].
           right. exists (S j), e'. repeat split; auto. lia.
      * intros [Hk|(i & e1 & Hi & Hk & Hrest)];
          [left; apply elem_of_union; by right|].
        assert (Hin : conflict_key e ∈ ({[conflict_key e]} ∪ cs : gset (pstr * pstr)))
          by (apply elem_of_union; left; by apply elem_of_singleton).
        destruct i as [|i].
        -- simpl in Hi. injection Hi as <-. left. by rewrite <- Hk.
        -- simpl in Hi. destruct Hrest as [Hs|(j & e' & Hj & Hl & Hk')].
           ++ right. exists i, e1. auto.
           ++ destruct j as [|j].
              ** simpl in Hl. injection Hl as <-. left. by rewrite <- Hk'.
              ** right. exists i, e1. repeat split; auto. right.
                 exists j, e'. repeat split; auto. lia.
    + split.
      * intros [Hk|(i & e1 & Hi & Hk & Hrest)]; [by left|].
        right. exists (S i), e1. repeat split; auto.
        destruct Hrest as [Hs|(j & e' & Hj & Hl & Hk')].
        -- destruct (decide (conflict_key e = k)) as [Heq|Hne].
           ++ right. exists 0%nat, e. repeat split; auto. lia.
           ++ left. by rewrite lookup_insert_ne in Hs.
        -- right. exists (S j), e'. repeat split; auto. lia.
      * intros [Hk|(i & e1 & Hi & Hk & Hrest)]; [by left|].
        destruct i as [|i].
        -- simpl in Hi. injection Hi as ->.
           destruct Hrest as [[x Hs]|(j & e' & Hj & _)]; [|lia]. congruence.
        -- simpl in Hi. right. exists i, e1. repeat split; auto.
           destruct Hrest as [Hs|(j & e' & Hj & Hl & Hk')].
           ++ left. destruct (decide (conflict_key e = k)) as [<-|Hne].
              ** rewrite lookup_insert_eq. eauto.
              ** by rewrite lookup_insert_ne.
           ++ destruct j as [|j].
              ** simpl in Hl. injection Hl as ->. left. rewrite Hk'.
                 rewrite lookup_insert_eq. eauto.
              ** right. exists j, e'. repeat split; auto. lia.
Qed.

Lemma conflict_set_spec l k :
  k ∈ conflict_set_of l ↔
  ∃ i j e e', (j < i)%nat ∧ l !! i = Some e ∧ l !! j = Some e'
              ∧ conflict_key e = k ∧ conflict_key e' = k.
Proof.
  unfold conflict_set_of. rewrite conflict_scan_spec. split.
  - intros [Hk|(i & e & Hi & Hk & [[x Hs]|(j & e' & Hj & Hl & Hk')])].
    + by apply elem_of_empty in Hk.
    + by rewrite lookup_empty in Hs.
    + exists i, j, e, e'. auto.
  - intros (i & j & e & e' & Hj & Hi & Hl & Hk & Hk').
    right. exists i, e. repeat split; auto. right. eauto.
Qed.

Lemma collide_key e e' : collide e e' ↔ conflict_key e' = conflict_key e.
Proof. unfold collide, conflict_key. split; [intros [-> ->]; done|]. by intros [= -> ->]. Qed.

Lemma conflict_member l i e :
  l !! i = Some e →
  conflict_key e ∈ conflict_set_of l ↔
  ∃ j e', j ≠ i ∧ l !! j = Some e' ∧ collide e e'.
Proof.
  intros Hi. rewrite conflict_set_spec. split.
  - intros (i0 & j0 & e0 & e0' & Hlt & Hi0 & Hj0 & Hk & Hk').
    destruct (decide (i0 = i)) as [->|Hne].
    + exists j0, e0'. split; [lia|]. split; [done|]. apply collide_key. congruence.
    + exists i0, e0. split; [done|]. split; [done|]. apply collide_key. congruence.
  - intros (j & e' & Hne & Hj & Hc). apply collide_key in Hc.
    destruct (decide (j < i)%nat).
    + exists i, j, e, e'. auto.
    + exists j, i, e', e. repeat split; auto. lia.
Qed.


(** *** Natural keys: when they exist *)

Lemma elem_of_slice (w : pstr) a b c : c ∈ slice w a b → c ∈ w.
Proof.
  unfold slice. intros H. by apply subseteq_take, subseteq_drop in H.
Qed.

Lemma split_go_chars groups w : ∀ ms last p c,
  p ∈ split_go groups w last ms → c ∈ p → c ∈ w.
Proof.
  induction ms as [|m ms IH]; intros last p c; simpl.
  - intros Hp Hc. apply list_elem_of_singleton in Hp as ->.
    by apply subseteq_drop in Hc.
  - intros Hp Hc. apply elem_of_cons in Hp as [->|Hp]; [by eapply elem_of_slice|].
    apply elem_of_app in Hp as [Hp|Hp]; [|by eapply IH].
    apply list_elem_of_In, in_map_iff in Hp as (g & <- & _).
    unfold group in Hc. destruct (assoc_nat g (m_groups m)) as [[a b]|]; simpl in Hc.
    + by eapply elem_of_slice.
    + by apply elem_of_nil in Hc.
Qed.

(** [natural_key] returns a key for every string in which the only
    characters [str.isdigit] accepts are decimal digits. *)
Lemma natural_key_total s :
  Forall (fun c => PyChar.isdigit c = true → PyChar.is_decimal c = true) s →
  ∃ k, natural_key s = Ok k.
Proof.
  intros Hs. unfold natural_key. apply rmapM_total. apply Forall_forall.
  intros p Hp. unfold key_part. destruct (PyStr.isdigit p) eqn:Hd; [|eauto].
  destruct (int_decimal_text p) as (z & -> & _); [|cbn; eauto].
  destruct p as [|c t]; [done|]. split; [done|].
  apply Forall_forall. intros x Hx. rewrite Forall_forall in Hs. apply Hs.
  - eapply split_go_chars; [exact Hp|exact Hx].
  - unfold PyStr.isdigit in Hd. rewrite forallb_forall in Hd. apply Hd.
    by apply list_elem_of_In.
Qed.

Lemma map_ep_imap_seq {A} (l : list A) : ∀ (g : nat → Z) (mk : nat → A → numbered),
  (∀ i x, n_ep (mk i x) = g i) →
  map n_ep (imap mk l) = map g (seq 0 (length l)).
Proof.
  induction l as [|x l IH]; intros g mk Hg; simpl; [done|].
  rewrite Hg. f_equal. rewrite <- seq_shift, map_map.
  apply (IH (fun i => g (S i))). intros i y. apply Hg.
Qed.

(** In the second branch the pure numeric files, in their sorted order,
    receive 1, 2, ... plus the offset. *)
Lemma numbering_pure_first_sequence cfg sv parsed pure l :
  numbering_pure cfg sv parsed pure = Ok l →
  map n_ep (take (length pure) l)
  = map (fun i => (Z.of_nat (S i) + var_offset cfg)%Z) (seq 0 (length pure)).
Proof.
  unfold numbering_pure. destruct (sorted_by _ _ pure) as [fs|] eqn:E; cbn; [|done].
  intros [= <-]. apply sorted_by_Ok in E as [E _].
  assert (length fs = length pure) as <- by (by rewrite E).
  rewrite take_app_length'; [|by rewrite length_imap].
  by apply map_ep_imap_seq.
Qed.

(** In the second branch every file that is not pure numeric receives
    the same number. *)
Lemma numbering_pure_rest_constant cfg sv parsed pure l :
  numbering_pure cfg sv parsed pure = Ok l →
  ∀ y, y ∈ drop (length pure) l →
       n_ep y = (Z.of_nat (length pure) + 1 + var_offset cfg)%Z.
Proof.
  unfold numbering_pure. destruct (sorted_by _ _ pure) as [fs|] eqn:E; cbn; [|done].
  intros [= <-] y. apply sorted_by_Ok in E as [E _].
  assert (length fs = length pure) as Hlen by (by rewrite E).
  rewrite drop_app_length'; [|by rewrite length_imap].
  intros Hy. apply list_elem_of_In, in_map_iff in Hy as (p & <- & _). simpl.
  by rewrite Hlen.
Qed.

(** *** Evaluations

    From here on [str.format] is [BasicFormat.format]; the templates used
    are within its range. *)

#[local] Existing Instance BasicFormat.format.

(** C5.  [Show.Name.2x05.Some.Title.1080p.WEB-DL.mkv] parses to season
    2, episode 5 and title [Some.Title]: the SxxEyy rule does not match,
    the [<season>x<episode>] rule matches and ends at index 14, and the
    tokens after it are collected up to the resolution token [1080p]. *)
Theorem parse_2x05_example :
  let name := u "Show.Name.2x05.Some.Title.1080p.WEB-DL" in
  parse_episode_info (u "Show.Name.2x05.Some.Title.1080p.WEB-DL.mkv")
  = Ok (Some 2%Z, Some 5%Z, Some (u "Some.Title"))
  ∧ Re.search Pat.sxxeyy name = None
  ∧ (Re.m_end <$> Re.search Pat.nxm name) = Some 14%nat
  ∧ Re.split [] Pat.separators (u "Some.Title.1080p.WEB-DL")
    = map u ["Some"; "Title"; "1080p"; "WEB"; "DL"]%string
  ∧ collect_title_tokens (map u ["Some"; "Title"; "1080p"; "WEB"; "DL"]%string)
    = map u ["Some"; "Title"]%string
  ∧ Re.fullmatch Pat.resolution (u "1080p") = true.
Proof. vm_compute. repeat split. Qed.

(** C6.  With pad width 3 the rendered name [Show7.S01E7.mkv], whose
    episode marker carries 7, becomes [Show007.S01E7.mkv]: the zeros go
    to the first [7] of the name, and the marker still reads [E7].  The
    name arises from a preview with title [Show7] and a template that
    does not pad the episode. *)
Theorem padding_hits_first_occurrence :
  _apply_padding_to_template (u "Show7.S01E7.mkv") 3 = u "Show007.S01E7.mkv"
  ∧ (map newname <$> preview cfg_unpadded [u "/tv/ep.S01E07.mkv"])
    = Ok [u "Show007.S01E7.mkv"].
Proof. vm_compute. split; reflexivity. Qed.

Lemma padding_example_plain :
  _apply_padding_to_template (u "Show.S01E7.mkv") 3 = u "Show.S01E007.mkv".
Proof. vm_compute. reflexivity. Qed.


(** C10.  [natural_key] raises [ValueError] on a name that starts with
    U+00B2: the split leaves the superscript as a piece of its own,
    [str.isdigit] accepts it and [int] does not; sorting a scan that
    contains the name raises as well. *)
Theorem natural_key_superscript_raises :
  natural_key superscript_name = Raise ValueError
  ∧ Re.split [1%nat] re_digit_run superscript_name = [[0xB2]; u "1"; u ".mkv"]
  ∧ PyStr.isdigit [0xB2] = true
  ∧ PyStr.int [0xB2] = Raise ValueError
  ∧ _scan_sort [u "/tv/ep1.mkv"; u "/tv/" ++ superscript_name] = Raise ValueError.
Proof. vm_compute. repeat split. Qed.

Lemma natural_order_examples :
  (k2 ← natural_key (u "ep2"); k10 ← natural_key (u "ep10"); key_lt k2 k10) = Ok true
  ∧ _scan_sort [u "ep2.mkv"; u "ep10.mkv"; u "ep1.mkv"]
    = Ok [u "ep1.mkv"; u "ep2.mkv"; u "ep10.mkv"].
Proof. vm_compute. split; reflexivity. Qed.

(** C1.  Episodes 2 and 3 are renamed to 1 and 2 (offset -1) and the
    log is fed to the undo engine.  The undo replays the log from its
    first row: moving 1 back to 2 replaces the file that was episode 3,
    and the second row then moves that file on to 3.  No file is at the
    original path of episode 2, and the content of episode 3 is lost. *)
Theorem undo_in_log_order_loses_file :
  (map (fun e => (oldabs e, newabs e)) <$> preview cfg_minus1 [ep2; ep3])
  = Ok [(ep2, ep1); (ep3, ep2)]
  ∧ match preview cfg_minus1 [ep2; ep3] with
    | Ok preview_list =>
      match execute_then_undo cfg_minus1 8 fs_two_episodes preview_list with
      | Some (log, st, rollback) =>
        log = [(ep2, ep1); (ep3, ep2)]
        ∧ rollback = Ok [(ep1, ep2); (ep2, ep3)]
        ∧ FS.files st !! ep1 = None
        ∧ FS.files st !! ep2 = None
        ∧ FS.files st !! ep3 = Some 2
      | None => False
      end
    | Raise _ => False
    end.
Proof. vm_compute. repeat split. Qed.

(** C2, as stated, fails: a batch of nine files of which exactly one
    carries an SxxEyy marker and none is pure numeric does not select the
    sequential assignment when the other names carry a plain number,
    because the last rule of the parser gives those an episode too. *)
Lemma one_marker_batch_trusts_parsed_numbers :
  ¬ (∀ files parsed,
       rmapM parse_file files = Ok parsed →
       length files = 9%nat →
       length (filter (fun p => carries_sxxeyy p = true) files) = 1%nat →
       pure_numeric_files parsed = [] →
       select_strategy parsed = SequentialFallback).
Proof.
  intros H.
  specialize (H batch_one_marked_numbered (parsed_of batch_one_marked_numbered)).
  assert (select_strategy (parsed_of batch_one_marked_numbered) = TrustParsedNumbers)
    as Hsel by (vm_compute; reflexivity).
  rewrite Hsel in H. discriminate H; vm_compute; reflexivity.
Qed.

(** C2, amended.  The first branch is selected if and only if the number
    of files with a parsed episode is at least [max(2, n/3)] for a batch
    of [n] files; nine files of which four have one select it, and nine
    files of which exactly one has a parsed episode (by any rule) and
    none is pure numeric select the sequential assignment. *)
Theorem trust_parsed_numbers_iff (parsed : list parsed_file) :
  (select_strategy parsed = TrustParsedNumbers
   ↔ (Nat.max 2 (length parsed / 3) ≤ length (parsed_es parsed))%nat)
  ∧ (length parsed = 9%nat → length (parsed_es parsed) = 4%nat →
     select_strategy parsed = TrustParsedNumbers)
  ∧ (length parsed = 9%nat → length (parsed_es parsed) = 1%nat →
     pure_numeric_files parsed = [] →
     select_strategy parsed = SequentialFallback).
Proof.
  unfold select_strategy, use_parsed_numbers, threshold. repeat split.
  - destruct (_ <=? _)%nat eqn:E; [by apply Nat.leb_le in E|].
    by destruct (_ && _).
  - intros Hle. apply Nat.leb_le in Hle. by rewrite Hle.
  - intros -> ->. reflexivity.
  - intros -> -> ->. reflexivity.
Qed.

Lemma trust_parsed_numbers_witness :
  select_strategy (parsed_of batch_four_marked) = TrustParsedNumbers
  ∧ select_strategy (parsed_of batch_one_marked) = SequentialFallback.
Proof.
  split.
  - apply (proj1 (proj2 (trust_parsed_numbers_iff (parsed_of batch_four_marked))));
      vm_compute; reflexivity.
  - apply (proj2 (proj2 (trust_parsed_numbers_iff (parsed_of batch_one_marked))));
      vm_compute; reflexivity.
Defined.

(** C8.  [format_template] always returns a string: absent season and
    episode count as 0, the result is that of [str.format] when it
    returns, and when it raises the result is the template with the
    literal placeholders [{title}], [{ext}], [{orig}], [{season}],
    [{episode}] and [{ep}] replaced. *)
Theorem format_template_never_raises `{StrFormat}
    (template title : pstr) (season episode : option Z) (ext orig : pstr) :
  let s := match season with Some v => v | None => 0%Z end in
  let e := match episode with Some v => v | None => 0%Z end in
  let ext' := PyStr.lstrip (u ".") ext in
  (∃ out, format_template template title season episode ext orig = Ok out)
  ∧ format_template template title None None ext orig
    = format_template template title (Some 0%Z) (Some 0%Z) ext orig
  ∧ (∀ out, str_format template (FmtContext title s e e ext' orig) = Ok out →
       format_template template title season episode ext orig = Ok out)
  ∧ (∀ exn, str_format template (FmtContext title s e e ext' orig) = Raise exn →
       format_template template title season episode ext orig
       = Ok (PyStr.replace (u "{ep}") (PyStr.of_Z e) None
              (PyStr.replace (u "{episode}") (PyStr.of_Z e) None
                (PyStr.replace (u "{season}") (PyStr.of_Z s) None
                  (PyStr.replace (u "{orig}") orig None
                    (PyStr.replace (u "{ext}") ext' None
                      (PyStr.replace (u "{title}") title None template))))))).
Proof.
  intros s e ext'. split; [apply format_template_total|]. split; [reflexivity|].
  unfold format_template, try_except. fold s e ext'.
  split; [by intros out ->|]. intros exn ->. by destruct season, episode.
Qed.

Lemma format_template_witness :
  format_template (u "{title} E{episode:03} {oops}") (u "Show") None (Some 7%Z)
                  (u ".mkv") (u "a.mkv")
  = Ok (u "Show E{episode:03} {oops}")
  ∧ format_template default_template (u "Show") None (Some 7%Z) (u ".mkv") (u "a.mkv")
    = Ok (u "Show.S00E007.mkv").
Proof.
  split.
  - apply (proj2 (proj2 (proj2 (format_template_never_raises
             (u "{title} E{episode:03} {oops}") (u "Show") None (Some 7%Z)
             (u ".mkv") (u "a.mkv")))) KeyError).
    vm_compute; reflexivity.
  - apply (proj1 (proj2 (proj2 (format_template_never_raises
             default_template (u "Show") None (Some 7%Z) (u ".mkv") (u "a.mkv"))))).
    vm_compute; reflexivity.
Defined.



Lemma conflict_flags_unchanged_example :
  tags three_entries = [TagConflict; TagConflict; TagUnchanged].
Proof. vm_compute. reflexivity. Qed.


(** When no new name is the old name of another file the same pipeline
    restores both files. *)
Lemma undo_restores_unchained_example :
  match preview cfg_plus10 [ep2; ep3] with
  | Ok preview_list =>
    match execute_then_undo cfg_plus10 8 fs_two_episodes preview_list with
    | Some (log, st, rollback) =>
      length log = 2%nat
      ∧ FS.files st !! ep2 = Some 2
      ∧ FS.files st !! ep3 = Some 3
      ∧ size (FS.files st) = 2%nat
    | None => False
    end
  | Raise _ => False
  end.
Proof. vm_compute. repeat split. Qed.

(** *** Undoing a log without chains *)

Lemma isabs_nonempty p : OsPath.isabs p = true → p ≠ [].
Proof. by destruct p. Qed.

Lemma undo_row_reversible st o n :
  reversible st (o, n) → undo_row st [o; n] = Ok (moved st n o, Some (n, o)).
Proof.
  intros [Habs Hnabs Ho Hn [c Hc] Hnd Hpar Hpd]. simpl in *.
  pose proof (isabs_nonempty _ Habs) as Hone.
  pose proof (isabs_nonempty _ Hnabs) as Hnne.
  unfold undo_row, moved. simpl. rewrite Hc.
  assert (Hex : FS.path_exists st n = true).
  { unfold FS.path_exists, FS.isfile. rewrite Hn, Hc.
    apply orb_true_iff. left. apply andb_true_iff. split.
    - by rewrite bool_decide_eq_false_2.
    - apply bool_decide_eq_true. eauto. }
  assert (Hsrc : undo_source st o (Some n) = Some n).
  { unfold undo_source, nonempty. change (default [] (Some n)) with n.
    rewrite (bool_decide_eq_false_2 (n = [])) by done. cbn [negb andb].
    by rewrite Hex. }
  assert (Hpe : FS.path_exists st (OsPath.dirname o) = true)
    by (unfold FS.path_exists; rewrite Hpar; apply orb_true_r).
  rewrite Hsrc, Habs, Hpe. cbn [mbind result_bind rbind].
  unfold FS.move. destruct n as [|n0 n']; [done|]. rewrite Hn, Hc.
  assert (Hdir : FS.isdir st o = false).
  { unfold FS.isdir. rewrite Ho. rewrite (bool_decide_eq_false_2 (o ∈ _)) by done.
    by rewrite andb_false_r. }
  rewrite Hdir. cbn [andb negb]. destruct o as [|o0 o']; [done|]. rewrite Ho.
  rewrite Hdir. by rewrite (bool_decide_eq_true_2 _ Hpd).
Qed.

(** A log whose rows are reversible and whose paths are pairwise
    distinct is undone completely: every file is back at its old path
    and the new paths are free. *)
Lemma undo_loop_separated : ∀ (log : list log_row) (st : FS.t) rows_out,
  NoDup (map fst log ++ map snd log) →
  Forall (reversible st) log →
  ∃ st',
    undo_loop st (csv_rows log) rows_out
    = (st', Ok (rows_out ++ map (fun r => (r.2, r.1)) log))
    ∧ FS.dirs st' = FS.dirs st ∧ FS.cwd st' = FS.cwd st
    ∧ (∀ r, r ∈ log → FS.files st' !! r.1 = FS.files st !! r.2
                      ∧ FS.files st' !! r.2 = None)
    ∧ (∀ p, p ∉ map fst log → p ∉ map snd log →
            FS.files st' !! p = FS.files st !! p).
Proof.
  induction log as [|[o n] log IH]; intros st rows_out Hnd Hall.
  - simpl. exists st. rewrite app_nil_r. split; [done|]. split; [done|]. split; [done|].
    split; [|done]. intros x Hx. by apply elem_of_nil in Hx.
  - inversion Hall as [|? ? Hr Hrest]; subst.
    unfold csv_rows. cbn [map undo_loop fst snd]. fold (csv_rows log).
    rewrite (undo_row_reversible st o n Hr). simpl in Hnd.
    destruct Hr as [Habs Hnabs Ho Hn [c Hc] Hnodir Hpar Hpd]. simpl in *.
    unfold moved. rewrite Hc.
    set (st1 := FS.Make (<[o := c]> (delete n (FS.files st))) (FS.dirs st) (FS.cwd st)).
    apply NoDup_cons in Hnd as [Ho_fresh Hnd].
    assert (Hn_fresh : (n ∉ map fst log ++ map snd log) ∧ o ≠ n
                       ∧ NoDup (map fst log ++ map snd log)).
    { rewrite elem_of_app in Ho_fresh. rewrite elem_of_cons in Ho_fresh.
      apply NoDup_app in Hnd as (Hf & Hdisj & Hs).
      apply NoDup_cons in Hs as [Hns Hs]. repeat split.
      - rewrite elem_of_app. intros [Hin|Hin]; [|done].
        apply (Hdisj n Hin). left.
      - intros ->. tauto.
      - apply NoDup_app. repeat split; [done| |done].
        intros x Hx Hx'. apply (Hdisj x Hx). by right. }
    destruct Hn_fresh as (Hn_fresh & Hon & Hnd').
    rewrite elem_of_app in Hn_fresh.
    assert (Ho_fresh' : (o ∉ map fst log) ∧ (o ∉ map snd log)).
    { rewrite elem_of_app, elem_of_cons in Ho_fresh. tauto. }
    destruct (IH st1 (rows_out ++ [(n, o)]) Hnd') as (st' & Hrun & Hd & Hw & Hlog & Hother).
    { apply Forall_forall. intros [o' n'] Hin. rewrite Forall_forall in Hrest.
      destruct (Hrest _ Hin) as [A1 A2 A3 A4 [c' A5] A6 A7 A8]. simpl in *.
      assert (n' ≠ n ∧ n' ≠ o) as [Hn1 Hn2].
      { split; intros ->.
        - apply Hn_fresh. right. apply list_elem_of_In, in_map_iff.
          exists (o', n). split; [done|]. by apply list_elem_of_In.
        - apply (proj2 Ho_fresh'). apply list_elem_of_In, in_map_iff.
          exists (o', o). split; [done|]. by apply list_elem_of_In. }
      constructor; simpl; try done.
      rewrite lookup_insert_ne by done. rewrite lookup_delete_ne by done. eauto. }
    exists st'. rewrite Hrun, <- app_assoc. simpl. split; [done|].
    split; [by rewrite Hd|]. split; [by rewrite Hw|]. split.
    + intros r Hr. apply elem_of_cons in Hr as [->|Hr]; simpl.
      * rewrite !Hother by tauto. simpl. rewrite lookup_insert_eq.
        rewrite lookup_insert_ne by done. rewrite lookup_delete_eq. by rewrite Hc.
      * destruct (Hlog r Hr) as [E1 E2]. rewrite E1, E2. split; [|done]. simpl.
        assert (r.2 ≠ n ∧ r.2 ≠ o) as [Hn1 Hn2].
        { split; intros E.
          - apply Hn_fresh. right. rewrite <- E.
            apply list_elem_of_In, in_map. by apply list_elem_of_In.
          - apply (proj2 Ho_fresh'). rewrite <- E.
            apply list_elem_of_In, in_map. by apply list_elem_of_In. }
        rewrite lookup_insert_ne by done. by rewrite lookup_delete_ne by done.
    + intros p Hp1 Hp2. rewrite not_elem_of_cons in Hp1, Hp2.
      rewrite Hother by tauto. simpl.
      rewrite lookup_insert_ne by (intros E; by apply (proj1 Hp1)).
      by rewrite lookup_delete_ne by (intros E; by apply (proj1 Hp2)).
Qed.

Lemma undo_task_separated (log : list log_row) (st : FS.t) :
  NoDup (map fst log ++ map snd log) →
  Forall (reversible st) log →
  ∃ st',
    _undo_task st (csv_rows log) = (st', Ok (map (fun r => (r.2, r.1)) log))
    ∧ ∀ r, r ∈ log → FS.files st' !! r.1 = FS.files st !! r.2
                     ∧ FS.files st' !! r.2 = None.
Proof.
  intros Hnd Hall.
  destruct (undo_loop_separated log st [] Hnd Hall) as (st' & Hrun & _ & _ & Hlog & _).
  exists st'. split; [exact Hrun|exact Hlog].
Qed.

(** ** The ranges of the parser *)

Lemma iter_rel_impl n (R R' : mstate → mstate → Prop) s s' :
  (∀ a b, R a b → R' a b) → iter_rel n R s s' → iter_rel n R' s s'.
Proof.
  intros HR. revert s. induction n as [|n IH]; simpl; intros s; [done|].
  intros (m & Hm & Hit). eauto.
Qed.

Lemma den_counted_den r : ∀ s s', den_counted r s s' → den r s s'.
Proof.
  induction r as [p| |a IHa b IHb|a IHa b IHb|g lo hi a IHa|i a IHa|];
    intros s s'; simpl; try done.
  - intros (m & Ha & Hb). eauto.
  - intros [?|?]; eauto.
  - intros (n & Hn & _ & Hit). exists n. split; [done|].
    by eapply iter_rel_impl.
  - intros (m & Ha & ->). eauto.
Qed.

(** A counted repetition runs its body between [lo] and [hi] times. *)
Lemma run_counted r : ∀ k st fin,
  run r k st = Some fin → ∃ st', den_counted r st st' ∧ k st' = Some fin.
Proof.
  induction r as [p| |a IHa b IHb|a IHa b IHb|g lo hi a IHa|i a IHa|];
    intros k st fin Hrun; simpl in Hrun.
  - destruct (rest st) as [|c t] eqn:Hr; [done|].
    destruct (p c) eqn:Hp; [|done].
    eexists. split; [|exact Hrun]. simpl. exists c. done.
  - exists st. done.
  - apply IHa in Hrun as (m & Ha & Hrun). apply IHb in Hrun as (s' & Hb & Hk).
    exists s'. split; [|done]. simpl. eauto.
  - apply orelse_Some in Hrun as [Hrun|Hrun].
    + apply IHa in Hrun as (s' & ? & ?). exists s'. simpl. eauto.
    + apply IHb in Hrun as (s' & ? & ?). exists s'. simpl. eauto.
  - set (extra := match hi with Some h => (h - lo)%nat | None => length (rest st) end) in Hrun.
    assert (Hextra : ∀ h, hi = Some h → (lo + extra ≤ Nat.max lo h)%nat).
    { intros h ->. unfold extra. lia. }
    clearbody extra.
    set (opt := fix optional (e : nat) : mstate → option mstate :=
              fun st' => match e with
                | O => k st'
                | S e' => if g then orelse (run a (optional e') st') (k st')
                          else orelse (k st') (run a (optional e') st')
                end) in Hrun.
    assert (Hopt : ∀ e s, opt e s = Some fin →
                   ∃ n s', (n ≤ e)%nat ∧ iter_rel n (den_counted a) s s'
                           ∧ k s' = Some fin).
    { induction e as [|e IHe]; intros s Hs; simpl in Hs.
      - exists 0%nat, s. done.
      - assert (run a (opt e) s = Some fin ∨ k s = Some fin) as [Hs'|Hs'].
        { destruct g; apply orelse_Some in Hs; tauto. }
        + apply IHa in Hs' as (m & Hm & Hs').
          apply IHe in Hs' as (n & s' & Hn & Hit & Hk).
          exists (S n), s'. split; [lia|]. split; [|done]. simpl. eauto.
        + exists 0%nat, s. split; [lia|done]. }
    assert (Hgoal : ∃ s' n, (lo ≤ n ≤ lo + extra)%nat
                            ∧ iter_rel n (den_counted a) st s' ∧ k s' = Some fin).
    { clear Hextra. revert st Hrun. induction lo as [|lo IHlo]; intros st Hrun.
      - apply Hopt in Hrun as (n & s' & Hn & Hit & Hk). exists s', n.
        split; [lia|done].
      - apply IHa in Hrun as (m & Hm & Hrun).
        apply IHlo in Hrun as (s' & n & Hn & Hit & Hk).
        exists s', (S n). split; [lia|]. split; [|done]. simpl. eauto. }
    destruct Hgoal as (s' & n & Hn & Hit & Hk). exists s'. split; [|done].
    simpl. exists n. split; [lia|]. split; [|done].
    intros h Hh. specialize (Hextra h Hh). lia.
  - apply IHa in Hrun as (m & Hm & Hk). eexists. split; [|exact Hk]. simpl. eauto.
  - destruct (xorb _ _); [|done]. exists st. done.
Qed.

Lemma den_counted_within bound r : ∀ s s',
  groups_within bound r → caps_within bound (caps s) → den_counted r s s' →
  caps_within bound (caps s').
Proof.
  induction r as [p| |a IHa b IHb|a IHa b IHb|g lo hi a IHa|i a IHa|];
    intros s s' Hg Hc; simpl.
  - intros (c & _ & _ & _ & _ & ->). done.
  - by intros ->.
  - destruct Hg as [Hga Hgb]. intros (m & Ha & Hb). eauto.
  - destruct Hg. intros [?|?]; eauto.
  - intros (n & _ & _ & Hit). simpl in Hg.
    eapply (iter_rel_inv (fun x => caps_within bound (caps x))) in Hit; [done| |done].
    intros x y ? ?. eauto.
  - intros (m & Ha & ->). simpl.
    destruct a as [| | | |g lo [hi|] [p| | | | | |]| |]; try done.
    simpl in Hg. destruct Ha as (n & Hn & Hhi & Hit).
    apply (iter_rel_impl _ _ (den (Cls p))) in Hit; [|apply (den_counted_den (Cls p))].
    apply iter_cls in Hit as (cs & Hl & Hf & Hr & Hcm & Hpos).
    specialize (Hhi hi eq_refl).
    constructor; simpl; [lia|by rewrite Hcm].
  - by intros ->.
Qed.

Lemma slice_length (w : pstr) a b : (length (slice w a b) ≤ b - a)%nat.
Proof. unfold slice. rewrite length_take. lia. Qed.

(** A group that takes part in every match holds decimal digits, no more
    than the pattern allows. *)
Lemma search_at_groups_within bound r w i m g :
  digit_groups r → groups_within bound r → search_at r w i = Some m → g ∈ sure r →
  ∃ t, group w m g = Some t ∧ decimal_text t ∧ (length t ≤ bound g)%nat.
Proof.
  intros Hdg Hgw Hs Hg.
  destruct (search_at_groups r w i m g Hdg Hs Hg) as (t & Ht & Hd).
  exists t. split; [done|]. split; [done|].
  unfold search_at in Hs.
  apply (search_from_run r w) in Hs as (j & b' & fin & Hrun & ->); [|done].
  apply run_counted in Hrun as (st' & Hden & [= ->]).
  pose proof (den_counted_within bound r (MState j b' (drop j w) []) _ Hgw
                (Forall_nil_2 _) Hden) as Hcw.
  unfold group in Ht. simpl in Ht.
  destruct (assoc_nat g (caps fin)) as [[a b]|] eqn:Hab; [|done].
  injection Ht as <-. apply assoc_nat_elem in Hab.
  unfold caps_within in Hcw. rewrite Forall_forall in Hcw.
  specialize (Hcw _ Hab). simpl in Hcw.
  pose proof (slice_length w a b). lia.
Qed.

Lemma int_digits_range s : ∀ pd acc,
  Forall (fun c => PyChar.is_decimal c = true) s → (0 ≤ acc)%Z →
  s ≠ [] ∨ pd = true →
  ∃ z, PyStr.int_digits pd acc s = Some z
       ∧ (acc * 10 ^ Z.of_nat (length s) ≤ z < (acc + 1) * 10 ^ Z.of_nat (length s))%Z.
Proof.
  induction s as [|c t IH]; intros pd acc Hs Hacc Hne.
  - destruct Hne as [?| ->]; [done|]. simpl. exists acc. split; [done|lia].
  - inversion Hs as [|? ? Hc Ht]; subst. cbn [PyStr.int_digits]. rewrite Hc.
    assert (Hd : (0 ≤ PyChar.decimal_value c ≤ 9)%Z).
    { apply decimal_range in Hc. unfold PyChar.decimal_value. lia. }
    destruct (IH true (10 * acc + PyChar.decimal_value c)%Z Ht) as (z & Hz & Hr);
      [lia|by right|].
    exists z. split; [done|]. cbn [length]. rewrite Nat2Z.inj_succ, Z.pow_succ_r by lia.
    assert (0 < 10 ^ Z.of_nat (length t))%Z by (apply Z.pow_pos_nonneg; lia).
    nia.
Qed.

(** [int] of at most [n] decimal digits is below [10 ^ n]. *)
Lemma int_decimal_range g n :
  decimal_text g → (length g ≤ n)%nat →
  ∃ z, PyStr.int g = Ok z ∧ (0 ≤ z < 10 ^ Z.of_nat n)%Z.
Proof.
  intros [Hne Hd] Hn. unfold PyStr.int. rewrite strip_ws_id.
  2:{ eapply Forall_impl; [exact Hd|]. apply decimal_not_space. }
  destruct g as [|c t]; [done|].
  assert (Hc : 48 ≤ c ≤ 57) by (apply decimal_range; by inversion Hd).
  destruct (N.eqb_spec c 45); [lia|]. destruct (N.eqb_spec c 43); [lia|].
  destruct (int_digits_range (c :: t) false 0%Z Hd) as (z & -> & Hz); [lia|by left|].
  exists z. split; [done|].
  assert (10 ^ Z.of_nat (length (c :: t)) ≤ 10 ^ Z.of_nat n)%Z
    by (apply Z.pow_le_mono_r; lia).
  lia.
Qed.

Lemma int_group_within bound r w i m g :
  digit_groups r → groups_within bound r → search_at r w i = Some m → g ∈ sure r →
  ∃ z, int_group w m g = Ok z ∧ (0 ≤ z < 10 ^ Z.of_nat (bound g))%Z.
Proof.
  intros Hdg Hgw Hs Hg.
  destruct (search_at_groups_within bound r w i m g Hdg Hgw Hs Hg) as (t & Ht & Hd & Hl).
  unfold int_group. rewrite Ht. by apply int_decimal_range.
Qed.

Lemma findall1_head_within bound r w num more :
  digit_groups r → groups_within bound r → 1%nat ∈ sure r →
  findall1 r w = num :: more → decimal_text num ∧ (length num ≤ bound 1%nat)%nat.
Proof.
  intros Hdg Hgw Hs. unfold findall1, finditer. simpl.
  destruct (length w <? 0)%nat eqn:E; [done|].
  destruct (search_at r w 0) as [m|] eqn:Hm; [|done].
  simpl. intros [= <- _].
  destruct (search_at_groups_within bound r w 0 m 1%nat Hdg Hgw Hm Hs)
    as (t & -> & Hd & Hl). done.
Qed.

Lemma collect_title_tokens_nonempty tokens :
  Forall (fun tok => tok ≠ []) (collect_title_tokens tokens).
Proof.
  induction tokens as [|tok more IH]; simpl; [constructor|].
  case_bool_decide as Hne; [done|].
  repeat (match goal with |- context [if ?b then _ else _] => destruct b end;
          try done; try constructor); done.
Qed.

Lemma extract_after_pos_nonempty s pos : _extract_after_pos s pos ≠ Some [].
Proof.
  unfold _extract_after_pos. destruct (PyStr.strip _ _) as [|c rem]; [done|].
  pose proof (collect_title_tokens_nonempty (split [] Pat.separators (c :: rem))) as Hne.
  destruct (collect_title_tokens _) as [|tok toks]; [done|].
  inversion Hne as [|? ? Htok _]; subst. destruct tok; [done|]. done.
Qed.

Ltac bounds_facts :=
  repeat match goal with
         | |- digit_groups _ => cbn; repeat split; auto
         | |- groups_within _ _ => cbn; repeat split; lia
         | |- _ ∈ sure _ => compute_done
         end.

(** The longest text of each group of a pattern of the parser. *)
Ltac group_bound r :=
  lazymatch r with
  | Pat.zh_ep => constr:(fun _ : nat => 3%nat)
  | Pat.episode_word => constr:(fun _ : nat => 3%nat)
  | _ => constr:(season_then_episode)
  end.

Lemma parse_name_in_range name :
  ∃ info, parse_name name = Ok info ∧ parsed_in_range info.
Proof.
  unfold parse_name.
  repeat match goal with
  | |- context [match search ?r name with _ => _ end] =>
    let m := fresh "m" in let Hm := fresh "Hm" in
    destruct (search r name) as [m|] eqn:Hm
  | Hm : search ?r name = Some ?m |- context [int_group name ?m ?g] =>
    let z := fresh "z" in let Hz := fresh "Hz" in let Hr := fresh "Hr" in
    let bound := group_bound r in
    destruct (int_group_within bound r name 0 m g) as (z & Hz & Hr);
    [bounds_facts | bounds_facts | exact Hm | bounds_facts
    | rewrite Hz; cbn [mbind result_bind rbind]]
  end.
  all: cbn [season_then_episode Nat.eqb] in *.
  all: change (10 ^ Z.of_nat 3)%Z with 1000%Z in *;
       change (10 ^ Z.of_nat 2)%Z with 100%Z in *.
  all: try (eexists; split; [reflexivity|]; unfold parsed_in_range; cbn [fst snd];
            split; [intros ? ?; simplify_eq; lia|];
            split; [intros ? ?; simplify_eq; lia|];
            split; [by intros ?|];
            solve [apply extract_after_pos_nonempty | done]).
  destruct (findall1 Pat.standalone_number name) as [|num more] eqn:Hf.
  { eexists; split; [reflexivity|]. unfold parsed_in_range; cbn [fst snd].
    split; [done|]. split; [done|]. split; done. }
  apply (findall1_head_within (fun _ => 3%nat)) in Hf as [Hd Hl];
    [|bounds_facts..].
  destruct (int_decimal_range num 3 Hd Hl) as (z & -> & Hz).
  change (10 ^ Z.of_nat 3)%Z with 1000%Z in Hz.
  cbn [mbind result_bind rbind].
  eexists; split; [reflexivity|]. unfold parsed_in_range; cbn [fst snd].
  split; [done|]. split; [intros ? ?; simplify_eq; lia|]. split; [done|].
  destruct (search (Pat.this_number num) name); [apply extract_after_pos_nonempty|done].
Qed.


(** ** The numbering branches *)


Lemma number_season_spec cfg (sv : option Z) (l : list numbered) parsed :
  Forall well_parsed parsed →
  (∀ y, y ∈ l → ∃ i x, x ∈ parsed ∧ (y = number_trust cfg sv i x
                                     ∨ y = number_fallback cfg sv i x)) →
  ∀ y, y ∈ l →
    ∃ info, parse_episode_info (n_path y) = Ok info
            ∧ n_season y = match sv with
                           | Some v => v
                           | None => default 1%Z info.1.1
                           end.
Proof.
  intros Hw Hl y Hy. destruct (Hl y Hy) as (i & x & Hx & Hyx).
  rewrite Forall_forall in Hw. specialize (Hw x Hx).
  unfold well_parsed, parse_file in Hw.
  destruct (parse_episode_info (p_path x)) as [info|] eqn:Hinfo; cbn in Hw; [|done].
  injection Hw as Hw. exists info.
  assert (n_path y = p_path x) as -> by (by destruct Hyx as [-> | ->]).
  split; [done|]. rewrite <- Hw in Hyx. cbn in Hyx.
  destruct Hyx as [-> | ->]; cbn; destruct sv, (info.1.1); done.
Qed.


(** ** Paths and the directory of a target *)

Lemma rfind_go_absent c p : ∀ i found,
  c ∉ p → OsPath.rfind_go c p i found = found.
Proof.
  induction p as [|x t IH]; intros i found Hc; simpl; [done|].
  apply not_elem_of_cons in Hc as [Hx Ht].
  destruct (N.eqb_spec x c); [congruence|]. by apply IH.
Qed.

Lemma rfind_go_last c a b : ∀ i found,
  c ∉ b → OsPath.rfind_go c (a ++ c :: b) i found = (i + Z.of_nat (length a))%Z.
Proof.
  induction a as [|x a IH]; intros i found Hc; simpl.
  - rewrite N.eqb_refl. rewrite rfind_go_absent by done. lia.
  - rewrite IH by done. lia.
Qed.

(** A path is free of slashes, or splits at its last slash. *)
Lemma last_slash (p : pstr) :
  OsPath.slash ∉ p ∨ ∃ a b, p = a ++ OsPath.slash :: b ∧ OsPath.slash ∉ b.
Proof.
  induction p as [|x t IH]; [left; apply not_elem_of_nil|].
  destruct IH as [Ht|(a & b & -> & Hb)].
  - destruct (decide (x = OsPath.slash)) as [->|Hx].
    + right. exists [], t. done.
    + left. by apply not_elem_of_cons.
  - right. exists (x :: a), b. done.
Qed.

Lemma rfind_last a b :
  OsPath.slash ∉ b →
  OsPath.upto (OsPath.rfind OsPath.slash (a ++ OsPath.slash :: b) + 1)
              (a ++ OsPath.slash :: b) = a ++ [OsPath.slash]
  ∧ OsPath.from (OsPath.rfind OsPath.slash (a ++ OsPath.slash :: b) + 1)
                (a ++ OsPath.slash :: b) = b.
Proof.
  intros Hb. unfold OsPath.rfind, OsPath.upto, OsPath.from.
  rewrite rfind_go_last by done.
  replace (Z.to_nat (0 + Z.of_nat (length a) + 1)) with (length (a ++ [OsPath.slash]))
    by (rewrite length_app; simpl; lia).
  replace (a ++ OsPath.slash :: b) with ((a ++ [OsPath.slash]) ++ b)
    by (by rewrite <- app_assoc).
  by rewrite take_app_length, drop_app_length.
Qed.

Lemma rfind_absent p :
  OsPath.slash ∉ p →
  OsPath.upto (OsPath.rfind OsPath.slash p + 1) p = []
  ∧ OsPath.from (OsPath.rfind OsPath.slash p + 1) p = p.
Proof.
  intros Hp. unfold OsPath.rfind, OsPath.upto, OsPath.from.
  rewrite rfind_go_absent by done. done.
Qed.

Lemma basename_no_slash p : OsPath.slash ∉ OsPath.basename p.
Proof.
  unfold OsPath.basename.
  destruct (last_slash p) as [Hp|(a & b & -> & Hb)].
  - by rewrite (proj2 (rfind_absent p Hp)).
  - by rewrite (proj2 (rfind_last a b Hb)).
Qed.

Lemma lstrip_slash_shape s :
  PyStr.lstrip [OsPath.slash] s = []
  ∧ forallb (N.eqb OsPath.slash) s = true
  ∨ ∃ c t, PyStr.lstrip [OsPath.slash] s = c :: t ∧ c ≠ OsPath.slash.
Proof.
  induction s as [|x s IH]; [by left|].
  cbn [PyStr.lstrip forallb]. unfold mem_char. cbn [existsb]. rewrite orb_false_r.
  destruct (N.eqb_spec x OsPath.slash) as [->|Hx].
  - destruct IH as [[-> Hall]|(c & t & -> & Hc)]; [left|right; eauto].
    split; [done|]. by rewrite N.eqb_refl.
  - right. eauto.
Qed.

Lemma all_slashes_rev s : forallb (N.eqb OsPath.slash) (rev s) = OsPath.all_slashes s.
Proof.
  unfold OsPath.all_slashes. apply eq_true_iff_eq.
  rewrite !forallb_forall. split; intros H x Hx; apply H;
    [by apply in_rev in Hx|by apply in_rev].
Qed.

Lemma dirname_shape p : dir_shape (OsPath.dirname p).
Proof.
  unfold OsPath.dirname.
  set (head := OsPath.upto _ p). clearbody head.
  case_bool_decide as Hh; [left; by rewrite Hh|]. cbn [negb andb].
  destruct (OsPath.all_slashes head) eqn:Ha; cbn [negb].
  - right; left. done.
  - right; right. unfold PyStr.rstrip.
    destruct (lstrip_slash_shape (rev head)) as [[_ Hall]|(c & t & -> & Hc)].
    + rewrite all_slashes_rev in Hall. congruence.
    + exists (rev t), c. simpl. done.
Qed.

Lemma startswith_slash_no_slash n :
  OsPath.slash ∉ n → PyStr.startswith [OsPath.slash] n = false.
Proof.
  destruct n as [|c t]; [done|]. intros [Hc _]%not_elem_of_cons.
  cbn [PyStr.startswith]. rewrite andb_true_r. apply N.eqb_neq. congruence.
Qed.

(** Joining a name without slashes to a directory name and taking the
    directory again gives the directory name back. *)
Lemma dirname_join d n :
  dir_shape d → OsPath.slash ∉ n → OsPath.dirname (OsPath.join d n) = d.
Proof.
  intros Hd Hn. unfold OsPath.join. rewrite startswith_slash_no_slash by done.
  destruct Hd as [->|[[Hne Hall]|(d' & c & -> & Hc)]].
  - simpl. unfold OsPath.dirname. by rewrite (proj1 (rfind_absent n Hn)).
  - rewrite bool_decide_eq_false_2 by done. cbn [orb].
    destruct (rev d) as [|x d'] eqn:Hrev.
    { apply (f_equal (@rev N)) in Hrev. rewrite rev_involutive in Hrev. done. }
    assert (Hx : x = OsPath.slash ∧ OsPath.all_slashes (rev d') = true).
    { rewrite <- all_slashes_rev, Hrev in Hall. cbn [forallb] in Hall.
      apply andb_true_iff in Hall as [<-%N.eqb_eq Hall]. split; [done|].
      by rewrite <- all_slashes_rev, rev_involutive. }
    destruct Hx as [-> Hall'].
    assert (Hdd : d = rev d' ++ [OsPath.slash]).
    { rewrite <- (rev_involutive d), Hrev. done. }
    unfold PyStr.endswith. rewrite Hrev. cbn [rev app PyStr.startswith].
    rewrite N.eqb_refl. cbn [andb]. rewrite Hdd, <- app_assoc. cbn [app].
    unfold OsPath.dirname. rewrite (proj1 (rfind_last (rev d') n Hn)).
    rewrite <- Hdd, Hall. rewrite andb_false_r. done.
  - rewrite bool_decide_eq_false_2 by (by destruct d').
    unfold PyStr.endswith. rewrite rev_app_distr. cbn [rev app PyStr.startswith].
    replace (OsPath.slash =? c) with false by (symmetry; apply N.eqb_neq; congruence).
    cbn [andb orb].
    unfold OsPath.dirname. rewrite (proj1 (rfind_last (d' ++ [c]) n Hn)).
    rewrite bool_decide_eq_false_2 by (by destruct d').
    assert (Hns : OsPath.all_slashes ((d' ++ [c]) ++ [OsPath.slash]) = false).
    { unfold OsPath.all_slashes. rewrite !forallb_app. cbn [forallb].
      replace (OsPath.slash =? c) with false by (symmetry; apply N.eqb_neq; congruence).
      cbn [andb]. by rewrite andb_false_r. }
    rewrite Hns. cbn [negb andb]. unfold PyStr.rstrip.
    rewrite !rev_app_distr. cbn [rev app PyStr.lstrip]. unfold mem_char. cbn [existsb].
    rewrite N.eqb_refl. cbn [orb].
    replace (c =? OsPath.slash) with false by (symmetry; apply N.eqb_neq; congruence).
    cbn [orb]. simpl. by rewrite rev_involutive.
Qed.

Section PreviewDirectory.
Context {fmt : StrFormat}.
Variable cfg : settings.

Lemma render_fields x e :
  render cfg x = Ok e →
  oldabs e = n_path x
  ∧ oldname e = OsPath.basename (n_path x)
  ∧ newabs e = OsPath.join (OsPath.dirname (n_path x)) (newname e)
  ∧ (OsPath.slash ∉ newname e).
Proof.
  unfold render. destruct (format_template _ _ _ _ _ _); cbn; [|done].
  intros [= <-]. cbn. repeat split. apply basename_no_slash.
Qed.


End PreviewDirectory.

(** ** Padding *)

Lemma startswith_take (s : pstr) n : PyStr.startswith (take n s) s = true.
Proof.
  revert n. induction s as [|c t IH]; intros [|n]; simpl; try done.
  by rewrite N.eqb_refl, IH.
Qed.

Lemma first_occurrence_exists old : ∀ a s,
  PyStr.startswith old (drop a s) = true →
  ∃ i, (i ≤ a)%nat ∧ first_occurrence old s i.
Proof.
  induction a as [|a IH]; intros s Ha.
  - exists 0%nat. split; [lia|]. split; [done|]. intros j Hj. lia.
  - destruct (PyStr.startswith old s) eqn:E.
    + exists 0%nat. split; [lia|]. split; [done|]. intros j Hj. lia.
    + destruct s as [|c t].
      { simpl in Ha. congruence. }
      simpl in Ha. destruct (IH t Ha) as (i & Hi & Hocc & Hfirst).
      exists (S i). split; [lia|]. split; [done|].
      intros [|j] Hj; [done|]. simpl. apply Hfirst. lia.
Qed.

(** [s.replace(old, new, 1)] rewrites the first occurrence of [old]. *)
Lemma replace_from_first old new : ∀ i fuel s,
  old ≠ [] → (length s < fuel)%nat → first_occurrence old s i →
  PyStr.replace_from fuel old new (Some 1%nat) s
  = take i s ++ new ++ drop (i + length old) s.
Proof.
  induction i as [|i IH]; intros fuel s Hold Hfuel [Hocc Hfirst].
  - destruct fuel as [|fuel]; [lia|]. cbn [PyStr.replace_from].
    change (drop 0 s) with s in Hocc. rewrite Hocc.
    destruct fuel; done.
  - destruct fuel as [|fuel]; [lia|].
    assert (H0 : PyStr.startswith old s = false) by (apply (Hfirst 0%nat); lia).
    cbn [PyStr.replace_from]. rewrite H0.
    destruct s as [|c t].
    { simpl in Hocc. destruct old; [done|]. simpl in Hocc. done. }
    simpl. f_equal. apply IH; [done|simpl in Hfuel; lia|].
    split; [done|]. intros j Hj. apply (Hfirst (S j)). lia.
Qed.

Lemma zfill_decimal width num :
  decimal_text num →
  PyStr.zfill width num = repeat 48 (width - length num) ++ num.
Proof.
  intros [Hne Hd]. unfold PyStr.zfill. destruct num as [|c t]; [done|].
  inversion Hd as [|? ? Hc _]; subst. apply decimal_range in Hc.
  unfold mem_char. simpl.
  destruct (N.eqb_spec c 43); [lia|]. destruct (N.eqb_spec c 45); [lia|]. done.
Qed.

Lemma drop_startswith (old s : pstr) :
  PyStr.startswith old s = true → s = old ++ drop (length old) s.
Proof.
  revert s. induction old as [|a old IH]; intros [|c t]; simpl; try done.
  intros [->%N.eqb_eq H]%andb_true_iff. f_equal. by apply IH.
Qed.


(** ** Conflict tags *)


(** ** The natural order *)

Lemma ltb_le_trans a : ∀ b c,
  PyStr.ltb b a = false → PyStr.ltb c b = false → PyStr.ltb c a = false.
Proof.
  induction a as [|x a IH]; intros [|y b] [|z c]; simpl; try done.
  destruct (N.eqb_spec y x) as [Hyx|Hyx], (N.eqb_spec z y) as [Hzy|Hzy]; subst.
  - rewrite N.eqb_refl. apply IH.
  - destruct (N.eqb_spec z x); [done|]. intros _ H. exact H.
  - destruct (N.eqb_spec y x); [done|]. intros H _. exact H.
  - rewrite !N.ltb_ge. intros H1 H2.
    destruct (N.eqb_spec z x); [lia|]. apply N.ltb_ge. lia.
Qed.

Lemma ltb_antisym a : ∀ b,
  PyStr.ltb a b = false → PyStr.ltb b a = false → a = b.
Proof.
  induction a as [|x a IH]; intros [|y b]; simpl; try done.
  rewrite (N.eqb_sym y x).
  destruct (N.eqb_spec x y) as [->|Hxy].
  - intros H1 H2. f_equal. by apply IH.
  - rewrite !N.ltb_ge. lia.
Qed.

Lemma ltb_asym a : ∀ b, PyStr.ltb a b = true → PyStr.ltb b a = false.
Proof.
  induction a as [|x a IH]; intros [|y b]; simpl; try done.
  rewrite (N.eqb_sym y x).
  destruct (N.eqb_spec x y) as [->|Hxy]; [apply IH|].
  rewrite N.ltb_lt, N.ltb_ge. lia.
Qed.

Lemma key_elem_eqb_eq x y : key_elem_eqb x y = true ↔ x = y.
Proof.
  destruct x, y; simpl; try (split; [done|congruence]).
  - rewrite Z.eqb_eq. split; congruence.
  - rewrite bool_decide_eq_true. split; congruence.
Qed.

(** On keys of one shape, "not greater" is transitive. *)
Lemma key_lt_le_trans a : ∀ b c p,
  alternating p a → alternating p b → alternating p c →
  key_lt b a = Ok false → key_lt c b = Ok false → key_lt c a = Ok false.
Proof.
  induction a as [|x a IH]; intros [|y b] [|z c] p Ha Hb Hc; simpl; try done.
  destruct Ha as [Hx Ha], Hb as [Hy Hb], Hc as [Hz Hc].
  destruct (key_elem_eqb y x) eqn:Eyx.
  - apply key_elem_eqb_eq in Eyx as ->.
    destruct (key_elem_eqb z x) eqn:Ezx; [|done].
    intros H1 H2. exact (IH b c (negb p) Ha Hb Hc H1 H2).
  - destruct (key_elem_eqb z y) eqn:Ezy.
    + apply key_elem_eqb_eq in Ezy as ->. rewrite Eyx. done.
    + destruct x as [x|x], y as [y|y], z as [z|z]; simpl in *; try congruence.
      * intros [= H1] [= H2]. apply Z.ltb_ge in H1, H2.
        apply Z.eqb_neq in Eyx, Ezy.
        destruct (Z.eqb_spec z x); [lia|]. f_equal. apply Z.ltb_ge. lia.
      * intros [= H1] [= H2]. apply bool_decide_eq_false in Eyx.
        destruct (decide (z = x)) as [->|Hzx].
        -- destruct Eyx. by apply ltb_antisym.
        -- rewrite bool_decide_eq_false_2 by done. f_equal. by eapply ltb_le_trans.
Qed.

Lemma key_lt_asym a : ∀ b p,
  alternating p a → alternating p b →
  key_lt a b = Ok true → key_lt b a = Ok false.
Proof.
  induction a as [|x a IH]; intros [|y b] p Ha Hb; simpl; try done.
  destruct Ha as [Hx Ha], Hb as [Hy Hb].
  destruct (key_elem_eqb x y) eqn:Exy.
  - apply key_elem_eqb_eq in Exy as ->.
    replace (key_elem_eqb y y) with true by (symmetry; by apply key_elem_eqb_eq).
    intros H1. exact (IH b (negb p) Ha Hb H1).
  - replace (key_elem_eqb y x) with false.
    2:{ symmetry. apply not_true_iff_false. rewrite key_elem_eqb_eq. intros ->.
        apply not_true_iff_false in Exy. apply Exy. by apply key_elem_eqb_eq. }
    destruct x as [x|x], y as [y|y]; simpl in *; try congruence.
    + intros [= H1]. f_equal. apply Z.ltb_lt in H1. apply Z.ltb_ge. lia.
    + intros [= H1]. f_equal. by apply ltb_asym.
Qed.

Section SortedBy.
Context {K A : Type} (lt : K → K → result bool) (P : K → Prop).
Hypothesis lt_asym : ∀ a b, P a → P b → lt a b = Ok true → lt b a = Ok false.
Hypothesis le_trans : ∀ a b c, P a → P b → P c →
  lt b a = Ok false → lt c b = Ok false → lt c a = Ok false.

Lemma insert_sorted_sorted (x : K * A) l : ∀ out,
  P x.1 → Forall (fun y => P y.1) l → StronglySorted (keyed_le lt) l →
  insert_sorted lt x l = Ok out → StronglySorted (keyed_le lt) out.
Proof.
  induction l as [|y t IH]; intros out Hx Hl Hs; simpl.
  - intros [= <-]. repeat constructor.
  - inversion Hl as [|? ? Hy Ht]; subst.
    apply StronglySorted_inv in Hs as [Hst Hyt].
    destruct (lt x.1 y.1) as [[|]|] eqn:E; cbn; [| |done].
    + intros [= <-]. constructor; [by constructor|].
      assert (Hxy : keyed_le lt x y) by (by apply lt_asym).
      constructor; [done|].
      rewrite Forall_forall in Hyt, Ht. apply Forall_forall. intros z Hz.
      unfold keyed_le in *.
      apply (le_trans x.1 y.1 z.1); [done|done|by apply Ht|done|by apply Hyt].
    + destruct (insert_sorted lt x t) as [r|] eqn:Er; cbn; [|done].
      intros [= <-]. constructor; [by eapply IH|].
      apply insert_sorted_Ok in Er.
      apply Forall_forall. intros z Hz.
      rewrite Er in Hz. apply elem_of_cons in Hz as [->|Hz]; [exact E|].
      rewrite Forall_forall in Hyt. by apply Hyt.
Qed.

Lemma sort_keyed_sorted (l : list (K * A)) : ∀ acc out,
  Forall (fun y => P y.1) l → Forall (fun y => P y.1) acc →
  StronglySorted (keyed_le lt) acc →
  sort_keyed lt l acc = Ok out → StronglySorted (keyed_le lt) out.
Proof.
  induction l as [|x t IH]; intros acc out Hl Hacc Hs; simpl.
  - by intros [= <-].
  - inversion Hl as [|? ? Hx Ht]; subst.
    destruct (insert_sorted lt x acc) as [acc'|] eqn:E; cbn; [|done].
    apply IH; [done| |exact (insert_sorted_sorted x acc acc' Hx Hacc Hs E)].
    apply insert_sorted_Ok in E. apply Forall_forall. intros z Hz.
    rewrite E in Hz. apply elem_of_cons in Hz as [->|Hz]; [done|].
    rewrite Forall_forall in Hacc. by apply Hacc.
Qed.

(** A successful [sorted] returns its elements in the order of their
    keys. *)
Lemma sorted_by_sorted (key : A → result K) l out :
  (∀ a k, key a = Ok k → P k) →
  sorted_by lt key l = Ok out →
  StronglySorted (fun a b => ∃ ka kb, key a = Ok ka ∧ key b = Ok kb
                                      ∧ lt kb ka = Ok false) out.
Proof.
  intros HP. unfold sorted_by.
  destruct (rmapM _ l) as [keyed|] eqn:Hk; cbn; [|done].
  destruct (sort_keyed lt keyed []) as [s|] eqn:Hs; cbn; [|done].
  intros [= <-].
  assert (Hkeys : Forall (fun y : K * A => key y.2 = Ok y.1) keyed).
  { apply rmapM_Ok_Forall2 in Hk. clear Hs.
    induction Hk as [|a [k a'] l keyed Ha _ IH]; constructor; [|done].
    destruct (key a) eqn:Eka; cbn in Ha; [|done]. by injection Ha as <- <-. }
  assert (HPk : Forall (fun y : K * A => P y.1) keyed).
  { eapply Forall_impl; [exact Hkeys|]. intros [k a] Hka. by eapply HP. }
  assert (Hs' := Hs). apply sort_keyed_Ok in Hs'. simpl in Hs'.
  apply sort_keyed_sorted in Hs; [|done|constructor|constructor].
  assert (Hkeys' : Forall (fun y : K * A => key y.2 = Ok y.1) s).
  { apply Forall_forall. intros y Hy. rewrite Hs' in Hy.
    rewrite Forall_forall in Hkeys. by apply Hkeys. }
  clear Hs' Hk Hkeys HPk. induction Hs as [|y s Hs IH Hy]; simpl; [constructor|].
  inversion Hkeys' as [|? ? Hky Hks]; subst.
  constructor; [by apply IH|].
  rewrite Forall_forall in Hy, Hks. apply Forall_forall. intros b Hb.
  apply list_elem_of_fmap in Hb as (z & -> & Hz).
  exists y.1, z.1. split; [done|]. split; [by apply Hks|].
  by apply Hy.
Qed.

End SortedBy.

Lemma plain_digits_keyed p :
  plain_digits (OsPath.basename p) = true → keyed_ok p.
Proof.
  intros Hp. apply natural_key_total. apply Forall_forall. intros c Hc.
  unfold plain_digits in Hp. rewrite forallb_forall in Hp.
  specialize (Hp c (proj1 (list_elem_of_In _ _) Hc)).
  destruct (PyChar.isdigit c); [|done]. intros _. exact Hp.
Qed.


(** ** Scanning *)

Lemma scan_file_spec root acc f :
  scan_inv acc →
  scan_inv (scan_file root acc f)
  ∧ ∀ p, p ∈ (scan_file root acc f).2
         ↔ p ∈ acc.2 ∨ (is_video f = true ∧ p = OsPath.join root f).
Proof.
  intros [Hnd Hseen]. unfold scan_file.
  destruct (is_video f) eqn:Hv.
  2:{ split; [done|]. intros p. split; [auto|]. by intros [?|[? _]]. }
  case_bool_decide as Hin.
  - split; [done|]. intros p. split; [auto|]. intros [?|[_ ->]]; [done|].
    by apply Hseen.
  - split.
    + split; simpl.
      * apply NoDup_app. split; [done|]. split; [|apply NoDup_singleton].
        intros x Hx ->%list_elem_of_singleton. apply Hin. by apply Hseen.
      * intros p. rewrite elem_of_union, elem_of_singleton, elem_of_app,
          list_elem_of_singleton, Hseen. tauto.
    + intros p. simpl. rewrite elem_of_app, list_elem_of_singleton. tauto.
Qed.

Lemma scan_dir_spec root filenames : ∀ acc,
  scan_inv acc →
  scan_inv (foldl (scan_file root) acc filenames)
  ∧ ∀ p, p ∈ (foldl (scan_file root) acc filenames).2
         ↔ p ∈ acc.2 ∨ ∃ f, f ∈ filenames ∧ is_video f = true ∧ p = OsPath.join root f.
Proof.
  induction filenames as [|f fs IH]; intros acc Hinv; simpl.
  - split; [done|]. intros p. split; [auto|]. intros [?|(f & Hf & _)]; [done|].
    by apply elem_of_nil in Hf.
  - destruct (scan_file_spec root acc f Hinv) as [Hinv' Hmem].
    destruct (IH _ Hinv') as [Hinv'' Hmem']. split; [done|].
    intros p. rewrite Hmem', Hmem. split.
    + intros [[?|[Hv ->]]|(g & Hg & Hv & ->)]; [by left|right..].
      * exists f. split; [left|done].
      * exists g. split; [by right|done].
    + intros [?|(g & Hg & Hv & ->)]; [by left; left|].
      apply elem_of_cons in Hg as [->|Hg]; [left; by right|right; eauto].
Qed.

Lemma scan_walk_spec walk : ∀ acc,
  scan_inv acc →
  let out := foldl (fun acc d => foldl (scan_file d.1) acc d.2) acc walk in
  scan_inv out ∧ ∀ p, p ∈ out.2 ↔ p ∈ acc.2 ∨ listed_video walk p.
Proof.
  induction walk as [|[root fs] walk IH]; intros acc Hinv; simpl.
  - split; [done|]. intros p. split; [auto|]. intros [?|(r & fs & f & Hf & _)]; [done|].
    by apply elem_of_nil in Hf.
  - destruct (scan_dir_spec root fs acc Hinv) as [Hinv' Hmem].
    destruct (IH _ Hinv') as [Hinv'' Hmem']. split; [done|].
    intros p. rewrite Hmem', Hmem. unfold listed_video. split.
    + intros [[?|(f & Hf & Hv & ->)]|(r & fs' & f & Hd & Hf & Hv & ->)]; [by left|right..].
      * exists root, fs, f. split; [left|done].
      * exists r, fs', f. split; [by right|done].
    + intros [?|(r & fs' & f & Hd & Hf & Hv & ->)]; [by left; left|].
      apply elem_of_cons in Hd as [[= -> ->]|Hd]; [left; right; eauto|].
      right. exists r, fs', f. done.
Qed.

Lemma scan_collect_spec walk :
  NoDup (scan_collect walk) ∧ ∀ p, p ∈ scan_collect walk ↔ listed_video walk p.
Proof.
  destruct (scan_walk_spec walk (∅, [])) as [[Hnd _] Hmem].
  - split; [apply NoDup_nil_2|]. intros p. simpl. split.
    + by intros ?%elem_of_empty.
    + by intros ?%elem_of_nil.
  - split; [done|]. intros p. rewrite Hmem. simpl. split; [|auto].
    intros [Hp|?]; [by apply elem_of_nil in Hp|done].
Qed.


(** ** What a run does to the files *)

Lemma makedirs_files st d st' :
  FS.makedirs st d = Ok st' → FS.files st' = FS.files st ∧ FS.cwd st' = FS.cwd st.
Proof.
  unfold FS.makedirs. destruct d; [done|].
  destruct (existsb _ _); [done|]. by intros [= <-].
Qed.

(** A successful move takes the content of the source to one resolved
    destination, which is [dst] itself unless [dst] is a directory. *)
Lemma move_files st src dst st' :
  FS.move st src dst = Ok st' →
  ∃ c d, FS.files st !! FS.resolve st src = Some c
         ∧ FS.files st' = <[d := c]> (delete (FS.resolve st src) (FS.files st))
         ∧ FS.cwd st' = FS.cwd st
         ∧ (FS.isdir st dst = false → d = FS.resolve st dst ∧ dst ≠ []).
Proof.
  unfold FS.move. destruct src as [|s0 src]; [done|].
  destruct (FS.files st !! FS.resolve st (s0 :: src)) as [c|] eqn:Hc; [|done].
  destruct (FS.isdir st dst) eqn:Hd.
  - cbn [andb]. destruct (FS.path_exists st _); [done|].
    destruct (OsPath.join _ _) eqn:Hj; [done|]. rewrite <- Hj.
    destruct (_ && _); [|done]. intros [= <-]. eexists c, _. by repeat split.
  - cbn [andb]. destruct dst; [done|]. destruct (_ && _); [|done].
    intros [= <-]. eexists c, _. by repeat split.
Qed.

Lemma contents_move_fresh (m : gmap pstr N) s d c :
  m !! s = Some c → m !! d = None →
  (map_to_list (<[d := c]> (delete s m))).*2 ≡ₚ (map_to_list m).*2.
Proof.
  intros Hs Hd.
  assert (s ≠ d) by congruence.
  rewrite map_to_list_insert by (by rewrite lookup_delete_ne).
  rewrite <- (map_to_list_delete m s c Hs). done.
Qed.

Lemma contents_move (m : gmap pstr N) s d c :
  m !! s = Some c →
  (map_to_list (<[d := c]> (delete s m))).*2 ⊆+ (map_to_list m).*2.
Proof.
  intros Hs. destruct (decide (d = s)) as [->|Hne].
  - rewrite insert_delete_eq, insert_id by done. done.
  - destruct (m !! d) as [c'|] eqn:Hd.
    + rewrite <- (insert_delete_eq (delete s m)).
      rewrite map_to_list_insert by apply lookup_delete_eq.
      rewrite <- (map_to_list_delete m s c Hs).
      rewrite <- (map_to_list_delete (delete s m) d c')
        by (by rewrite lookup_delete_ne).
      simpl. apply submseteq_skip. apply submseteq_cons. done.
    + by rewrite contents_move_fresh.
Qed.

Lemma free_name_free cfg fuel : ∀ st base ext i t t',
  free_name cfg fuel st base ext i t = Some t' → FS.path_exists st t' = false.
Proof.
  induction fuel as [|fuel IH]; intros st base ext i t t'; simpl.
  - destruct (FS.path_exists st t) eqn:E; [done|]. by intros [= <-].
  - destruct (FS.path_exists st t) eqn:E; [apply IH|]. by intros [= <-].
Qed.

(** The target chosen by the conflict loop does not exist. *)
Lemma resolve_conflict_free cfg fuel st target t' :
  resolve_conflict cfg fuel st target = Some t' → FS.path_exists st t' = false.
Proof.
  unfold resolve_conflict. destruct (FS.path_exists st target) eqn:E.
  - destruct (OsPath.splitext target). apply free_name_free.
  - by intros [= <-].
Qed.

(** What one round of the executor's loop does to the files. *)
Lemma execute_entry_files cfg fuel st e st' row :
  execute_entry cfg fuel st e = Some (st', row) →
  FS.cwd st' = FS.cwd st ∧
  match row with
  | None => FS.files st' = FS.files st
  | Some (o, t) =>
    o = oldabs e ∧
    ∃ c, FS.files st !! FS.resolve st o = Some c
         ∧ FS.files st !! FS.resolve st t = None
         ∧ FS.files st' = <[FS.resolve st t := c]>
                            (delete (FS.resolve st o) (FS.files st))
  end.
Proof.
  unfold execute_entry.
  destruct (destination cfg e) as [[target_dir target]|]; [|by intros [= <- <-]].
  destruct (if FS.path_exists st target_dir then Ok st else FS.makedirs st target_dir)
    as [st1|] eqn:Hmk; [|by intros [= <- <-]].
  assert (Hst1 : FS.files st1 = FS.files st ∧ FS.cwd st1 = FS.cwd st).
  { destruct (FS.path_exists st target_dir).
    - by injection Hmk as <-.
    - by apply makedirs_files in Hmk. }
  destruct Hst1 as [Hf Hw].
  assert (Hres : ∀ p, FS.resolve st1 p = FS.resolve st p)
    by (intros p; unfold FS.resolve; by rewrite Hw).
  destruct (resolve_conflict cfg fuel st1 target) as [t'|] eqn:Hrc; [|done].
  apply resolve_conflict_free in Hrc.
  destruct (FS.move st1 (oldabs e) t') as [st2|] eqn:Hmv.
  - intros [= <- <-]. apply move_files in Hmv as (c & d & Hc & Hfiles & Hcwd & Hd).
    unfold FS.path_exists in Hrc. apply orb_false_iff in Hrc as [Hnf Hnd].
    destruct (Hd Hnd) as [-> Hne]. split; [congruence|]. split; [done|].
    exists c. rewrite ?Hres, ?Hf in Hc, Hfiles. rewrite ?Hres in Hfiles.
    split; [done|]. split; [|done].
    unfold FS.isfile in Hnf. rewrite Hres, Hf in Hnf.
    rewrite (bool_decide_eq_false_2 (t' = [])) in Hnf by done. simpl in Hnf.
    apply bool_decide_eq_false in Hnf. by apply eq_None_not_Some.
  - by intros [= <- <-].
Qed.

Lemma execute_loop_files cfg fuel preview_list : ∀ st log0 st' log,
  execute_loop cfg fuel st preview_list log0 = Some (st', log) →
  contents st' ≡ₚ contents st
  ∧ ∃ rows, log = log0 ++ rows
    ∧ rows.*1 ⊆ map oldabs preview_list
    ∧ ∀ p c, FS.files st !! p = Some c →
             p ∉ map (FS.resolve st) rows.*1 →
             FS.files st' !! p = Some c.
Proof.
  induction preview_list as [|e rest IH]; intros st log0 st' log; simpl.
  - intros [= <- <-]. split; [done|]. exists []. rewrite app_nil_r.
    split; [done|]. split; [done|]. auto.
  - destruct (execute_entry cfg fuel st e) as [[st1 row]|] eqn:He; [|done].
    apply execute_entry_files in He as [Hcwd Hrow].
    assert (Hres : ∀ p, FS.resolve st1 p = FS.resolve st p)
      by (intros p; unfold FS.resolve; by rewrite Hcwd).
    destruct row as [[o t]|].
    + destruct Hrow as (-> & c & Hc & Ht & Hfiles).
      intros Hrun. apply IH in Hrun as (Hperm & rows & -> & Hsub & Hkeep).
      split.
      { rewrite Hperm. unfold contents. rewrite Hfiles.
        by apply contents_move_fresh. }
      exists ((oldabs e, t) :: rows). rewrite <- app_assoc. split; [done|].
      split.
      { simpl. intros x Hx. apply elem_of_cons in Hx as [->|Hx]; [left|right; auto]. }
      intros p c' Hp Hnot. simpl in Hnot. apply not_elem_of_cons in Hnot as [Hpo Hnot].
      apply Hkeep.
      * rewrite Hfiles. rewrite lookup_insert_ne by congruence.
        by rewrite lookup_delete_ne by congruence.
      * erewrite map_ext; [exact Hnot|]. intros a. apply Hres.
    + intros Hrun. apply IH in Hrun as (Hperm & rows & -> & Hsub & Hkeep).
      split; [rewrite Hperm; unfold contents; by rewrite Hrow|].
      exists rows. split; [done|]. split; [intros x Hx; right; auto|].
      intros p c' Hp Hnot. apply Hkeep.
      * by rewrite Hrow.
      * erewrite map_ext; [exact Hnot|]. intros a. apply Hres.
Qed.



Lemma undo_row_contents st r st' row :
  undo_row st r = Ok (st', row) → contents st' ⊆+ contents st.
Proof.
  unfold undo_row. destruct r as [|old more]; [by intros [= <- <-]|].
  destruct (undo_source st old (head more)) as [source|]; [|by intros [= <- <-]].
  destruct (if FS.path_exists st _ then Ok st else FS.makedirs st _)
    as [st1|] eqn:Hmk; cbn [mbind result_bind rbind]; [|done].
  assert (Hf : FS.files st1 = FS.files st).
  { destruct (FS.path_exists st _).
    - by injection Hmk as <-.
    - by apply makedirs_files in Hmk as [? _]. }
  destruct (FS.move st1 source _) as [st2|] eqn:Hmv.
  - intros [= <- <-]. apply move_files in Hmv as (c & d & Hc & Hfiles & _).
    unfold contents. rewrite Hfiles, <- Hf. by apply contents_move.
  - intros [= <- <-]. unfold contents. by rewrite Hf.
Qed.

Lemma undo_loop_contents rows : ∀ st rows_out,
  contents (undo_loop st rows rows_out).1 ⊆+ contents st.
Proof.
  induction rows as [|r rest IH]; intros st rows_out; simpl; [done|].
  destruct (undo_row st r) as [[st1 [row|]]|] eqn:Hr; [| |done].
  - etrans; [apply IH|]. by eapply undo_row_contents.
  - etrans; [apply IH|]. by eapply undo_row_contents.
Qed.


(** X12.  A log whose rows can each be reversed and whose paths are
    pairwise distinct is undone completely: the rollback log lists every
    row reversed, every file is back at its old path with its content,
    the new paths are free, and no file at another path is touched. *)
Theorem undo_restores_separated_log (log : list log_row) (st : FS.t) :
  NoDup (map fst log ++ map snd log) →
  Forall (reversible st) log →
  ∃ st',
    _undo_task st (csv_rows log) = (st', Ok (map (fun r => (r.2, r.1)) log))
    ∧ (∀ r, r ∈ log → FS.files st' !! r.1 = FS.files st !! r.2
                      ∧ FS.files st' !! r.2 = None)
    ∧ (∀ p, p ∉ map fst log → p ∉ map snd log →
            FS.files st' !! p = FS.files st !! p).
Proof.
  intros Hnd Hall.
  destruct (undo_loop_separated log st [] Hnd Hall)
    as (st' & Hrun & _ & _ & Hlog & Hother).
  exists st'. split; [exact Hrun|]. split; [exact Hlog|exact Hother].
Qed.

(** ** Drag and drop, the folder list and the configuration *)

Lemma no_braces_cons c p :
  no_braces (c :: p) = true → c ≠ 123 ∧ c ≠ 125 ∧ no_braces p = true.
Proof.
  unfold no_braces, mem_char. cbn [existsb].
  destruct (N.eqb_spec 123 c), (N.eqb_spec 125 c); simpl;
    rewrite ?andb_false_r; done.
Qed.

(** Inside braces everything up to the closing brace is collected. *)
Lemma parse_dnd_inside p : ∀ t res cur,
  no_braces p = true →
  parse_dnd_loop (p ++ 125 :: t) res cur true
  = parse_dnd_loop t (res ++ [cur ++ p]) [] false.
Proof.
  induction p as [|c p IH]; intros t res cur Hp; simpl.
  - by rewrite app_nil_r.
  - apply no_braces_cons in Hp as (H1 & H2 & Hp).
    destruct (N.eqb_spec c 123) as [->|_]; [done|].
    destruct (N.eqb_spec c 125) as [->|_]; [done|].
    rewrite IH by done. by rewrite <- app_assoc.
Qed.

Lemma parse_dnd_braced p t res :
  no_braces p = true →
  parse_dnd_loop (braced p ++ t) res [] false
  = parse_dnd_loop t (res ++ [p]) [] false.
Proof.
  intros Hp. unfold braced. simpl. rewrite <- app_assoc. simpl.
  by rewrite parse_dnd_inside.
Qed.

Lemma parse_dnd_word p : ∀ t res cur,
  no_braces p = true → forallb (fun c => negb (PyChar.isspace c)) p = true →
  parse_dnd_loop (p ++ t) res cur false = parse_dnd_loop t res (cur ++ p) false.
Proof.
  induction p as [|c p IH]; intros t res cur Hp Hs; simpl.
  - by rewrite app_nil_r.
  - apply no_braces_cons in Hp as (H1 & H2 & Hp).
    simpl in Hs. apply andb_true_iff in Hs as [Hc Hs].
    apply negb_true_iff in Hc.
    destruct (N.eqb_spec c 123) as [->|_]; [done|].
    destruct (N.eqb_spec c 125) as [->|_]; [done|].
    rewrite Hc. rewrite IH by done. by rewrite <- app_assoc.
Qed.

Lemma parse_dnd_element e res :
  tk_element_ok e = true →
  parse_dnd_loop (tk_element e) res [] false = res ++ [e.2] ∧
  ∀ t, parse_dnd_loop (tk_element e ++ 32 :: t) res [] false
       = parse_dnd_loop t (res ++ [e.2]) [] false.
Proof.
  destruct e as [[] p]; unfold tk_element_ok, tk_element; cbn [fst snd].
  - intros Hp. split.
    + rewrite <- (app_nil_r (braced p)). by rewrite parse_dnd_braced.
    + intros t. by rewrite parse_dnd_braced.
  - unfold plain_word. rewrite !andb_true_iff. intros [[Hne Hnb] Hsp]. split.
    + rewrite <- (app_nil_r p) at 1. rewrite parse_dnd_word by done.
      simpl. by destruct p.
    + intros t. rewrite parse_dnd_word by done. simpl. by destruct p.
Qed.

Lemma parse_dnd_elements es : ∀ res,
  forallb tk_element_ok es = true →
  parse_dnd_loop (PyStr.join [32] (map tk_element es)) res [] false
  = res ++ map snd es.
Proof.
  induction es as [|e es IH]; intros res Hall.
  - simpl. by rewrite app_nil_r.
  - simpl in Hall. apply andb_true_iff in Hall as [He Hes].
    destruct (parse_dnd_element e res He) as [Hend Hsp].
    destruct es as [|e' es].
    + simpl. by rewrite app_nil_r.
    + change (PyStr.join [32] (map tk_element (e :: e' :: es)))
        with (tk_element e ++ 32 :: PyStr.join [32] (map tk_element (e' :: es))).
      rewrite Hsp, IH by done. by rewrite <- app_assoc.
Qed.

(** X13.  A list of dropped paths, each written in braces (and then free
    of braces itself) or as a bare word without blanks or braces, and
    separated by single spaces, is split back into exactly these paths,
    in order. *)
Theorem parse_dnd_round_trip (es : list (bool * pstr)) :
  forallb tk_element_ok es = true →
  _parse_dnd_paths (PyStr.join [32] (map tk_element es)) = map snd es.
Proof.
  intros Hall. unfold _parse_dnd_paths. by rewrite parse_dnd_elements.
Qed.

Lemma add_folders_spec st paths : ∀ folders,
  NoDup folders →
  ∃ added, add_folders st folders paths = folders ++ added
           ∧ NoDup (folders ++ added)
           ∧ ∀ p, p ∈ added ↔ p ∈ paths ∧ FS.isdir st p = true ∧ p ∉ folders.
Proof.
  unfold add_folders.
  induction paths as [|q paths IH]; intros folders Hnd; simpl.
  - exists []. rewrite app_nil_r. split; [done|]. split; [done|].
    intros p. split; [by intros ?%elem_of_nil|by intros [?%elem_of_nil _]].
  - destruct (FS.isdir st q) eqn:Hd; cbn [andb].
    + case_bool_decide as Hq.
      * destruct (IH (folders ++ [q])) as (added & -> & Hnd' & Hadd).
        { apply NoDup_app. split; [done|]. split; [|apply NoDup_singleton].
          by intros x Hx ->%list_elem_of_singleton. }
        exists (q :: added). rewrite <- app_assoc in *. split; [done|]. split; [done|].
        intros p. rewrite elem_of_cons, Hadd, elem_of_cons, elem_of_app,
          list_elem_of_singleton.
        split.
        -- intros [->|(? & ? & Hnot)]; [by auto|]. split; [by right|]. split; [done|].
           intros ?. apply Hnot. by left.
        -- intros ([->|?] & ? & ?); [by left|].
           destruct (decide (p = q)) as [Hpq|Hpq]; [left; exact Hpq|]. right. tauto.
      * destruct (IH folders Hnd) as (added & -> & Hnd' & Hadd).
        exists added. split; [done|]. split; [done|]. intros p. rewrite Hadd, elem_of_cons.
        split; [tauto|]. intros ([->|?] & ? & ?); [done|tauto].
    + destruct (IH folders Hnd) as (added & -> & Hnd' & Hadd).
      exists added. split; [done|]. split; [done|]. intros p. rewrite Hadd, elem_of_cons.
      split; [tauto|]. intros ([->|?] & ? & ?); [congruence|tauto].
Qed.

(** X14.  A drop keeps the folder list free of duplicates: the folders
    already listed stay in place, and what is appended are exactly the
    dropped paths that are existing directories and were not listed. *)
Theorem on_drop_keeps_folders_distinct st folders data :
  NoDup folders →
  ∃ added, _on_drop st folders data = folders ++ added
           ∧ NoDup (_on_drop st folders data)
           ∧ ∀ p, p ∈ added ↔ p ∈ _parse_dnd_paths data
                              ∧ FS.isdir st p = true ∧ p ∉ folders.
Proof.
  intros Hnd. unfold _on_drop.
  destruct (add_folders_spec st (_parse_dnd_paths data) folders Hnd)
    as (added & Heq & Hnd' & Hadd).
  exists added. rewrite Heq. done.
Qed.

Lemma add_folders_id st l : ∀ folders,
  NoDup (folders ++ l) → Forall (fun p => FS.isdir st p = true) l →
  add_folders st folders l = folders ++ l.
Proof.
  unfold add_folders. induction l as [|q l IH]; intros folders Hnd Hall; simpl.
  - by rewrite app_nil_r.
  - inversion Hall as [|? ? Hq Hl]; subst. rewrite Hq. cbn [andb].
    rewrite bool_decide_eq_true_2.
    + rewrite IH; [by rewrite <- app_assoc| |done]. by rewrite <- app_assoc.
    + apply NoDup_app in Hnd as (_ & Hdisj & _). intros Hin.
      apply (Hdisj q Hin). left.
Qed.


Lemma foldl_setdefault items : ∀ data,
  foldl setdefault data items = data ∪ list_to_map items.
Proof.
  induction items as [|[k v] items IH]; intros data; simpl.
  - by rewrite (right_id_L ∅ (∪)).
  - rewrite IH. unfold setdefault. simpl. apply map_eq. intros i.
    rewrite !lookup_union. destruct (data !! k) eqn:Hk.
    + destruct (decide (i = k)) as [->|Hne].
      * rewrite Hk. by destruct (list_to_map items !! k), (<[k:=v]> (list_to_map items) !! k).
      * by rewrite lookup_insert_ne.
    + destruct (decide (i = k)) as [->|Hne].
      * rewrite !lookup_insert_eq, Hk. simpl.
        by destruct (list_to_map items !! k).
      * by rewrite !lookup_insert_ne.
Qed.

Lemma list_to_map_is_Some (items : list (pstr * json)) k v :
  (k, v) ∈ items → is_Some ((list_to_map items : gmap pstr json) !! k).
Proof.
  induction items as [|[k' v'] items IH]; intros Hin; [by apply elem_of_nil in Hin|].
  simpl. destruct (decide (k = k')) as [->|Hne].
  - rewrite lookup_insert_eq. eauto.
  - rewrite lookup_insert_ne by done. apply IH.
    apply elem_of_cons in Hin as [[= ? ?]|?]; [done|done].
Qed.

(** X16.  The configuration [load_config] returns has every key of
    [DEFAULT_CONFIG].  When the file holds a JSON object, every value of
    the file is kept and each missing key gets its default; in all other
    cases (no file, an unreadable file, a value that is not an object)
    the result is the defaults, which are then written to the file. *)
Theorem load_config_completes_defaults (file : config_file) :
  let cfg := (load_config file).1 in
  (∀ k v, (k, v) ∈ DEFAULT_CONFIG → is_Some (cfg !! k))
  ∧ (∀ data k v, file = Decoded (JDict data) → data !! k = Some v → cfg !! k = Some v)
  ∧ (∀ data k, file = Decoded (JDict data) → data !! k = None →
               cfg !! k = (list_to_map DEFAULT_CONFIG : gmap pstr json) !! k)
  ∧ ((∀ data, file ≠ Decoded (JDict data)) →
     load_config file = (list_to_map DEFAULT_CONFIG, true)).
Proof.
  assert (Hdef : ∀ k v, (k, v) ∈ DEFAULT_CONFIG →
            is_Some ((list_to_map DEFAULT_CONFIG : gmap pstr json) !! k))
    by apply list_to_map_is_Some.
  split; [|split; [|split]].
  - intros k v Hin. specialize (Hdef k v Hin).
    destruct file as [| |[]]; cbn [load_config fst]; try done.
    rewrite foldl_setdefault, lookup_union.
    destruct Hdef as [x ->]. by destruct (d !! k).
  - intros data k v -> Hk. cbn [load_config fst].
    rewrite foldl_setdefault, lookup_union, Hk.
    by destruct (list_to_map DEFAULT_CONFIG !! k).
  - intros data k -> Hk. cbn [load_config fst].
    rewrite foldl_setdefault, lookup_union, Hk.
    by destruct (list_to_map DEFAULT_CONFIG !! k).
  - intros Hno. destruct file as [| |[]]; try done. by destruct (Hno d).
Qed.

(** ** Executing and undoing *)

(** A plain rename is carried out as it stands. *)
Lemma execute_entry_plain cfg fuel st e :
  var_move_season_folder cfg = false →
  plain_rename st e →
  execute_entry cfg fuel st e
  = Some (moved st (oldabs e) (newabs e), Some (oldabs e, newabs e)).
Proof.
  intros Hcfg [Hoabs Hnabs Ho Hn [c Hc] Hfree Hond Hnnd Hop Hopd Hnp Hnpd].
  pose proof (isabs_nonempty _ Hoabs) as Hone.
  pose proof (isabs_nonempty _ Hnabs) as Hnne.
  unfold execute_entry, destination. rewrite Hcfg.
  assert (Hpe : FS.path_exists st (OsPath.dirname (newabs e)) = true)
    by (unfold FS.path_exists; rewrite Hnp; apply orb_true_r).
  rewrite Hpe.
  assert (Hdir : FS.isdir st (newabs e) = false).
  { unfold FS.isdir. rewrite Hn. rewrite (bool_decide_eq_false_2 (newabs e ∈ _)) by done.
    by rewrite andb_false_r. }
  assert (Hex : FS.path_exists st (newabs e) = false).
  { unfold FS.path_exists, FS.isfile. rewrite Hdir, Hn, Hfree.
    rewrite (bool_decide_eq_false_2 (is_Some None)) by (by intros [? ?]).
    by rewrite andb_false_r. }
  unfold resolve_conflict. rewrite Hex.
  unfold FS.move, moved. destruct (oldabs e) as [|o0 o'] eqn:Eo; [done|].
  rewrite Ho, Hc, Hdir. cbn [andb negb].
  destruct (newabs e) as [|n0 n'] eqn:En; [done|]. rewrite Hn, Hdir.
  by rewrite (bool_decide_eq_true_2 _ Hnpd).
Qed.

Lemma execute_loop_separated cfg fuel :
  var_move_season_folder cfg = false →
  ∀ (preview_list : list entry) (st : FS.t) log0,
  NoDup (map oldabs preview_list ++ map newabs preview_list) →
  Forall (plain_rename st) preview_list →
  ∃ st',
    execute_loop cfg fuel st preview_list log0 = Some (st', log0 ++ log_of preview_list)
    ∧ FS.dirs st' = FS.dirs st ∧ FS.cwd st' = FS.cwd st
    ∧ (∀ e, e ∈ preview_list →
            FS.files st' !! newabs e = FS.files st !! oldabs e
            ∧ FS.files st' !! oldabs e = None)
    ∧ (∀ p, p ∉ map oldabs preview_list → p ∉ map newabs preview_list →
            FS.files st' !! p = FS.files st !! p).
Proof.
  intros Hcfg. induction preview_list as [|e pl IH]; intros st log0 Hnd Hall.
  - simpl. exists st. rewrite app_nil_r. split; [done|]. split; [done|]. split; [done|].
    split; [|done]. intros x Hx. by apply elem_of_nil in Hx.
  - inversion Hall as [|? ? Hr Hrest]; subst.
    cbn [execute_loop]. rewrite (execute_entry_plain cfg fuel st e Hcfg Hr).
    simpl in Hnd.
    destruct Hr as [Hoabs Hnabs Ho Hn [c Hc] Hfree Hond Hnnd Hop Hopd Hnp Hnpd].
    unfold moved. rewrite Hc. cbv beta iota.
    set (o := oldabs e) in *. set (n := newabs e) in *.
    set (st1 := FS.Make (<[n := c]> (delete o (FS.files st))) (FS.dirs st) (FS.cwd st)).
    apply NoDup_cons in Hnd as [Ho_fresh Hnd].
    rewrite elem_of_app, elem_of_cons in Ho_fresh.
    apply NoDup_app in Hnd as (Hf & Hdisj & Hs).
    apply NoDup_cons in Hs as [Hns Hs].
    assert (Hon : o ≠ n) by (intros E; tauto).
    assert (Hn_old : n ∉ map oldabs pl) by (intros Hin; apply (Hdisj n Hin); left).
    assert (Ho_old : o ∉ map oldabs pl) by tauto.
    assert (Ho_new : o ∉ map newabs pl) by tauto.
    assert (Hnd' : NoDup (map oldabs pl ++ map newabs pl)).
    { apply NoDup_app. split; [done|]. split; [|done].
      intros x Hx Hx'. apply (Hdisj x Hx). by right. }
    assert (Hsep : ∀ e', e' ∈ pl → oldabs e' ≠ o ∧ oldabs e' ≠ n
                                    ∧ newabs e' ≠ o ∧ newabs e' ≠ n).
    { intros e' He'.
      assert (oldabs e' ∈ map oldabs pl)
        by (apply list_elem_of_In, in_map; by apply list_elem_of_In).
      assert (newabs e' ∈ map newabs pl)
        by (apply list_elem_of_In, in_map; by apply list_elem_of_In).
      repeat split; intros E; rewrite E in *; tauto. }
    destruct (IH st1 (log0 ++ [(o, n)]) Hnd') as (st' & Hrun & Hd & Hw & Hlog & Hother).
    { apply Forall_forall. intros e' He'. rewrite Forall_forall in Hrest.
      destruct (Hrest _ He') as [A1 A2 A3 A4 [c' A5] A6 A7 A8 A9 A10 A11 A12].
      destruct (Hsep e' He') as (B1 & B2 & B3 & B4).
      constructor; simpl; try done.
      - rewrite lookup_insert_ne by done. rewrite lookup_delete_ne by done. eauto.
      - rewrite lookup_insert_ne by done. by rewrite lookup_delete_ne by done. }
    exists st'. split; [rewrite <- app_assoc in Hrun; exact Hrun|].
    split; [by rewrite Hd|]. split; [by rewrite Hw|]. split.
    + intros e' He'. apply elem_of_cons in He' as [->|He'].
      * fold o n. rewrite !Hother by done. simpl. rewrite lookup_insert_eq.
        rewrite lookup_insert_ne by done. rewrite lookup_delete_eq. by rewrite Hc.
      * destruct (Hlog e' He') as [E1 E2]. rewrite E1, E2. split; [|done]. simpl.
        destruct (Hsep e' He') as (B1 & B2 & B3 & B4).
        rewrite lookup_insert_ne by done. by rewrite lookup_delete_ne by done.
    + intros p Hp1 Hp2. simpl in Hp1, Hp2. rewrite not_elem_of_cons in Hp1, Hp2.
      rewrite Hother by tauto. simpl.
      rewrite lookup_insert_ne by (intros E; by apply (proj1 Hp2)).
      by rewrite lookup_delete_ne by (intros E; by apply (proj1 Hp1)).
Qed.


(** ** The end of the conflict loop *)

Lemma digits_of_pos_S fuel n acc :
  PyStr.digits_of_pos (S fuel) n acc
  = if n <? 10 then (48 + n mod 10) :: acc
    else PyStr.digits_of_pos fuel (n / 10) ((48 + n mod 10) :: acc).
Proof. reflexivity. Qed.

Lemma digits_of_pos_spec : ∀ fuel n acc,
  n < 10 ^ N.of_nat (S fuel) →
  ∃ ds, PyStr.digits_of_pos (S fuel) n acc = ds ++ acc
        ∧ ds ≠ []
        ∧ Forall (fun c => PyChar.is_decimal c = true) ds
        ∧ ∀ a, digits_value ds a = a * 10 ^ N.of_nat (length ds) + n.
Proof.
  induction fuel as [|fuel IH]; intros n acc Hn.
  - change (10 ^ N.of_nat 1) with 10 in Hn. simpl.
    destruct (N.ltb_spec n 10) as [_|]; [|lia].
    exists [48 + n mod 10]. split; [done|]. split; [done|]. split.
    + constructor; [|done]. apply decimal_range.
      rewrite N.mod_small by lia. lia.
    + intros a. unfold digits_value. simpl. rewrite N.mod_small by lia. lia.
  - rewrite digits_of_pos_S.
    destruct (N.ltb_spec n 10) as [Hlt|Hge].
    + exists [48 + n mod 10]. split; [done|]. split; [done|]. split.
      * constructor; [|done]. apply decimal_range.
        rewrite N.mod_small by lia. lia.
      * intros a. unfold digits_value. simpl. rewrite N.mod_small by lia. lia.
    + destruct (IH (n / 10) ((48 + n mod 10) :: acc)) as (ds & Hds & Hne & Hdec & Hval).
      { apply N.Div0.div_lt_upper_bound.
        rewrite <- N.pow_succ_r'. by rewrite <- Nat2N.inj_succ. }
      exists (ds ++ [48 + n mod 10]). split; [by rewrite Hds, <- app_assoc|].
      split; [by destruct ds|]. split.
      * apply Forall_app. split; [done|]. constructor; [|done].
        apply decimal_range. pose proof (N.mod_upper_bound n 10 ltac:(lia)) as Hm.
        clear -Hm. generalize dependent (n mod 10). intros; lia.
      * intros a. unfold digits_value in *. rewrite fold_left_app, Hval. simpl.
        rewrite length_app. simpl. rewrite Nat.add_1_r, Nat2N.inj_succ, N.pow_succ_r'.
        pose proof (N.Div0.div_mod n 10) as Hdm.
        generalize dependent (n mod 10). generalize dependent (n / 10).
        generalize (10 ^ N.of_nat (length ds)). intros; nia.
Qed.

Lemma of_N_spec n :
  PyStr.of_N n ≠ []
  ∧ Forall (fun c => PyChar.is_decimal c = true) (PyStr.of_N n)
  ∧ digits_value (PyStr.of_N n) 0 = n.
Proof.
  unfold PyStr.of_N.
  destruct (digits_of_pos_spec (N.to_nat (N.log2 n)) n []) as (ds & Hds & Hne & Hdec & Hval).
  { rewrite Nat2N.inj_succ, N2Nat.id.
    destruct (N.eq_dec n 0) as [->|Hn0]; [done|].
    pose proof (N.log2_spec n ltac:(lia)) as [_ Hlt].
    eapply N.lt_le_trans; [exact Hlt|].
    apply N.pow_le_mono_l. lia. }
  rewrite Hds, app_nil_r. split; [done|]. split; [done|].
  rewrite Hval. lia.
Qed.

(** [str] of a positive integer: decimal digits, and different for
    different integers. *)
Lemma of_Z_positive z :
  (0 < z)%Z →
  PyStr.of_Z z ≠ [] ∧ Forall (fun c => PyChar.is_decimal c = true) (PyStr.of_Z z)
  ∧ digits_value (PyStr.of_Z z) 0 = Z.to_N z.
Proof.
  intros Hz. destruct z as [|p|p]; [lia| |lia]. simpl. apply of_N_spec.
Qed.

Lemma of_Z_inj z z' :
  (0 < z)%Z → (0 < z')%Z → PyStr.of_Z z = PyStr.of_Z z' → z = z'.
Proof.
  intros Hz Hz' E.
  destruct (of_Z_positive z Hz) as (_ & _ & Hv).
  destruct (of_Z_positive z' Hz') as (_ & _ & Hv').
  rewrite E in Hv. lia.
Qed.

(** ** Paths that differ in their last component *)

Lemma split_sep_piece x : ∀ cur,
  OsPath.slash ∉ x → OsPath.split_sep x cur = [rev cur ++ x].
Proof.
  induction x as [|c x IH]; intros cur Hx; simpl.
  - by rewrite app_nil_r.
  - apply not_elem_of_cons in Hx as [Hc Hx].
    destruct (N.eqb_spec c OsPath.slash); [congruence|].
    rewrite IH by done. simpl. by rewrite <- app_assoc.
Qed.

Lemma split_sep_app pre : ∀ cur,
  ∃ comps lastc, ∀ x, OsPath.slash ∉ x →
    OsPath.split_sep (pre ++ x) cur = comps ++ [lastc ++ x].
Proof.
  induction pre as [|c pre IH]; intros cur.
  - exists [], (rev cur). intros x Hx. simpl. by apply split_sep_piece.
  - simpl. destruct (c =? OsPath.slash).
    + destruct (IH []) as (comps & lastc & H). exists (rev cur :: comps), lastc.
      intros x Hx. by rewrite H.
    + destruct (IH (c :: cur)) as (comps & lastc & H). exists comps, lastc.
      intros x Hx. by rewrite H.
Qed.

Lemma norm_comps_app i a : ∀ acc,
  ∃ acc', ∀ b, OsPath.norm_comps i (a ++ b) acc = OsPath.norm_comps i b acc'.
Proof.
  induction a as [|comp a IH]; intros acc.
  - exists acc. done.
  - simpl. destruct (_ || _).
    + destruct (IH acc) as [acc' H]. eauto.
    + destruct (_ || _).
      * destruct (IH (comp :: acc)) as [acc' H]. eauto.
      * destruct (IH (tail acc)) as [acc' H]. eauto.
Qed.

Lemma norm_comps_last i L acc :
  (∃ c, c ∈ L ∧ c ≠ OsPath.period) →
  OsPath.norm_comps i [L] acc = rev acc ++ [L].
Proof.
  intros (c & Hc & Hne). simpl.
  assert (L ≠ []) by (intros ->; by apply elem_of_nil in Hc).
  assert (L ≠ [OsPath.period])
    by (intros ->; apply list_elem_of_singleton in Hc; done).
  assert (L ≠ OsPath.dotdot).
  { intros ->. unfold OsPath.dotdot in Hc.
    apply elem_of_cons in Hc as [?|Hc]; [done|].
    apply list_elem_of_singleton in Hc. done. }
  rewrite !bool_decide_eq_false_2 by done. done.
Qed.

Lemma join_snoc sep (l : list pstr) :
  ∃ B, ∀ z, PyStr.join sep (l ++ [z]) = B ++ z.
Proof.
  destruct l as [|x l]; simpl.
  - exists []. intros z. by rewrite app_nil_r.
  - exists (x ++ concat (map (fun y => sep ++ y) l) ++ sep).
    intros z. rewrite map_app, concat_app. simpl.
    by rewrite app_nil_r, <- !app_assoc.
Qed.

Lemma startswith_slashes s : ∀ pre x y,
  Forall (fun c => c = OsPath.slash) s →
  x ≠ [] → y ≠ [] → OsPath.slash ∉ x → OsPath.slash ∉ y →
  PyStr.startswith s (pre ++ x) = PyStr.startswith s (pre ++ y).
Proof.
  induction s as [|c s IH]; intros pre x y Hs Hx Hy Hsx Hsy; [done|].
  inversion Hs as [|? ? -> Hs']; subst.
  destruct pre as [|p pre]; cbn [app PyStr.startswith].
  - destruct x as [|a x]; [done|]. destruct y as [|b y]; [done|].
    apply not_elem_of_cons in Hsx as [Ha _]. apply not_elem_of_cons in Hsy as [Hb _].
    cbn [PyStr.startswith]. destruct (N.eqb_spec OsPath.slash a); [congruence|].
    destruct (N.eqb_spec OsPath.slash b); [congruence|]. done.
  - f_equal. by apply IH.
Qed.

Lemma normpath_nonempty path :
  path ≠ [] →
  OsPath.normpath path =
    let initial := PyStr.startswith [OsPath.slash] path in
    let two := PyStr.startswith [OsPath.slash; OsPath.slash] path
               && negb (PyStr.startswith [OsPath.slash; OsPath.slash; OsPath.slash] path) in
    let comps := OsPath.norm_comps initial (OsPath.split_sep path []) [] in
    let body := PyStr.join [OsPath.slash] comps in
    let out := if initial then (if two then [OsPath.slash; OsPath.slash]
                                else [OsPath.slash]) ++ body
               else body in
    match out with [] => [OsPath.period] | _ => out end.
Proof. by destruct path. Qed.

(** Normalising a path that ends in a name piece leaves the piece at the
    end, and what precedes it does not depend on the piece. *)
Lemma normpath_app pre :
  ∃ A, ∀ x, name_piece x → OsPath.normpath (pre ++ x) = A ++ x.
Proof.
  destruct (split_sep_app pre []) as (comps & lastc & Hsplit).
  set (initial := PyStr.startswith [OsPath.slash] (pre ++ [48])).
  set (two := PyStr.startswith [OsPath.slash; OsPath.slash] (pre ++ [48])
              && negb (PyStr.startswith [OsPath.slash; OsPath.slash; OsPath.slash]
                                        (pre ++ [48]))).
  destruct (norm_comps_app initial comps []) as [acc' Hnorm].
  destruct (join_snoc [OsPath.slash] (rev acc')) as [B HB].
  exists ((if initial then (if two then [OsPath.slash; OsPath.slash] else [OsPath.slash])
           else []) ++ B ++ lastc).
  intros x (Hne & Hsl & c & Hc & Hcp).
  assert (Hflag : ∀ s, Forall (fun c => c = OsPath.slash) s →
            PyStr.startswith s (pre ++ x) = PyStr.startswith s (pre ++ [48])).
  { intros s Hs. apply startswith_slashes; try done.
    intros H%list_elem_of_singleton. done. }
  rewrite normpath_nonempty by (destruct pre; [by destruct x|done]).
  cbv zeta. rewrite !Hflag by (repeat constructor).
  fold initial. fold two. rewrite Hsplit by done. rewrite Hnorm.
  rewrite norm_comps_last by (exists c; split; [apply elem_of_app; by right|done]).
  rewrite HB.
  assert (Hout : ∀ h : pstr, match h ++ B ++ lastc ++ x with
                              | [] => [OsPath.period]
                              | _ => h ++ B ++ lastc ++ x
                              end = h ++ B ++ lastc ++ x).
  { intros h. destruct (h ++ B ++ lastc ++ x) eqn:E; [|done].
    apply app_eq_nil in E as [_ E]. apply app_eq_nil in E as [_ E].
    apply app_eq_nil in E as [_ E]. done. }
  destruct initial; [destruct two|]; rewrite <- ?app_assoc.
  - apply (Hout [OsPath.slash; OsPath.slash]).
  - apply (Hout [OsPath.slash]).
  - apply (Hout []).
Qed.

(** The same for a path made absolute against the working directory. *)
Lemma resolve_app st pre :
  ∃ A, ∀ x, name_piece x → FS.resolve st (pre ++ x) = A ++ x.
Proof.
  unfold FS.resolve, OsPath.abspath, OsPath.isabs.
  destruct (normpath_app pre) as [A1 H1].
  destruct (normpath_app (FS.cwd st ++ pre)) as [A2 H2].
  destruct (normpath_app (FS.cwd st ++ OsPath.slash :: pre)) as [A3 H3].
  destruct (PyStr.startswith [OsPath.slash] (pre ++ [48])) eqn:Habs.
  - exists A1. intros x Hx. destruct Hx as (Hne & Hsl & Hc).
    rewrite (startswith_slashes [OsPath.slash] pre x [48]); try done.
    + rewrite Habs. apply H1. done.
    + repeat constructor.
    + intros H%list_elem_of_singleton. done.
  - destruct (bool_decide (FS.cwd st = []) || PyStr.endswith [OsPath.slash] (FS.cwd st))
      eqn:Hj.
    + exists A2. intros x Hx. pose proof Hx as (Hne & Hsl & Hc).
      rewrite (startswith_slashes [OsPath.slash] pre x [48]); try done.
      * rewrite Habs. unfold OsPath.join.
        rewrite (startswith_slashes [OsPath.slash] pre x [48]); try done.
        -- rewrite Habs, Hj. rewrite app_assoc. by apply H2.
        -- repeat constructor.
        -- intros H%list_elem_of_singleton. done.
      * repeat constructor.
      * intros H%list_elem_of_singleton. done.
    + exists A3. intros x Hx. pose proof Hx as (Hne & Hsl & Hc).
      rewrite (startswith_slashes [OsPath.slash] pre x [48]); try done.
      * rewrite Habs. unfold OsPath.join.
        rewrite (startswith_slashes [OsPath.slash] pre x [48]); try done.
        -- rewrite Habs, Hj.
           replace (FS.cwd st ++ OsPath.slash :: pre ++ x)
             with ((FS.cwd st ++ OsPath.slash :: pre) ++ x)
             by (by rewrite <- app_assoc).
           by apply H3.
        -- repeat constructor.
        -- intros H%list_elem_of_singleton. done.
      * repeat constructor.
      * intros H%list_elem_of_singleton. done.
Qed.

Lemma splitext_ext_no_slash p : OsPath.slash ∉ (OsPath.splitext p).2.
Proof.
  unfold OsPath.splitext.
  destruct (_ && _) eqn:Hc; [|apply not_elem_of_nil]. cbn [snd].
  apply andb_true_iff in Hc as [Hlt _]. apply Z.ltb_lt in Hlt.
  unfold OsPath.from. intros Hin.
  destruct (last_slash p) as [Hp|(a & b & -> & Hb)].
  - by apply subseteq_drop in Hin.
  - unfold OsPath.rfind in Hlt at 1. rewrite rfind_go_last in Hlt by done.
    set (n := Z.to_nat (OsPath.rfind OsPath.period (a ++ OsPath.slash :: b))) in *.
    assert (Hn : (length (a ++ [OsPath.slash]) ≤ n)%nat)
      by (rewrite length_app; simpl; lia).
    replace (a ++ OsPath.slash :: b) with ((a ++ [OsPath.slash]) ++ b) in Hin
      by (by rewrite <- app_assoc).
    rewrite drop_app_ge in Hin by done. by apply subseteq_drop in Hin.
Qed.

Lemma path_exists_existing st t :
  FS.path_exists st t = true → FS.resolve st t ∈ existing st.
Proof.
  unfold FS.path_exists, FS.isfile, FS.isdir, existing.
  intros [H|H]%orb_true_iff; apply andb_true_iff in H as [_ H];
    apply bool_decide_eq_true in H; apply elem_of_union; [left|by right].
  by apply elem_of_dom.
Qed.

(** The candidates of the conflict loop are different paths. *)
Lemma candidates_differ st pre ext :
  OsPath.slash ∉ ext →
  ∀ i j, (0 < i)%Z → (0 < j)%Z →
    FS.resolve st (pre ++ PyStr.of_Z i ++ ext) = FS.resolve st (pre ++ PyStr.of_Z j ++ ext) →
    i = j.
Proof.
  intros Hext i j Hi Hj.
  destruct (resolve_app st pre) as [A HA].
  assert (Hpiece : ∀ k, (0 < k)%Z → name_piece (PyStr.of_Z k ++ ext)).
  { intros k Hk. destruct (of_Z_positive k Hk) as (Hne & Hdec & _).
    destruct (PyStr.of_Z k) as [|c ds] eqn:E; [done|].
    inversion Hdec as [|? ? Hc Hds]; subst.
    split; [done|]. split.
    - intros Hin. apply elem_of_app in Hin as [Hin|Hin]; [|done].
      rewrite Forall_forall in Hdec. apply Hdec, decimal_range in Hin.
      unfold OsPath.slash in Hin. lia.
    - exists c. split; [left|]. apply decimal_range in Hc. unfold OsPath.period. lia. }
  rewrite !HA by auto. intros E. apply app_inv_head, app_inv_tail in E.
  by apply of_Z_inj.
Qed.

Lemma free_name_unfold cfg fuel st base ext i t :
  free_name cfg fuel st base ext i t
  = if FS.path_exists st t then
      match fuel with
      | O => None
      | S fuel' =>
        free_name cfg fuel' st base ext (i + 1)%Z
                  (base ++ var_conflict_suffix cfg ++ PyStr.of_Z i ++ ext)
      end
    else Some t.
Proof. by destruct fuel. Qed.

(** With more rounds than there are paths the conflict loop finds a free
    name. *)
Lemma free_name_total cfg st base ext :
  OsPath.slash ∉ ext →
  ∀ fuel i t (T : gset pstr),
    (0 < i)%Z → T ⊆ existing st →
    (∀ k, (i ≤ k)%Z →
          FS.resolve st (base ++ var_conflict_suffix cfg ++ PyStr.of_Z k ++ ext) ∉ T) →
    (size (existing st) < fuel + size T)%nat →
    is_Some (free_name cfg fuel st base ext i t).
Proof.
  intros Hext. induction fuel as [|fuel IH]; intros i t T Hi HT Hfresh Hsize;
    rewrite free_name_unfold; destruct (FS.path_exists st t) eqn:Et; eauto.
  - pose proof (subseteq_size _ _ HT). lia.
  - set (cand := base ++ var_conflict_suffix cfg ++ PyStr.of_Z i ++ ext).
    destruct (FS.path_exists st cand) eqn:Ec.
    2:{ rewrite free_name_unfold, Ec. eauto. }
    apply (IH _ _ ({[FS.resolve st cand]} ∪ T)); [lia| | |].
    + apply union_subseteq. split; [|done].
      apply singleton_subseteq_l. by apply path_exists_existing.
    + intros k Hk Hin. apply elem_of_union in Hin as [Hin|Hin].
      * apply elem_of_singleton in Hin. unfold cand in Hin.
        rewrite !(app_assoc base) in Hin.
        apply candidates_differ in Hin; [lia|done|lia|lia].
      * apply (Hfresh k); [lia|done].
    + rewrite size_union, size_singleton; [lia|].
      apply disjoint_singleton_l. apply Hfresh. lia.
Qed.

Lemma resolve_conflict_total cfg fuel st target :
  (size (existing st) < fuel)%nat → is_Some (resolve_conflict cfg fuel st target).
Proof.
  intros Hfuel. unfold resolve_conflict.
  destruct (FS.path_exists st target); [|eauto].
  pose proof (splitext_ext_no_slash target) as Hext.
  destruct (OsPath.splitext target) as [base ext]. simpl in Hext.
  apply (free_name_total cfg st base ext Hext fuel 1%Z _ ∅); [lia|done| |].
  - intros k _. apply not_elem_of_empty.
  - rewrite size_empty. lia.
Qed.

(** More rounds do not change a name that was found. *)
Lemma free_name_mono cfg st base ext : ∀ fuel fuel' i t r,
  free_name cfg fuel st base ext i t = Some r → (fuel ≤ fuel')%nat →
  free_name cfg fuel' st base ext i t = Some r.
Proof.
  induction fuel as [|fuel IH]; intros fuel' i t r;
    rewrite (free_name_unfold cfg fuel'), free_name_unfold;
    destruct (FS.path_exists st t); try done.
  intros Hr Hle. destruct fuel' as [|fuel']; [lia|]. apply IH; [done|lia].
Qed.

Lemma resolve_conflict_mono cfg st target fuel fuel' r :
  resolve_conflict cfg fuel st target = Some r → (fuel ≤ fuel')%nat →
  resolve_conflict cfg fuel' st target = Some r.
Proof.
  unfold resolve_conflict. destruct (FS.path_exists st target); [|done].
  destruct (OsPath.splitext target). apply free_name_mono.
Qed.

Lemma execute_entry_mono cfg st e fuel fuel' r :
  execute_entry cfg fuel st e = Some r → (fuel ≤ fuel')%nat →
  execute_entry cfg fuel' st e = Some r.
Proof.
  unfold execute_entry. destruct (destination cfg e) as [[target_dir target]|]; [|done].
  destruct (if FS.path_exists st target_dir then _ else _) as [st1|]; [|done].
  destruct (resolve_conflict cfg fuel st1 target) as [t'|] eqn:E; [|done].
  intros Hr Hle. by rewrite (resolve_conflict_mono cfg st1 target fuel fuel' t' E Hle).
Qed.

Lemma execute_entry_total cfg st e :
  ∃ fuel0 r, ∀ fuel, (fuel0 ≤ fuel)%nat → execute_entry cfg fuel st e = Some r.
Proof.
  unfold execute_entry. destruct (destination cfg e) as [[target_dir target]|].
  2:{ exists 0%nat. eauto. }
  destruct (if FS.path_exists st target_dir then _ else _) as [st1|].
  2:{ exists 0%nat. eauto. }
  set (fuel0 := S (size (existing st1))).
  destruct (resolve_conflict_total cfg fuel0 st1 target) as [t' Ht']; [unfold fuel0; lia|].
  exists fuel0.
  exists (match FS.move st1 (oldabs e) t' with
          | Ok st2 => (st2, Some (oldabs e, t'))
          | Raise _ => (st1, None)
          end).
  intros fuel Hle.
  rewrite (resolve_conflict_mono cfg st1 target fuel0 fuel t' Ht' Hle).
  by destruct (FS.move st1 (oldabs e) t').
Qed.

Lemma execute_loop_total cfg preview_list : ∀ st log0,
  ∃ fuel0 r, ∀ fuel, (fuel0 ≤ fuel)%nat →
    execute_loop cfg fuel st preview_list log0 = Some r.
Proof.
  induction preview_list as [|e rest IH]; intros st log0.
  - exists 0%nat. simpl. eauto.
  - destruct (execute_entry_total cfg st e) as (f1 & [st1 row] & H1).
    destruct (IH st1 (match row with Some r => log0 ++ [r] | None => log0 end))
      as (f2 & r & H2).
    exists (Nat.max f1 f2), r. intros fuel Hle. cbn [execute_loop].
    rewrite H1 by lia. destruct row; apply H2; lia.
Qed.

(** X18.  The executor always comes to an end: for every configuration,
    state of the file system and preview there is a bound on the rounds
    of the conflict loop from which on the run returns, always with the
    same final state and log. *)
Theorem execute_task_terminates cfg st preview_list :
  ∃ fuel0 st' log, ∀ fuel, (fuel0 ≤ fuel)%nat →
    _execute_task cfg fuel st preview_list = Some (st', log).
Proof.
  destruct (execute_loop_total cfg preview_list st []) as (fuel0 & [st' log] & H).
  exists fuel0, st', log. exact H.
Qed.

(** ** More on sorting and undoing *)

(** *** Sorting what is sorted *)

Lemma insert_sorted_last {K A} (lt : K → K → result bool) (x : K * A) l :
  Forall (fun y => keyed_le lt y x) l → insert_sorted lt x l = Ok (l ++ [x]).
Proof.
  induction 1 as [|y l Hy _ IH]; simpl; [done|].
  unfold keyed_le in Hy. rewrite Hy. cbn. by rewrite IH.
Qed.

Lemma StronglySorted_before {T} (R : T → T → Prop) a x t :
  StronglySorted R (a ++ x :: t) → Forall (fun y => R y x) a.
Proof.
  induction a as [|y a IH]; simpl; intros Hs; [constructor|].
  apply StronglySorted_inv in Hs as [Hs Hy]. constructor; [|by apply IH].
  rewrite Forall_forall in Hy. apply Hy. apply elem_of_app. right. left.
Qed.

Lemma sort_keyed_id {K A} (lt : K → K → result bool) (l : list (K * A)) : ∀ acc,
  StronglySorted (keyed_le lt) (acc ++ l) → sort_keyed lt l acc = Ok (acc ++ l).
Proof.
  induction l as [|x t IH]; intros acc Hs; simpl.
  - by rewrite app_nil_r.
  - rewrite (insert_sorted_last lt x acc) by (by eapply StronglySorted_before).
    cbn. rewrite IH; rewrite <- app_assoc; done.
Qed.

(** [sorted] leaves a list alone that is in the order of its keys. *)
Lemma sorted_by_id {K A} (lt : K → K → result bool) (key : A → result K) l :
  Forall (fun a => ∃ k, key a = Ok k) l →
  StronglySorted (fun a b => ∃ ka kb, key a = Ok ka ∧ key b = Ok kb
                                      ∧ lt kb ka = Ok false) l →
  sorted_by lt key l = Ok l.
Proof.
  intros Hkeys Hs. unfold sorted_by.
  destruct (rmapM_total (fun a => k ← key a; Ok (k, a)) l) as [keyed Hk].
  { eapply Forall_impl; [exact Hkeys|]. intros a [k ->]. cbn. eauto. }
  rewrite Hk. cbn. apply rmapM_Ok_Forall2 in Hk.
  assert (Hsk : StronglySorted (keyed_le lt) keyed ∧ map snd keyed = l).
  { clear Hkeys. induction Hk as [|a [k a'] l keyed Ha Hk IH].
    - split; [constructor|done].
    - destruct (key a) as [k0|] eqn:Eka; cbn in Ha; [|done]. injection Ha as <- <-.
      apply StronglySorted_inv in Hs as [Hs Hal].
      destruct (IH Hs) as [IH1 IH2]. split; [|simpl; by rewrite IH2].
      constructor; [done|].
      rewrite Forall_forall in Hal. apply Forall_forall. intros [kb b] Hb.
      assert (Hb' : key b = Ok kb ∧ b ∈ l).
      { clear -Hk Hb. induction Hk as [|a0 [k1 a1] l keyed Ha0 _ IH].
        - by apply elem_of_nil in Hb.
        - apply elem_of_cons in Hb as [[= -> ->]|Hb].
          + destruct (key a0) eqn:E; cbn in Ha0; [|done]. injection Ha0 as <- <-.
            split; [done|left].
          + destruct (IH Hb) as [? ?]. split; [done|by right]. }
      destruct Hb' as [Hkb Hbl].
      destruct (Hal b Hbl) as (ka' & kb' & Hka' & Hkb' & Hlt).
      unfold keyed_le. simpl. congruence. }
  destruct Hsk as [Hsk Hsnd].
  rewrite (sort_keyed_id lt keyed []) by done. cbn. by rewrite Hsnd.
Qed.

(** X19.  Sorting by name in the preview keeps the order the scan has
    delivered, ties included: a list that comes out of the sort of the
    scan is returned unchanged by the sort methods [name] and
    [numeric]. *)
Theorem name_sort_keeps_scan_order files file_list :
  _scan_sort files = Ok file_list →
  sort_files (u "name") file_list = Ok file_list
  ∧ sort_files (u "numeric") file_list = Ok file_list.
Proof.
  intros Hs.
  assert (Hid : sorted_by key_lt (fun p => natural_key (OsPath.basename p)) file_list
                = Ok file_list).
  { apply sorted_by_id.
    - pose proof Hs as Hs'. apply sorted_by_Ok in Hs' as [Hperm Hkeys].
      apply Forall_forall. intros p Hp. rewrite Forall_forall in Hkeys.
      apply Hkeys. by rewrite <- Hperm.
    - unfold _scan_sort in Hs.
      eapply (sorted_by_sorted key_lt (alternating false)) in Hs.
      + exact Hs.
      + intros a b. apply key_lt_asym.
      + intros a b c Ha Hb Hc. by apply key_lt_le_trans with (p := false).
      + intros a k. apply natural_key_alternating. }
  unfold sort_files. split.
  - by rewrite bool_decide_eq_true_2.
  - rewrite bool_decide_eq_false_2 by done. by rewrite bool_decide_eq_true_2.
Qed.

Lemma undo_row_undone st o n :
  undone st (o, n) → undo_row st [o; n] = Ok (st, Some (o, o)).
Proof.
  intros [Habs Ho [c Hc] Hnd Hgone Hpar Hpd]. simpl in *.
  pose proof (isabs_nonempty _ Habs) as Hone.
  assert (Hdir : FS.isdir st o = false).
  { unfold FS.isdir. rewrite Ho. rewrite (bool_decide_eq_false_2 (o ∈ _)) by done.
    by rewrite andb_false_r. }
  assert (Hex : FS.path_exists st o = true).
  { unfold FS.path_exists, FS.isfile. rewrite Ho, Hc.
    apply orb_true_iff. left. apply andb_true_iff. split.
    - by rewrite bool_decide_eq_false_2.
    - apply bool_decide_eq_true. eauto. }
  assert (Hsrc : undo_source st o (Some n) = Some o).
  { unfold undo_source. change (default [] (Some n)) with n.
    rewrite Hgone, andb_false_r. unfold nonempty at 1.
    rewrite (bool_decide_eq_false_2 (o = [])) by done. cbn [negb andb].
    by rewrite Hex. }
  assert (Hpe : FS.path_exists st (OsPath.dirname o) = true)
    by (unfold FS.path_exists; rewrite Hpar; apply orb_true_r).
  unfold undo_row. cbn [head]. rewrite Hsrc, Habs, Hpe. cbn [mbind result_bind rbind].
  unfold FS.move. destruct o as [|o0 o']; [done|].
  rewrite Ho, Hc, Hdir. cbn [andb negb].
  rewrite Ho, Hdir. rewrite (bool_decide_eq_true_2 _ Hpd). cbn [andb negb].
  rewrite insert_delete_eq, insert_id by done. by destruct st.
Qed.

Lemma undo_loop_undone (log : list log_row) st : ∀ rows_out,
  Forall (undone st) log →
  undo_loop st (csv_rows log) rows_out
  = (st, Ok (rows_out ++ map (fun r => (r.1, r.1)) log)).
Proof.
  induction log as [|[o n] log IH]; intros rows_out Hall.
  - simpl. by rewrite app_nil_r.
  - inversion Hall as [|? ? Hr Hrest]; subst.
    unfold csv_rows. cbn [map undo_loop fst snd]. fold (csv_rows log).
    rewrite (undo_row_undone st o n Hr). rewrite (IH _ Hrest).
    by rewrite <- app_assoc.
Qed.

(** X20.  Undoing the same log a second time changes nothing: after the
    undo of a log whose rows can each be reversed, whose paths are
    pairwise distinct and whose new paths are no directories, a second
    undo of that log leaves every file and directory as it is (each row
    moves the file at the old path onto itself). *)
Theorem undo_twice_changes_nothing (log : list log_row) (st : FS.t) :
  NoDup (map fst log ++ map snd log) →
  Forall (reversible st) log →
  Forall (fun r => r.2 ∉ FS.dirs st) log →
  ∃ st',
    _undo_task st (csv_rows log) = (st', Ok (map (fun r => (r.2, r.1)) log))
    ∧ _undo_task st' (csv_rows log) = (st', Ok (map (fun r => (r.1, r.1)) log)).
Proof.
  intros Hnd Hall Hnodir.
  destruct (undo_loop_separated log st [] Hnd Hall)
    as (st' & Hrun & Hd & Hw & Hlog & _).
  exists st'. split; [exact Hrun|].
  unfold _undo_task. rewrite (undo_loop_undone log st' []); [done|].
  apply Forall_forall. intros [o n] Hr.
  rewrite Forall_forall in Hall, Hnodir.
  destruct (Hall _ Hr) as [A1 A2 A3 A4 A5 A6 A7 A8]. simpl in *.
  specialize (Hnodir _ Hr). simpl in Hnodir.
  destruct (Hlog _ Hr) as [E1 E2]. simpl in E1, E2.
  assert (Hres : ∀ p, FS.resolve st' p = FS.resolve st p)
    by (intros p; unfold FS.resolve; by rewrite Hw).
  assert (Hisdir : ∀ p, FS.isdir st' p = FS.isdir st p)
    by (intros p; unfold FS.isdir; by rewrite Hres, Hd).
  constructor; simpl; rewrite ?Hres, ?Hisdir, ?Hd; try done.
  - by rewrite E1.
  - unfold FS.path_exists, FS.isfile, FS.isdir. rewrite Hres, A4, E2, Hd.
    rewrite (bool_decide_eq_false_2 (is_Some None)) by (by intros [? ?]).
    rewrite (bool_decide_eq_false_2 (n ∈ _)) by done.
    by rewrite !andb_false_r.
Qed.

(** ** The default template and the parser *)

Lemma format_default title s e ext orig :
  format_template (H := BasicFormat.format) default_template title
                  (Some s) (Some e) ext orig
  = Ok (default_name title s e ext).
Proof.
  unfold default_name.
  transitivity (Ok (title ++ 46 :: 83 :: PyStr.zfill 2 (PyStr.of_Z s) ++ 69 ::
                      PyStr.zfill 3 (PyStr.of_Z e) ++ 46 :: PyStr.lstrip (u ".") ext ++ [])
                : result pstr).
  - reflexivity.
  - by rewrite app_nil_r.
Qed.

Lemma digits_ok_below_100 : forallb (digits_ok 2) (seq 0 100) = true.
Proof. vm_compute. reflexivity. Qed.

Lemma digits_ok_below_1000 : forallb (digits_ok 3) (seq 0 1000) = true.
Proof. vm_compute. reflexivity. Qed.

Lemma digits_ok_spec width bound z :
  forallb (digits_ok width) (seq 0 bound) = true →
  (0 ≤ z < Z.of_nat bound)%Z →
  length (PyStr.zfill width (PyStr.of_Z z)) = width
  ∧ Forall (fun c => PyChar.is_decimal c = true) (PyStr.zfill width (PyStr.of_Z z))
  ∧ PyStr.int (PyStr.zfill width (PyStr.of_Z z)) = Ok z.
Proof.
  intros Hall Hz. rewrite forallb_forall in Hall.
  specialize (Hall (Z.to_nat z)). rewrite in_seq in Hall.
  specialize (Hall ltac:(lia)). unfold digits_ok in Hall.
  rewrite Z2Nat.id in Hall by lia.
  apply andb_true_iff in Hall as [Hall Hint]. apply andb_true_iff in Hall as [Hlen Hdec].
  apply Nat.eqb_eq in Hlen. split; [done|]. split.
  - apply Forall_forall. intros c Hc. rewrite forallb_forall in Hdec.
    apply Hdec. by apply list_elem_of_In.
  - destruct (PyStr.int _) as [z'|]; [|done]. apply Z.eqb_eq in Hint. by subst.
Qed.


(** *** Single steps of the matcher *)

Lemma run_Seq a b k st : run (Seq a b) k st = run a (run b k) st.
Proof. reflexivity. Qed.

Lemma run_Cls_cons p k i b c t cs :
  run (Cls p) k (MState i b (c :: t) cs)
  = if p c then k (MState (S i) (Some c) t cs) else None.
Proof. reflexivity. Qed.

Lemma run_Cls_nil p k i b cs : run (Cls p) k (MState i b [] cs) = None.
Proof. reflexivity. Qed.

Lemma run_opt a k st : run (opt a) k st = orelse (run a k st) (k st).
Proof. reflexivity. Qed.

Lemma run_rep_1_2 a k st :
  run (rep 1 2 a) k st = run a (fun st1 => orelse (run a k st1) (k st1)) st.
Proof. reflexivity. Qed.

Lemma run_rep_1_3 a k st :
  run (rep 1 3 a) k st
  = run a (fun st1 =>
             orelse (run a (fun st2 => orelse (run a k st2) (k st2)) st1) (k st1)) st.
Proof. reflexivity. Qed.

(** *** The marker behind the title *)

(** No match of the SxxEyy pattern starts at a character other than
    [s] or [S], or at one that no digit follows. *)
Lemma sxxeyy_needs_digit i b c t :
  mem_char c (u "sS")
  && match t with d :: _ => PyChar.is_decimal d | [] => false end = false →
  run Pat.sxxeyy Some (MState i b (c :: t) []) = None.
Proof.
  intros Ht. unfold Pat.sxxeyy. cbn [seq_of]. rewrite run_Seq. unfold set at 1.
  rewrite run_Cls_cons. destruct (mem_char c (u "sS")); [|done].
  rewrite run_Seq, run_Group, run_rep_1_2. unfold digit at 1.
  destruct t as [|d t']; [by rewrite run_Cls_nil|].
  rewrite run_Cls_cons. simpl in Ht. by rewrite Ht.
Qed.

(** At the marker the pattern matches, with the season in group 1 and
    the episode in group 2. *)
Lemma sxxeyy_at_marker i b d1 d2 e1 e2 e3 tail :
  PyChar.is_decimal d1 = true → PyChar.is_decimal d2 = true →
  PyChar.is_decimal e1 = true → PyChar.is_decimal e2 = true →
  PyChar.is_decimal e3 = true →
  run Pat.sxxeyy Some (MState i b (83 :: d1 :: d2 :: 69 :: e1 :: e2 :: e3 :: tail) [])
  = Some (MState (i + 7) (Some e3) tail
                 [(2%nat, (i + 4, i + 7))%nat; (1%nat, (i + 1, i + 3))%nat]).
Proof.
  intros H1 H2 H3 H4 H5. unfold Pat.sxxeyy. cbn [seq_of]. rewrite run_Seq. unfold set at 1.
  rewrite run_Cls_cons. change (mem_char 83 (u "sS")) with true. cbv iota.
  rewrite run_Seq, run_Group, run_rep_1_2. unfold digit at 1 2.
  rewrite run_Cls_cons, H1, run_Cls_cons, H2. cbn [pos prev rest caps].
  rewrite run_Seq, run_opt, run_Seq. unfold set at 1 2 3.
  rewrite !run_Cls_cons.
  change (mem_char 69 (u " ._-")) with false. change (mem_char 69 (u "eE")) with true.
  cbv iota. cbn [orelse].
  rewrite run_Group, run_rep_1_3. unfold digit.
  rewrite run_Cls_cons, H3, run_Cls_cons, H4, run_Cls_cons, H5. cbn [pos prev rest caps orelse].
  repeat f_equal; lia.
Qed.

Lemma search_skip_title title : ∀ i b c rest,
  no_season_marker title = true → PyChar.is_decimal c = false →
  ∃ b', search_from Pat.sxxeyy i b (title ++ c :: rest)
        = search_from Pat.sxxeyy (i + length title) b' (c :: rest).
Proof.
  induction title as [|x title IH]; intros i b c rest Ht Hc.
  - exists b. simpl. by rewrite Nat.add_0_r.
  - cbn [no_season_marker] in Ht. apply andb_true_iff in Ht as [Hx Ht].
    apply negb_true_iff in Hx.
    destruct (IH (S i) (Some x) c rest Ht Hc) as (b' & Hb').
    exists b'. cbn [app search_from]. rewrite sxxeyy_needs_digit.
    + rewrite Hb'. cbn [length]. by rewrite Nat.add_succ_r.
    + destruct title as [|y title']; [|exact Hx].
      simpl. rewrite Hc. apply andb_false_r.
Qed.

Lemma slice_behind (a b : pstr) n m :
  slice (a ++ b) (length a + n) (length a + m) = slice b n m.
Proof.
  unfold slice. rewrite drop_app_add.
  by replace (length a + m - (length a + n))%nat with (m - n)%nat by lia.
Qed.

Lemma two_digits (t : pstr) :
  length t = 2%nat → Forall (fun c => PyChar.is_decimal c = true) t →
  ∃ d1 d2, t = [d1; d2] ∧ PyChar.is_decimal d1 = true ∧ PyChar.is_decimal d2 = true.
Proof.
  destruct t as [|d1 [|d2 [|? ?]]]; try done. intros _ H.
  inversion H as [|? ? H1 H']; subst. inversion H' as [|? ? H2 _]; subst. eauto.
Qed.

Lemma three_digits (t : pstr) :
  length t = 3%nat → Forall (fun c => PyChar.is_decimal c = true) t →
  ∃ d1 d2 d3, t = [d1; d2; d3] ∧ PyChar.is_decimal d1 = true
              ∧ PyChar.is_decimal d2 = true ∧ PyChar.is_decimal d3 = true.
Proof.
  destruct t as [|d1 [|d2 [|d3 [|? ?]]]]; try done. intros _ H.
  inversion H as [|? ? H1 H']; subst. inversion H' as [|? ? H2 H'']; subst.
  inversion H'' as [|? ? H3 _]; subst. eauto 10.
Qed.

(** The parser on a stem that carries the marker behind the title. *)
Lemma parse_name_marker title s e y :
  (0 ≤ s ≤ 99)%Z → (0 ≤ e ≤ 999)%Z → no_season_marker title = true →
  ∃ t, parse_name (title ++ u ".S" ++ PyStr.zfill 2 (PyStr.of_Z s) ++ u "E"
                         ++ PyStr.zfill 3 (PyStr.of_Z e) ++ y)
       = Ok (Some s, Some e, t).
Proof.
  intros Hs He Ht.
  destruct (digits_ok_spec 2 100 s digits_ok_below_100 ltac:(lia)) as (Hl2 & Hd2 & Hi2).
  destruct (digits_ok_spec 3 1000 e digits_ok_below_1000 ltac:(lia)) as (Hl3 & Hd3 & Hi3).
  destruct (two_digits _ Hl2 Hd2) as (d1 & d2 & E2 & D1 & D2).
  destruct (three_digits _ Hl3 Hd3) as (e1 & e2 & e3 & E3 & F1 & F2 & F3).
  rewrite E2 in Hi2 |- *. rewrite E3 in Hi3 |- *.
  change (title ++ u ".S" ++ [d1; d2] ++ u "E" ++ [e1; e2; e3] ++ y)
    with (title ++ 46 :: 83 :: d1 :: d2 :: 69 :: e1 :: e2 :: e3 :: y).
  set (marker := 46 :: 83 :: d1 :: d2 :: 69 :: e1 :: e2 :: e3 :: y).
  assert (Hm : search Pat.sxxeyy (title ++ marker)
               = Some (RMatch (length title + 1) (length title + 8)
                              [(2%nat, (length title + 5, length title + 8))%nat;
                               (1%nat, (length title + 2, length title + 4))%nat])).
  { subst marker.
    change (search Pat.sxxeyy ?w) with (search_from Pat.sxxeyy 0 None w).
    destruct (search_skip_title title 0 None 46 (83 :: d1 :: d2 :: 69 :: e1 :: e2 :: e3 :: y))
      as (b' & ->); [done|done|].
    cbn [search_from]. rewrite sxxeyy_needs_digit by done.
    rewrite sxxeyy_at_marker by done. cbn [pos caps].
    rewrite Nat.add_0_l. replace (S (length title)) with (length title + 1)%nat by lia.
    rewrite <- !Nat.add_assoc. reflexivity. }
  unfold parse_name. rewrite Hm. unfold int_group, group. cbn [m_groups assoc_nat Nat.eqb].
  rewrite !slice_behind. subst marker.
  change (slice _ 2 4) with [d1; d2]. change (slice _ 5 8) with [e1; e2; e3].
  rewrite Hi2, Hi3. cbn. eauto.
Qed.

(** *** The stem of the produced name *)

Lemma last_occurrence (c : N) (p : pstr) :
  c ∉ p ∨ ∃ a b, p = a ++ c :: b ∧ c ∉ b.
Proof.
  induction p as [|x t IH]; [left; apply not_elem_of_nil|].
  destruct IH as [Ht|(a & b & -> & Hb)].
  - destruct (decide (x = c)) as [->|Hx].
    + right. exists [], t. done.
    + left. by apply not_elem_of_cons.
  - right. exists (x :: a), b. done.
Qed.

Lemma rfind_behind c a b :
  ∃ k, OsPath.rfind c (a ++ c :: b) = (Z.of_nat (length a + k))%Z.
Proof.
  unfold OsPath.rfind. destruct (last_occurrence c b) as [Hb|(b1 & b2 & -> & Hb2)].
  - exists 0%nat. rewrite rfind_go_last by done. lia.
  - exists (S (length b1)).
    replace (a ++ c :: b1 ++ c :: b2) with ((a ++ c :: b1) ++ c :: b2)
      by (by rewrite <- app_assoc).
    rewrite rfind_go_last by done. rewrite length_app. cbn [length]. lia.
Qed.

Lemma splitext_stem a b :
  OsPath.slash ∉ (a ++ OsPath.period :: b) →
  existsb (fun c => negb (c =? OsPath.period)) a = true →
  ∃ y, (OsPath.splitext (a ++ OsPath.period :: b)).1 = a ++ y.
Proof.
  intros Hslash Ha. unfold OsPath.splitext.
  destruct (rfind_behind OsPath.period a b) as (k & ->).
  unfold OsPath.rfind at 1 2. rewrite rfind_go_absent by done.
  replace (-1 <? Z.of_nat (length a + k))%Z with true by (symmetry; apply Z.ltb_lt; lia).
  unfold slice, OsPath.upto. rewrite Nat2Z.id.
  change (Z.to_nat (-1 + 1)) with 0%nat. rewrite drop_0, Nat.sub_0_r.
  rewrite take_app_add' by done.
  rewrite existsb_app, Ha. cbn [andb orb fst]. eauto.
Qed.


(** ** Instances of the properties above *)








Lemma undo_restores_witness :
  ∃ st',
    _undo_task fs_renamed (csv_rows log_renamed)
    = (st', Ok (map (fun r => (r.2, r.1)) log_renamed))
    ∧ (∀ r, r ∈ log_renamed → FS.files st' !! r.1 = FS.files fs_renamed !! r.2
                              ∧ FS.files st' !! r.2 = None)
    ∧ (∀ p, p ∉ map fst log_renamed → p ∉ map snd log_renamed →
            FS.files st' !! p = FS.files fs_renamed !! p).
Proof.
  apply (undo_restores_separated_log log_renamed fs_renamed).
  - compute_done.
  - repeat constructor; try (vm_compute; reflexivity); try (vm_compute; eauto);
      compute_done.
Defined.

Lemma parse_dnd_round_trip_witness :
  _parse_dnd_paths (u "{/tv/My Show} /tv/Other") = [u "/tv/My Show"; u "/tv/Other"].
Proof.
  apply (parse_dnd_round_trip [(true, u "/tv/My Show"); (false, u "/tv/Other")]).
  reflexivity.
Defined.

Lemma on_drop_witness :
  ∃ added, _on_drop fs_two_episodes [u "/tv"] (u "{/tv} / /nowhere") = [u "/tv"] ++ added
           ∧ NoDup (_on_drop fs_two_episodes [u "/tv"] (u "{/tv} / /nowhere"))
           ∧ ∀ p, p ∈ added ↔ p ∈ _parse_dnd_paths (u "{/tv} / /nowhere")
                              ∧ FS.isdir fs_two_episodes p = true ∧ p ∉ [u "/tv"].
Proof.
  apply (on_drop_keeps_folders_distinct fs_two_episodes [u "/tv"] (u "{/tv} / /nowhere")).
  apply NoDup_singleton.
Defined.



Lemma name_sort_witness :
  sort_files (u "name") [u "/tv/Ep1.mkv"; u "/tv/ep2.mkv"; u "/tv/ep10.mkv"]
  = Ok [u "/tv/Ep1.mkv"; u "/tv/ep2.mkv"; u "/tv/ep10.mkv"]
  ∧ sort_files (u "numeric") [u "/tv/Ep1.mkv"; u "/tv/ep2.mkv"; u "/tv/ep10.mkv"]
    = Ok [u "/tv/Ep1.mkv"; u "/tv/ep2.mkv"; u "/tv/ep10.mkv"].
Proof.
  apply (name_sort_keeps_scan_order unsorted_episodes).
  vm_compute; reflexivity.
Defined.

Lemma undo_twice_witness :
  ∃ st',
    _undo_task fs_renamed (csv_rows log_renamed)
    = (st', Ok (map (fun r => (r.2, r.1)) log_renamed))
    ∧ _undo_task st' (csv_rows log_renamed)
      = (st', Ok (map (fun r => (r.1, r.1)) log_renamed)).
Proof.
  apply (undo_twice_changes_nothing log_renamed fs_renamed).
  - compute_done.
  - repeat constructor; try (vm_compute; reflexivity); try (vm_compute; eauto);
      compute_done.
  - repeat constructor; compute_done.
Defined.

